(** * Polymer: entity orchestrator, parallel partitioner and particle step

    A shallow embedding of three parts of
    [lib-engine/gfx/gl/gl-particle-system.cpp]:
      - [particle_parallel_for]            (l. 5-27),
      - [gl_particle_system::add], [update] (l. 57-128),
      - [entity_orchestrator]              (l. 267-302),
    followed by the properties the specification states about them.

    C++ [int] values are integers in [[INT_MIN, INT_MAX]]; an operation whose
    mathematical result leaves that interval, or a division by zero, has
    undefined behaviour and is modelled as a [Fault].  [entity] is
    [uint64_t]: unsigned arithmetic wraps modulo [2^64].  Calls of
    [create_entity] by several threads are the interleavings of the
    threads' steps: lock, read and write of the counter, unlock.

    The last part embeds the string utilities of the engine
    ([replace_in_string], [normalize_path], [starts_with], [split],
    [replace_extension], [get_extension] and the file-name functions). *)

From Stdlib Require Import ZArith Lia Ascii.
From stdpp Require Import base functions option list sorting gmap.

Local Open Scope Z_scope.

(* ===================================================================== *)
(** ** Results of computations that may hit undefined behaviour          *)
(* ===================================================================== *)

Inductive fault : Set :=
  | DivisionByZero
  | SignedOverflow
  | OutOfBounds.

Inductive result (A : Type) : Type :=
  | Ok (a : A)
  | Fault (f : fault).
Arguments Ok {A} a.
Arguments Fault {A} f.

#[global] Instance result_ret : MRet result := @Ok.
#[global] Instance result_bind : MBind result := λ A B k m,
  match m with
  | Ok a => k a
  | Fault f => Fault f
  end.

(** Runs [f] on every element, left to right, stopping at the first fault. *)
Fixpoint for_each {A B : Type} (f : A -> result B) (l : list A) : result (list B) :=
  match l with
  | [] => Ok []
  | a :: l' => b ← f a; bs ← for_each f l'; Ok (b :: bs)
  end.

(* ===================================================================== *)
(** ** C++ integer arithmetic                                            *)
(* ===================================================================== *)

Module CInt.

Definition INT_MIN : Z := - 2147483648.
Definition INT_MAX : Z := 2147483647.
Definition UINT_MOD : Z := 4294967296.

Definition in_int (z : Z) : bool := (INT_MIN <=? z) && (z <=? INT_MAX).

Definition checked (z : Z) : result Z :=
  if in_int z then Ok z else Fault SignedOverflow.

Definition add (a b : Z) : result Z := checked (a + b).
Definition sub (a b : Z) : result Z := checked (a - b).
Definition mul (a b : Z) : result Z := checked (a * b).

(** [a / b] and [a % b] on [int]: truncation towards zero. *)
Definition div (a b : Z) : result Z :=
  if b =? 0 then Fault DivisionByZero else checked (Z.quot a b).
Definition rem (a b : Z) : result Z :=
  if b =? 0 then Fault DivisionByZero
  else _ ← checked (Z.quot a b); Ok (Z.rem a b).

(** Conversions between [int] and [unsigned int] (modular). *)
Definition to_unsigned (i : Z) : Z := i mod UINT_MOD.
Definition of_unsigned (u : Z) : Z :=
  if u <=? INT_MAX then u else u - UINT_MOD.

End CInt.

(* ===================================================================== *)
(** ** particle_parallel_for                                             *)
(* ===================================================================== *)

Module Partitioner.

(** Line 8.  [hw] is the value of [std::thread::hardware_concurrency()], an
    [unsigned int].  The two branches of the conditional have types
    [unsigned] and [int]; the conditional has type [unsigned] and is then
    converted to [int]. *)
Definition hint (hw target_concurrency : Z) : Z :=
  CInt.of_unsigned
    (if target_concurrency =? 0 then hw
     else CInt.to_unsigned target_concurrency).

(** Line 9. *)
Definition n_threads (hw n target_concurrency : Z) : Z :=
  let hint := hint hw target_concurrency in
  Z.min n (if hint =? 0 then 4 else hint).

(** Line 10. *)
Definition n_max_tasks_per_thread (n n_threads : Z) : result Z :=
  q ← CInt.div n n_threads;
  r ← CInt.rem n n_threads;
  CInt.add q (if r =? 0 then 0 else 1).

(** Line 11. *)
Definition n_lacking_tasks (n n_threads n_max_tasks_per_thread : Z) : result Z :=
  p ← CInt.mul n_max_tasks_per_thread n_threads;
  CInt.sub p n.

(** Lines 13-23.  The result is the sequence of arguments on which the
    thread calls [function], in call order. *)
Definition inner_loop (n_threads n_max_tasks_per_thread n_lacking_tasks : Z)
    (thread_index : Z) : result (list Z) :=
  a ← CInt.sub thread_index n_threads;
  d ← CInt.add a n_lacking_tasks;
  let n_lacking_tasks_so_far := Z.max d 0 in
  b ← CInt.mul thread_index n_max_tasks_per_thread;
  inclusive_start_index ← CInt.sub b n_lacking_tasks_so_far;
  c ← CInt.add inclusive_start_index n_max_tasks_per_thread;
  exclusive_end_index ← CInt.sub c (if 0 <=? d then 1 else 0);
  Ok (seqZ inclusive_start_index (exclusive_end_index - inclusive_start_index)).

(** Lines 6-27.  One list of processed indices per spawned thread, in
    spawn order [j = 0 .. n_threads - 1]; the threads run concurrently, so
    only the content of each list and not their relative timing is
    meaningful. *)
Definition particle_parallel_for (hw n target_concurrency : Z)
    : result (list (list Z)) :=
  let n_threads := n_threads hw n target_concurrency in
  n_max ← n_max_tasks_per_thread n n_threads;
  n_lacking ← n_lacking_tasks n n_threads n_max;
  for_each (inner_loop n_threads n_max n_lacking) (seqZ 0 n_threads).

End Partitioner.

(* ===================================================================== *)
(** ** entity_orchestrator                                               *)
(* ===================================================================== *)

Module ECS.

(** [using entity = uint64_t] *)
Definition UINT64_MOD : Z := 18446744073709551616.
Definition kInvalidEntity : Z := 0.

(** A [base_system *] is an address; [nullptr] is address [0]. *)
Definition nullptr : N := 0%N.

Section orchestrator.
(** [typeid.hpp] is not part of the sources at hand: [poly_typeid] is any
    type usable as the key of a [std::unordered_map], and
    [poly_hash_value] converts to it without loss. *)
Context `{Countable poly_typeid}.

(** The private members of the class; [createMutex] only serialises
    [create_entity] and carries no data. *)
Record entity_orchestrator : Type := mk_orchestrator {
  system_type_map : gmap poly_typeid poly_typeid;
  systems : gmap poly_typeid N;
  entity_counter : Z;
}.

(** The implicit default constructor: empty maps, [entity_counter{ 0 }]. *)
Definition new_orchestrator : entity_orchestrator :=
  {| system_type_map := ∅; systems := ∅; entity_counter := 0 |}.

(** Lines 284-287: [system_type_map[def_type] = system_type]. *)
Definition register_system_for_type (system_type def_type : poly_typeid)
    (o : entity_orchestrator) : entity_orchestrator :=
  {| system_type_map := <[def_type := system_type]> (system_type_map o);
     systems := systems o;
     entity_counter := entity_counter o |}.

(** Lines 289-294, executed under the lock: [const entity e = ++entity_counter]. *)
Definition create_entity (o : entity_orchestrator) : Z * entity_orchestrator :=
  let e := (entity_counter o + 1) mod UINT64_MOD in
  (e, {| system_type_map := system_type_map o;
         systems := systems o;
         entity_counter := e |}).

(** Lines 296-301. *)
Definition add_system (system_type : poly_typeid) (system : N)
    (o : entity_orchestrator) : entity_orchestrator :=
  if (system =? nullptr)%N then o
  else match systems o !! system_type with
       | None =>
           {| system_type_map := system_type_map o;
              systems := <[system_type := system]> (systems o);
              entity_counter := entity_counter o |}
       | Some _ => o
       end.

(** The orchestrator together with the free store its systems are
    allocated from: [heap] maps the address of every live system object
    to [get_typeid] of its class. *)
Record world : Type := mk_world {
  heap : gmap N poly_typeid;
  orch : entity_orchestrator;
}.

Definition new_world : world := {| heap := ∅; orch := new_orchestrator |}.

(** [new T(...)]: an address that is neither null nor in use. *)
Definition operator_new (h : gmap N poly_typeid) : N :=
  fresh ({[nullptr]} ∪ dom h).

(** Lines 276-282; [T] stands for [get_typeid<T>()].  Returns [ptr].  The
    constructors of the concrete systems are not among the sources; the
    new-expression is the allocation of one object of class [T]. *)
Definition create_system (T : poly_typeid) (w : world) : N * world :=
  let ptr := operator_new (heap w) in
  (ptr, {| heap := <[ptr := T]> (heap w);
           orch := add_system T ptr (orch w) |}).

(** Calls a client can make on the public interface. *)
Inductive call : Type :=
  | CreateSystem (T : poly_typeid)
  | RegisterSystemForType (system_type def_type : poly_typeid)
  | CreateEntity
  | AddSystem (system_type : poly_typeid) (system : N).

Definition on_orch (f : entity_orchestrator -> entity_orchestrator)
    (w : world) : world :=
  {| heap := heap w; orch := f (orch w) |}.

Definition perform (c : call) (w : world) : world :=
  match c with
  | CreateSystem T => snd (create_system T w)
  | RegisterSystemForType s d => on_orch (register_system_for_type s d) w
  | CreateEntity => on_orch (fun o => snd (create_entity o)) w
  | AddSystem t p => on_orch (add_system t p) w
  end.

(** The world after a sequence of calls, first call first. *)
Definition perform_all (cs : list call) (w : world) : world :=
  foldl (fun w c => perform c w) w cs.

(** A sequence of [create_entity] calls, each labelled with the thread
    issuing it.  The lock makes the calls take effect one at a time, in
    the order in which the threads acquire it, which is the order of the
    list.  Returns every call's thread and result, in that order. *)
Fixpoint create_entities (threads : list nat) (o : entity_orchestrator)
    : list (nat * Z) * entity_orchestrator :=
  match threads with
  | [] => ([], o)
  | t :: ts =>
      let '(e, o1) := create_entity o in
      let '(r, o2) := create_entities ts o1 in
      ((t, e) :: r, o2)
  end.

(** The values one thread received, in its own call order. *)
Definition received_by (t : nat) (log : list (nat * Z)) : list Z :=
  snd <$> filter (fun r => r.1 = t) log.

End orchestrator.

Arguments entity_orchestrator poly_typeid {_ _}.
Arguments world poly_typeid {_ _}.
Arguments call poly_typeid : clear implicits.

End ECS.

(* ===================================================================== *)
(** ** create_entity called from several threads                         *)
(* ===================================================================== *)

Module Threads.

(** What a step of a thread comes to: the next state; no step, the thread
    being blocked; or undefined behaviour. *)
Inductive outcome (A : Type) : Type :=
  | Next (a : A)
  | Blocked
  | Undefined.
Arguments Next {A} a.
Arguments Blocked {A}.
Arguments Undefined {A}.

#[global] Instance outcome_ret : MRet outcome := fun A a => Next a.
#[global] Instance outcome_bind : MBind outcome := fun A B k m =>
  match m with
  | Next a => k a
  | Blocked => Blocked
  | Undefined => Undefined
  end.

(** [std::mutex], as the owner if there is one.  [lock] returns once the
    calling thread owns the mutex and blocks while another thread owns it;
    called by the owner its behaviour is undefined.  [unlock] releases the
    mutex; called by a thread that does not own it its behaviour is
    undefined. *)
Definition mutex : Type := option nat.

Definition lock (t : nat) (m : mutex) : outcome mutex :=
  match m with
  | None => Next (Some t)
  | Some owner => if decide (owner = t) then Undefined else Blocked
  end.

Definition unlock (t : nat) (m : mutex) : outcome mutex :=
  match m with
  | Some owner => if decide (owner = t) then Next None else Undefined
  | None => Undefined
  end.

(** Where a thread stands with respect to [create_entity] (lines 289-294):
    outside of any call; in a call and about to construct [guard], which
    locks [createMutex] (line 291); then, within [++entity_counter] of line
    292, about to read the counter, and about to write the incremented
    value read; about to initialise [e] from the counter; about to destroy
    [guard], which unlocks, and return [e] (line 293). *)
Inductive pc : Type :=
  | Outside
  | AtLock
  | AtLoad
  | AtStore (read : Z)
  | AtInit
  | AtReturn (e : Z).

(** The members [create_entity] touches, the place of every thread, and
    the calls that have returned, with thread and result, in the order of
    their return. *)
Record state : Type := mk_state {
  createMutex : mutex;
  entity_counter : Z;
  pcs : nat -> pc;
  returned : list (nat * Z);
}.

(** A fresh orchestrator ([entity_counter{ 0 }]) and no thread in a call. *)
Definition init : state :=
  {| createMutex := None; entity_counter := 0;
     pcs := fun _ => Outside; returned := [] |}.

(** One step of thread [t]. *)
Definition step (t : nat) (s : state) : outcome state :=
  match pcs s t with
  | Outside =>
      Next {| createMutex := createMutex s; entity_counter := entity_counter s;
              pcs := <[t := AtLock]> (pcs s); returned := returned s |}
  | AtLock =>
      m ← lock t (createMutex s);
      Next {| createMutex := m; entity_counter := entity_counter s;
              pcs := <[t := AtLoad]> (pcs s); returned := returned s |}
  | AtLoad =>
      Next {| createMutex := createMutex s; entity_counter := entity_counter s;
              pcs := <[t := AtStore (entity_counter s)]> (pcs s);
              returned := returned s |}
  | AtStore read =>
      Next {| createMutex := createMutex s;
              entity_counter := (read + 1) mod ECS.UINT64_MOD;
              pcs := <[t := AtInit]> (pcs s); returned := returned s |}
  | AtInit =>
      Next {| createMutex := createMutex s; entity_counter := entity_counter s;
              pcs := <[t := AtReturn (entity_counter s)]> (pcs s);
              returned := returned s |}
  | AtReturn e =>
      m ← unlock t (createMutex s);
      Next {| createMutex := m; entity_counter := entity_counter s;
              pcs := <[t := Outside]> (pcs s);
              returned := returned s ++ [(t, e)] |}
  end.

(** The threads take their steps in the order of the schedule; a schedule
    that has a blocked thread step is not one the machine can follow. *)
Fixpoint run (schedule : list nat) (s : state) : outcome state :=
  match schedule with
  | [] => Next s
  | t :: schedule' => s' ← step t s; run schedule' s'
  end.

(** Between the lock and the unlock. *)
Definition critical (p : pc) : bool :=
  match p with
  | Outside | AtLock => false
  | AtLoad | AtStore _ | AtInit | AtReturn _ => true
  end.

End Threads.

(* ===================================================================== *)
(** ** gl_particle_system                                                *)
(* ===================================================================== *)

Module Particles.

Definition SIZE_MOD : Z := 18446744073709551616.

(** Element access [v[i]] of a [std::vector]: undefined outside [0, size). *)
Definition at_index {A : Type} (v : list A) (i : Z) : result A :=
  if (0 <=? i) && (i <? Z.of_nat (length v)) then
    match v !! Z.to_nat i with
    | Some a => Ok a
    | None => Fault OutOfBounds
    end
  else Fault OutOfBounds.

(** [v[i] = a]. *)
Definition set_index {A : Type} (v : list A) (i : Z) (a : A) : result (list A) :=
  if (0 <=? i) && (i <? Z.of_nat (length v)) then Ok (<[Z.to_nat i := a]> v)
  else Fault OutOfBounds.

(** [for (int k = 0; k < bound; ++k) body], with [bound] a [size_t]: the
    body runs for [k = 0, 1, ...] while [k < bound]; incrementing [k] past
    [INT_MAX] overflows. *)
Fixpoint run_body {S : Type} (body : Z -> S -> result S) (ks : list Z) (s : S)
    : result S :=
  match ks with
  | [] => Ok s
  | k :: ks' => s' ← body k s; run_body body ks' s'
  end.

Definition int_for {S : Type} (bound : Z) (body : Z -> S -> result S) (s : S)
    : result S :=
  s' ← run_body body (seqZ 0 (Z.min bound (CInt.INT_MAX + 1))) s;
  if CInt.INT_MAX <? bound then Fault SignedOverflow else Ok s'.

Section gl_particle_system.
(** [float] and its arithmetic are kept abstract; so are the default
    member values of [particle] and [instance_data], which the missing
    header declares. *)
Context {float : Type}.
Context (fmul fsub : float -> float -> float).
Context (f_0_001 f_0_97 : float).

Definition float3 : Type := float * float * float.
Definition float4 : Type := float * float * float * float.

Definition scale3 (v : float3) (k : float) : float3 :=
  let '(x, y, z) := v in (fmul x k, fmul y k, fmul z k).
Definition sub3 (a b : float3) : float3 :=
  let '(x, y, z) := a in let '(x', y', z') := b in
  (fsub x x', fsub y y', fsub z z').

Record particle : Type := mk_particle {
  position : float3;
  velocity : float3;
  color : float4;
  size : float;
  lifeMs : float;
}.

Record instance_data : Type := mk_instance {
  position_size : float4;
  instance_color : float4;
}.

Context (default_particle : particle).
Context (default_instance : instance_data).

(** The members [update] works on; the GL buffers are left out. *)
Record gl_particle_system : Type := mk_system {
  particles : list particle;
  instances : list instance_data;
  trail : Z;
}.

(** Line 35. *)
Definition set_trail_count (trail_count : Z) (s : gl_particle_system)
    : gl_particle_system :=
  {| particles := particles s; instances := instances s; trail := trail_count |}.

(** Lines 57-65. *)
Definition add (pos vel : float3) (sz life : float) (s : gl_particle_system)
    : gl_particle_system :=
  let p := {| position := pos; velocity := vel; color := color default_particle;
              size := sz; lifeMs := life |} in
  {| particles := particles s ++ [p]; instances := instances s; trail := trail s |}.

(** Lines 67-74. *)
Definition add_colored (pos : float3) (col : float4) (sz : float)
    (s : gl_particle_system) : gl_particle_system :=
  let p := {| position := pos; velocity := velocity default_particle; color := col;
              size := sz; lifeMs := lifeMs default_particle |} in
  {| particles := particles s ++ [p]; instances := instances s; trail := trail s |}.

(** Line 76. *)
Definition clear (s : gl_particle_system) : gl_particle_system :=
  {| particles := []; instances := instances s; trail := trail s |}.

(** Lines 110-119: one pass of the innermost loop body. *)
Definition trail_step (i trail_idx : Z)
    (st : list particle * list instance_data)
    : result (list particle * list instance_data) :=
  let '(ps, ins) := st in
  ps2 ← (if 1 <=? trail_idx then
           p ← at_index ps trail_idx;
           q ← at_index ps trail_idx;
           ps1 ← set_index ps trail_idx
                 {| position := sub3 (position p) (scale3 (velocity q) f_0_001);
                    velocity := velocity p; color := color p;
                    size := size p; lifeMs := lifeMs p |};
           p' ← at_index ps1 trail_idx;
           set_index ps1 trail_idx
             {| position := position p'; velocity := velocity p';
                color := color p'; size := fmul (size p') f_0_97;
                lifeMs := lifeMs p' |}
         else Ok ps);
  pi ← at_index ps2 i;
  old ← at_index ins i;
  ins1 ← set_index ins i
           {| position_size := (position pi, size pi);
              instance_color := instance_color old |};
  pj ← at_index ps2 i;
  old1 ← at_index ins1 i;
  ins2 ← set_index ins1 i
           {| position_size := position_size old1;
              instance_color := color pj |};
  Ok (ps2, ins2).

(** Lines 81-128. *)
Definition update (s : gl_particle_system) : result gl_particle_system :=
  if (Z.of_nat (length (particles s)) =? 0) then Ok s
  else
    let ins0 :=
      if (Z.of_nat (length (instances s)) =? 0)
      then replicate (length (particles s)) default_instance
      else instances s in
    st ← int_for (Z.of_nat (length (particles s)))
           (fun i st =>
              int_for ((trail s + 1) mod SIZE_MOD)
                (fun trail_idx st => trail_step i trail_idx st) st)
           (particles s, ins0);
    Ok {| particles := st.1; instances := st.2; trail := trail s |}.

End gl_particle_system.

Arguments float3 float : clear implicits.
Arguments float4 float : clear implicits.
Arguments particle float : clear implicits.
Arguments instance_data float : clear implicits.
Arguments gl_particle_system float : clear implicits.

End Particles.

(* ===================================================================== *)
(** ** String utilities                                                  *)
(* ===================================================================== *)

Module StringUtils.

(** A [std::string] is the list of its characters.  Positions are
    [size_t] values below the length; [std::string::npos], the answer of an
    unsuccessful search, is [None]. *)

#[global] Instance ascii_eq_dec : EqDecision ascii := Ascii.ascii_dec.

Definition UINT32_MOD : Z := 4294967296.

(** [std::equal(a.begin(), a.end(), b.begin())] for [b] at least as long
    as [a]. *)
Fixpoint equal_range (a b : list ascii) : bool :=
  match a, b with
  | [], _ => true
  | x :: a', y :: b' => if decide (x = y) then equal_range a' b' else false
  | _ :: _, [] => false
  end.

(** [s.find(look_for, start)], by the comparisons the search makes: the
    first position at or after [start] where [look_for] begins; [pos] is
    the position of the first character of [rest]. *)
Fixpoint find_in (look_for rest : list ascii) (pos : nat) : option nat :=
  if (length look_for <=? length rest)%nat && equal_range look_for rest
  then Some pos
  else match rest with
       | [] => None
       | _ :: rest' => find_in look_for rest' (S pos)
       end.

Definition find (s look_for : list ascii) (start : nat) : option nat :=
  if (start <=? length s)%nat then find_in look_for (drop start s) start else None.

(** [s.replace(pos, len, with)] for [pos <= s.size()]. *)
Definition replace (s : list ascii) (pos len : nat) (replace_with : list ascii)
    : list ascii :=
  take pos s ++ replace_with ++ drop (pos + len) s.

(** [s.find_last_of(c)]: the last position of [c]. *)
Fixpoint find_last_of (s : list ascii) (c : ascii) : option nat :=
  match s with
  | [] => None
  | x :: s' =>
      match find_last_of s' c with
      | Some i => Some (S i)
      | None => if decide (x = c) then Some 0%nat else None
      end
  end.

(** The parameters [look_for] and [replace_with] are references to
    constant strings.  Such a reference denotes either an object other than
    [mutable_input], which keeps its value throughout the call, or the
    object [mutable_input] itself, whose value every replacement changes. *)
Inductive const_ref : Type :=
  | Other (value : list ascii)
  | Same.

(** The value read through a reference while the string holds
    [mutable_input]. *)
Definition deref (r : const_ref) (mutable_input : list ascii) : list ascii :=
  match r with
  | Other value => value
  | Same => mutable_input
  end.

(** Lines 26-47.  The do-while loop, one iteration per unit of [fuel];
    [None] when the fuel runs out before the loop ends.  Returns the
    string and the count.  [look_for] is read at the search and for its
    length before the replacement; [replace] given the string itself
    inserts the value the string has before the call; the length of
    [replace_with] in the new [start] is read after the replacement. *)
Fixpoint replace_loop (fuel : nat) (mutable_input : list ascii)
    (look_for replace_with : const_ref)
    (start : nat) (occurances : Z) : option (list ascii * Z) :=
  match fuel with
  | O => None
  | S fuel' =>
      match find mutable_input (deref look_for mutable_input) start with
      | Some found =>
          let replaced :=
            replace mutable_input found
              (length (deref look_for mutable_input))
              (deref replace_with mutable_input) in
          replace_loop fuel' replaced look_for replace_with
            (found + length (deref replace_with replaced))%nat
            ((occurances + 1) mod UINT32_MOD)
      | None => Some (mutable_input, occurances)
      end
  end.

Definition replace_in_string_fuel (fuel : nat) (mutable_input : list ascii)
    (look_for replace_with : const_ref) : option (list ascii * Z) :=
  if (0 <? length (deref look_for mutable_input))%nat
  then replace_loop fuel mutable_input look_for replace_with 0%nat 0
  else Some (mutable_input, 0).

(** With arguments other than [mutable_input] the loop runs once per
    occurrence found and once more; with an argument that is
    [mutable_input] it ends in its second iteration or never.  One more
    iteration than the input has characters, and at least two, is enough
    whenever the loop ends ([replace_in_string_fuel_enough] below): the
    answer is [None] only when the call does not return. *)
Definition replace_in_string (mutable_input : list ascii)
    (look_for replace_with : const_ref) : option (list ascii * Z) :=
  replace_in_string_fuel (S (S (length mutable_input)))
    mutable_input look_for replace_with.

(** Lines 58-61. *)
Definition starts_with (str search : list ascii) : bool :=
  (length search <=? length str)%nat && equal_range search str.

(** Lines 63-71.  [std::getline(ss, item, delim)] reads up to the next
    [delim], which it consumes, or to the end of the stream, and fails when
    it could not extract any character.  [item] is the item read so far by
    the current [getline] and [extracted] tells whether that call has
    extracted a character yet. *)
Fixpoint split_stream (rest : list ascii) (delim : ascii)
    (item : list ascii) (extracted : bool) : list (list ascii) :=
  match rest with
  | [] => if extracted then [item] else []
  | c :: rest' =>
      if decide (c = delim)
      then item :: split_stream rest' delim [] false
      else split_stream rest' delim (item ++ [c]) true
  end.

Definition split (s : list ascii) (delim : ascii) : list (list ascii) :=
  split_stream s delim [] false.

(** Lines 73-80. *)
Definition replace_extension (path extension : list ascii) : list ascii :=
  match find_last_of path "."%char with
  | Some pos => replace path pos (length path - pos) extension
  | None => path ++ extension
  end.

(** Lines 83-88. *)
Definition get_extension (path : list ascii) : list ascii :=
  match find_last_of path "."%char with
  | None => []
  | Some found => drop (found + 1) path
  end.

(** Lines 17-24; [windows] tells whether [POLYMER_PLATFORM_WINDOWS] is
    defined. *)
Definition backslash : ascii := ascii_of_nat 92.
Definition slash : ascii := "/"%char.

Definition get_platform_separator (windows : bool) : ascii :=
  if windows then backslash else slash.

(** Lines 49-56.  The string literals are temporaries, objects other than
    [path]. *)
Definition normalize_path (windows : bool) (path : list ascii) : option (list ascii) :=
  let separator := get_platform_separator windows in
  r1 ← replace_in_string path (Other [slash; slash]) (Other [slash]);
  r2 ← (if decide (separator = slash)
         then replace_in_string r1.1 (Other [backslash]) (Other [slash])
         else if decide (separator = backslash)
              then replace_in_string r1.1 (Other [slash]) (Other [backslash])
              else Some r1);
  let path := r2.1 in
  Some (if (0 <? length path)%nat && bool_decide (last path = Some separator)
        then take (length path - 1) path
        else path).

Definition SIZE_MOD : Z := 18446744073709551616.

(** [found + 1] on the [size_t] a search returned: [npos + 1] wraps
    to 0. *)
Definition after (found : option nat) : nat :=
  match found with
  | Some i => (i + 1)%nat
  | None => 0%nat
  end.

(** [s.substr(pos, count)] for [pos <= s.size()]: at most [count]
    characters from [pos] on; [count] is a [size_t]. *)
Definition substr (s : list ascii) (pos : nat) (count : Z) : list ascii :=
  take (Z.to_nat (Z.min count (Z.of_nat (length s - pos)))) (drop pos s).

(** Lines 90-97.  Returns the file name and the path as the call leaves
    it. *)
Definition get_filename_with_extension (windows : bool) (path : list ascii)
    : option (list ascii * list ascii) :=
  path ← normalize_path windows path;
  let separator := get_platform_separator windows in
  if decide (separator = slash)
  then Some (drop (after (find_last_of path slash)) path, path)
  else if decide (separator = backslash)
       then Some (drop (after (find_last_of path backslash)) path, path)
       else Some (path, path).

(** Lines 99-114.  [end - start] is computed on [size_t]. *)
Definition get_filename_without_extension (path : list ascii) : list ascii :=
  match find_last_of path "."%char, find_last_of path backslash with
  | Some end_, Some b =>
      let start := (b + 1)%nat in
      substr path start ((Z.of_nat end_ - Z.of_nat start) mod SIZE_MOD)
  | _, _ =>
      match find_last_of path "."%char, find_last_of path slash with
      | Some end_, Some sl =>
          let start := (sl + 1)%nat in
          substr path start ((Z.of_nat end_ - Z.of_nat start) mod SIZE_MOD)
      | _, _ => path
      end
  end.

(** Lines 116-132.  The normalized copy is made and not used. *)
Definition parent_directory_from_filepath (windows : bool) (path : list ascii)
    : option (list ascii) :=
  normalized_path ← normalize_path windows path;
  match find_last_of path backslash with
  | Some end_ => Some (substr path 0 (Z.of_nat end_))
  | None =>
      match find_last_of path slash with
      | Some end_ => Some (substr path 0 (Z.of_nat end_))
      | None => Some path
      end
  end.

End StringUtils.

(* ===================================================================== *)
(** ** Vocabulary of the properties                                      *)
(* ===================================================================== *)

(** *** Chunks of a partition

    [k] workers share [n] items: [chunk_big] is the size of the larger
    chunks and [chunk_lacking] the number of workers that get one item less
    (the values of lines 10 and 11 in exact arithmetic); [chunk_start] and
    [chunk_len] are the first index and the number of indices of worker
    [t] (lines 15-17). *)
Definition chunk_big (n k : Z) : Z :=
  Z.quot n k + (if Z.rem n k =? 0 then 0 else 1).
Definition chunk_lacking (n k : Z) : Z := chunk_big n k * k - n.
Definition chunk_start (n k t : Z) : Z :=
  t * chunk_big n k - Z.max (t - k + chunk_lacking n k) 0.
Definition chunk_len (n k t : Z) : Z :=
  chunk_big n k - (if 0 <=? t - k + chunk_lacking n k then 1 else 0).

(** The first [r] workers process [big - 1] indices each, all later workers
    [big]. *)
Definition shortfall_on_earliest (parts : list (list Z)) : Prop :=
  exists (big : Z) (r : nat), forall (t : nat) (c : list Z),
    parts !! t = Some c ->
    Z.of_nat (length c) = if decide (t < r)%nat then big - 1 else big.

(** The last [r] workers process [big - 1] indices each, all earlier workers
    [big]. *)
Definition shortfall_on_latest (big : Z) (r : nat) (parts : list (list Z)) : Prop :=
  forall (t : nat) (c : list Z),
    parts !! t = Some c ->
    Z.of_nat (length c) = if decide (length parts - r <= t)%nat then big - 1 else big.

(** The formula of the specification, [min(n, max(h, 4-if-h-is-0))], read
    on an argument [h]: the alternative [4] takes part in the maximum only
    when [h] is [0]. *)
Definition spec_worker_count (n h : Z) : Z :=
  Z.min n (if h =? 0 then Z.max h 4 else h).

(** *** Entity ids *)

(** Each element is strictly greater than the one before it. *)
Definition strictly_increasing (l : list Z) : Prop :=
  forall (i : nat) (a b : Z), l !! i = Some a -> l !! S i = Some b -> a < b.

(** *** Threads in [create_entity] *)

(** A thread is between the lock and the unlock exactly when it owns
    [createMutex]: all accesses to [entity_counter] are the owner's, so no
    two threads are at one at the same time. *)
Definition serialised (s : Threads.state) : Prop :=
  forall t, Threads.critical (Threads.pcs s t) = true
            <-> Threads.createMutex s = Some t.

(** The calls have returned [1], [2], [3], ... (modulo [2^64]), in the order
    of their return. *)
Definition ids_in_sequence (s : Threads.state) : Prop :=
  snd <$> Threads.returned s
  = (fun i => i mod ECS.UINT64_MOD)
      <$> seqZ 1 (Z.of_nat (length (Threads.returned s))).

(** What a thread at [p] knows of the counter. *)
Definition counter_at (s : Threads.state) (p : Threads.pc) : Prop :=
  let n := Z.of_nat (length (Threads.returned s)) in
  match p with
  | Threads.Outside | Threads.AtLock => True
  | Threads.AtLoad => Threads.entity_counter s = n mod ECS.UINT64_MOD
  | Threads.AtStore read => read = n mod ECS.UINT64_MOD
  | Threads.AtInit => Threads.entity_counter s = (n + 1) mod ECS.UINT64_MOD
  | Threads.AtReturn e =>
      e = (n + 1) mod ECS.UINT64_MOD
      /\ Threads.entity_counter s = (n + 1) mod ECS.UINT64_MOD
  end.

(** The invariant of every state the threads can reach. *)
Definition reachable_invariant (s : Threads.state) : Prop :=
  serialised s
  /\ ids_in_sequence s
  /\ (Threads.createMutex s = None ->
      Threads.entity_counter s
      = Z.of_nat (length (Threads.returned s)) mod ECS.UINT64_MOD)
  /\ forall t, counter_at s (Threads.pcs s t).

(** Two threads call at the same time: both enter, thread 0 gets the lock
    and completes its call while thread 1 waits, then thread 1 completes
    its own. *)
Definition two_calls : list nat :=
  [0; 1; 0; 0; 0; 0; 0; 1; 1; 1; 1; 1]%nat.

(** *** The registry *)

(** No registered pointer is null: an invariant of every call. *)
Definition registered_non_null `{Countable poly_typeid}
    (o : ECS.entity_orchestrator poly_typeid) : Prop :=
  forall t p, ECS.systems o !! t = Some p -> p <> ECS.nullptr.

(** *** The particle system *)

(** A system that holds no particle and no instance yet. *)
Definition empty_system {float : Type} (trail_count : Z)
    : Particles.gl_particle_system float :=
  {| Particles.particles := []; Particles.instances := [];
     Particles.trail := trail_count |}.

(** *** Call sequences on the orchestrator *)

Definition is_create_entity {K : Type} (c : ECS.call K) : bool :=
  match c with ECS.CreateEntity => true | _ => false end.
Definition is_create_system {K : Type} (c : ECS.call K) : bool :=
  match c with ECS.CreateSystem _ => true | _ => false end.
Definition is_add_system {K : Type} (c : ECS.call K) : bool :=
  match c with ECS.AddSystem _ _ => true | _ => false end.

(** How many calls of a sequence satisfy [f]. *)
Definition count_calls {K : Type} (f : ECS.call K -> bool) (cs : list (ECS.call K)) : nat :=
  length (List.filter f cs).

(** [create_system<T>] for each [T] of a list in turn, as the applications
    do during set-up (engine-openvr-scene.cpp, l. 44-47); returns the
    handles in call order. *)
Fixpoint create_systems `{Countable poly_typeid} (Ts : list poly_typeid)
    (w : ECS.world poly_typeid) : list N * ECS.world poly_typeid :=
  match Ts with
  | [] => ([], w)
  | T :: Ts' =>
      let '(ptr, w1) := ECS.create_system T w in
      let '(ptrs, w2) := create_systems Ts' w1 in
      (ptr :: ptrs, w2)
  end.

(** Every registered pointer is the address of a live object whose class
    is the one it is registered under. *)
Definition registry_well_typed `{Countable poly_typeid}
    (w : ECS.world poly_typeid) : Prop :=
  forall t p, ECS.systems (ECS.orch w) !! t = Some p -> ECS.heap w !! p = Some t.

(** *** Instances of particles *)

(** What lines 118-119 store for a particle. *)
Definition instance_of {float : Type} (p : Particles.particle float)
    : Particles.instance_data float :=
  {| Particles.position_size := (Particles.position p, Particles.size p);
     Particles.instance_color := Particles.color p |}.

(** What lines 113-114 make of a particle. *)
Definition trail_decay {float : Type} (fmul fsub : float -> float -> float)
    (f_0_001 f_0_97 : float) (p : Particles.particle float) : Particles.particle float :=
  {| Particles.position :=
       Particles.sub3 fsub (Particles.position p)
         (Particles.scale3 fmul (Particles.velocity p) f_0_001);
     Particles.velocity := Particles.velocity p;
     Particles.color := Particles.color p;
     Particles.size := fmul (Particles.size p) f_0_97;
     Particles.lifeMs := Particles.lifeMs p |}.

(** [j] is one of the indices [1 .. trail] that the trail branch
    touches. *)
Definition in_trail (trail : Z) (j : nat) : bool :=
  (1 <=? Z.of_nat j) && (Z.of_nat j <=? trail).

(** The particles, the one at index [j] aged [c j] times. *)
Definition aged {float : Type} (decay : Particles.particle float -> Particles.particle float)
    (c : nat -> nat) (ps : list (Particles.particle float))
    : list (Particles.particle float) :=
  imap (fun j p => Nat.iter (c j) decay p) ps.

(** *** Strings *)

(** Replacement of the occurrences of [look_for] met when reading [rest]
    from left to right, an occurrence being skipped whole once replaced;
    [skip] characters of [rest] belong to an occurrence already replaced.
    Returns the new text and the number of replacements. *)
Fixpoint replace_scan (look_for replace_with rest : list ascii) (skip : nat)
    : list ascii * nat :=
  match rest with
  | [] => ([], 0%nat)
  | c :: rest' =>
      match skip with
      | S k => replace_scan look_for replace_with rest' k
      | O =>
          if StringUtils.starts_with rest look_for
          then let r := replace_scan look_for replace_with rest' (length look_for - 1) in
               (replace_with ++ r.1, S r.2)
          else let r := replace_scan look_for replace_with rest' 0 in
               (c :: r.1, r.2)
      end
  end.

(** The pieces, with [delim] between any two of them. *)
Fixpoint join (delim : ascii) (pieces : list (list ascii)) : list ascii :=
  match pieces with
  | [] => []
  | [piece] => piece
  | piece :: pieces' => piece ++ delim :: join delim pieces'
  end.

(* ===================================================================== *)
(** * Properties                                                         *)
(* ===================================================================== *)

(** ** The result monad and checked arithmetic *)

Lemma for_each_ok {A B : Type} (f : A -> result B) (g : A -> B) (l : list A) :
  Forall (fun a => f a = Ok (g a)) l -> for_each f l = Ok (g <$> l).
Proof.
  induction 1 as [|a l Ha _ IH]; [reflexivity|].
  cbn [for_each]. rewrite Ha. cbn. rewrite IH. reflexivity.
Qed.

Lemma checked_in_range (z : Z) :
  CInt.INT_MIN <= z <= CInt.INT_MAX -> CInt.checked z = Ok z.
Proof.
  intros [Hlo Hhi]. unfold CInt.checked, CInt.in_int.
  apply Z.leb_le in Hlo. apply Z.leb_le in Hhi. rewrite Hlo, Hhi. reflexivity.
Qed.

Lemma int_unsigned_roundtrip (i : Z) :
  CInt.INT_MIN <= i <= CInt.INT_MAX -> CInt.of_unsigned (CInt.to_unsigned i) = i.
Proof.
  unfold CInt.of_unsigned, CInt.to_unsigned, CInt.INT_MIN, CInt.INT_MAX, CInt.UINT_MOD.
  intros Hi. destruct (Z.leb_spec (i mod 4294967296) 2147483647) as [Hm|Hm].
  - destruct (Z.le_gt_cases 0 i) as [Hp|Hn].
    + apply Z.mod_small. lia.
    + rewrite <- (Z.mod_add i 1) in Hm by lia.
      rewrite Z.mod_small in Hm by lia. lia.
  - destruct (Z.le_gt_cases 0 i) as [Hp|Hn].
    + rewrite Z.mod_small in Hm by lia. lia.
    + rewrite <- (Z.mod_add i 1) by lia. rewrite Z.mod_small by lia. lia.
Qed.

(** ** The partitioner *)

Lemma hint_explicit (hw tc : Z) :
  CInt.INT_MIN <= tc <= CInt.INT_MAX -> tc <> 0 -> Partitioner.hint hw tc = tc.
Proof.
  intros Hr Hz. unfold Partitioner.hint.
  destruct (Z.eqb_spec tc 0); [contradiction|]. by apply int_unsigned_roundtrip.
Qed.

Lemma hint_hardware (hw : Z) :
  0 <= hw <= CInt.INT_MAX -> Partitioner.hint hw 0 = hw.
Proof.
  intros [_ Hhi]. unfold Partitioner.hint, CInt.of_unsigned. simpl.
  apply Z.leb_le in Hhi. by rewrite Hhi.
Qed.

(** With a usable hardware report and a non-negative hint, a non-empty
    workload gets at least one worker and never more workers than items. *)
Lemma n_threads_bounds (hw n tc : Z) :
  0 <= hw <= CInt.INT_MAX -> 0 <= tc <= CInt.INT_MAX -> 1 <= n ->
  1 <= Partitioner.n_threads hw n tc <= n.
Proof.
  intros Hhw Htc Hn. unfold Partitioner.n_threads.
  assert (0 <= Partitioner.hint hw tc) as Hh.
  { destruct (Z.eq_dec tc 0) as [->|Hne].
    - rewrite hint_hardware; lia.
    - rewrite hint_explicit; unfold CInt.INT_MIN; lia. }
  destruct (Z.eqb_spec (Partitioner.hint hw tc) 0); lia.
Qed.

Section chunks.
Variables n k : Z.
Hypothesis k_pos : 1 <= k.
Hypothesis k_le_n : k <= n.
Hypothesis no_overflow : n + k - 1 <= CInt.INT_MAX.

Local Abbreviation m := (chunk_big n k).
Local Abbreviation L := (chunk_lacking n k).

Lemma chunk_arith :
  1 <= m /\ 0 <= L < k /\ m * k = n + L
  /\ (Z.rem n k <> 0 -> 1 <= L) /\ (Z.rem n k = 0 -> L = 0).
Proof.
  unfold chunk_lacking, chunk_big.
  pose proof (Z.quot_rem' n k) as Hqr.
  pose proof (Z.rem_bound_pos n k ltac:(lia) ltac:(lia)) as Hr.
  assert (0 <= Z.quot n k) as Hq by (apply Z.quot_pos; lia).
  destruct (Z.eqb_spec (Z.rem n k) 0) as [He|Hne]; nia.
Qed.

Lemma n_max_ok : Partitioner.n_max_tasks_per_thread n k = Ok m.
Proof.
  pose proof chunk_arith as (Hm & HL & Hmk & _).
  unfold chunk_big in *.
  pose proof (Z.quot_rem' n k) as Hqr.
  pose proof (Z.rem_bound_pos n k ltac:(lia) ltac:(lia)) as Hr.
  assert (0 <= Z.quot n k <= n) as Hq.
  { split; [apply Z.quot_pos; lia|]. nia. }
  unfold Partitioner.n_max_tasks_per_thread, CInt.div, CInt.rem, CInt.add.
  destruct (Z.eqb_spec k 0) as [?|_]; [lia|].
  rewrite checked_in_range by (unfold CInt.INT_MIN, CInt.INT_MAX in *; lia).
  cbn. apply checked_in_range.
  unfold CInt.INT_MIN, CInt.INT_MAX in *.
  destruct (Z.eqb_spec (Z.rem n k) 0); nia.
Qed.

Lemma n_lacking_ok : Partitioner.n_lacking_tasks n k m = Ok L.
Proof.
  pose proof chunk_arith as (Hm & HL & Hmk & _).
  unfold Partitioner.n_lacking_tasks, CInt.mul, CInt.sub.
  rewrite checked_in_range by (unfold CInt.INT_MIN, CInt.INT_MAX in *; nia).
  cbn. apply checked_in_range.
  unfold CInt.INT_MIN, CInt.INT_MAX in *. unfold chunk_lacking in *. lia.
Qed.

Lemma chunk_start_0 : chunk_start n k 0 = 0.
Proof. pose proof chunk_arith. unfold chunk_start. lia. Qed.

Lemma chunk_start_k : chunk_start n k k = n.
Proof. pose proof chunk_arith. unfold chunk_start. lia. Qed.

Lemma chunk_start_next (t : Z) :
  chunk_start n k (t + 1) = chunk_start n k t + chunk_len n k t.
Proof.
  unfold chunk_start, chunk_len.
  destruct (Z.leb_spec 0 (t - k + L)); lia.
Qed.

Lemma chunk_len_nonneg (t : Z) : 0 <= chunk_len n k t.
Proof.
  pose proof chunk_arith. unfold chunk_len.
  destruct (Z.leb_spec 0 (t - k + L)); lia.
Qed.

Lemma chunk_start_bounds (t : Z) : 0 <= t <= k -> 0 <= chunk_start n k t <= n.
Proof.
  pose proof chunk_arith as (Hm & HL & Hmk & _). intros Ht.
  unfold chunk_start. nia.
Qed.

Lemma inner_loop_ok (t : Z) :
  0 <= t < k ->
  Partitioner.inner_loop k m L t = Ok (seqZ (chunk_start n k t) (chunk_len n k t)).
Proof.
  intros Ht. pose proof chunk_arith as (Hm & HL & Hmk & _).
  pose proof (chunk_start_bounds t ltac:(lia)) as Hs.
  pose proof (chunk_start_bounds (t + 1) ltac:(lia)) as Hs'.
  rewrite chunk_start_next in Hs'.
  unfold chunk_start, chunk_len in *.
  assert (t * m <= m * k) as Htm by nia.
  assert (0 <= t * m) as Htm0 by nia.
  unfold Partitioner.inner_loop, CInt.add, CInt.sub, CInt.mul.
  unfold CInt.INT_MIN, CInt.INT_MAX in *.
  rewrite (checked_in_range (t - k)) by (unfold CInt.INT_MIN, CInt.INT_MAX; lia).
  cbn.
  rewrite (checked_in_range (t - k + L)) by (unfold CInt.INT_MIN, CInt.INT_MAX; lia).
  cbn.
  rewrite (checked_in_range (t * m)) by (unfold CInt.INT_MIN, CInt.INT_MAX; lia).
  cbn.
  rewrite (checked_in_range (t * m - _)) by (unfold CInt.INT_MIN, CInt.INT_MAX; lia).
  cbn.
  rewrite (checked_in_range (t * m - _ + m))
    by (unfold CInt.INT_MIN, CInt.INT_MAX; destruct (Z.leb_spec 0 (t - k + L)); lia).
  cbn.
  rewrite (checked_in_range (t * m - _ + m - _))
    by (unfold CInt.INT_MIN, CInt.INT_MAX; destruct (Z.leb_spec 0 (t - k + L)); lia).
  cbn. f_equal. f_equal. lia.
Qed.

(** The chunks of the first [j] workers, one after the other, are the
    indices below the start of worker [j]. *)
Lemma chunks_concat (j : nat) :
  concat ((fun t => seqZ (chunk_start n k t) (chunk_len n k t)) <$> seqZ 0 (Z.of_nat j))
  = seqZ 0 (chunk_start n k (Z.of_nat j)).
Proof.
  induction j as [|j IH].
  - change (Z.of_nat 0) with 0. rewrite chunk_start_0. reflexivity.
  - rewrite seqZ_S, fmap_app, concat_app, IH. cbn.
    rewrite app_nil_r, Z.add_0_l.
    replace (Z.of_nat (S j)) with (Z.of_nat j + 1) by lia.
    rewrite chunk_start_next.
    destruct (Z.le_gt_cases 0 (chunk_start n k (Z.of_nat j))) as [Hs|Hs].
    + rewrite seqZ_app by (auto using chunk_len_nonneg). reflexivity.
    + exfalso. revert Hs. pose proof chunk_arith as (Hm & HL & Hmk & _).
      unfold chunk_start. nia.
Qed.

Lemma workers_ok :
  for_each (Partitioner.inner_loop k m L) (seqZ 0 k)
  = Ok ((fun t => seqZ (chunk_start n k t) (chunk_len n k t)) <$> seqZ 0 k).
Proof.
  apply for_each_ok, Forall_seqZ. intros t Ht. apply inner_loop_ok. lia.
Qed.

End chunks.

(** *** The exact range of definedness *)

Section chunks_exact.
(** As in section [chunks], with the weakest bound under which no [int]
    operation of lines 10-17 overflows: the product of line 11 fits. *)
Variables n k : Z.
Hypothesis k_pos : 1 <= k.
Hypothesis k_le_n : k <= n.
Hypothesis product_fits : chunk_big n k * k <= CInt.INT_MAX.

Local Abbreviation m := (chunk_big n k).
Local Abbreviation L := (chunk_lacking n k).

Lemma n_max_fits : Partitioner.n_max_tasks_per_thread n k = Ok m.
Proof.
  pose proof (chunk_arith n k k_pos k_le_n) as (Hm & HL & Hmk & _).
  assert (m <= CInt.INT_MAX) as Hmmax by nia.
  unfold chunk_big in *.
  pose proof (Z.quot_rem' n k) as Hqr.
  pose proof (Z.rem_bound_pos n k ltac:(lia) ltac:(lia)) as Hr.
  assert (0 <= Z.quot n k) as Hq by (apply Z.quot_pos; lia).
  unfold Partitioner.n_max_tasks_per_thread, CInt.div, CInt.rem, CInt.add.
  destruct (Z.eqb_spec k 0) as [?|_]; [lia|].
  rewrite checked_in_range
    by (unfold CInt.INT_MIN, CInt.INT_MAX in *; destruct (Z.rem n k =? 0); lia).
  cbn. apply checked_in_range.
  unfold CInt.INT_MIN, CInt.INT_MAX in *. destruct (Z.rem n k =? 0); lia.
Qed.

Lemma n_lacking_fits : Partitioner.n_lacking_tasks n k m = Ok L.
Proof.
  pose proof (chunk_arith n k k_pos k_le_n) as (Hm & HL & Hmk & _).
  unfold Partitioner.n_lacking_tasks, CInt.mul, CInt.sub.
  rewrite checked_in_range by (unfold CInt.INT_MIN, CInt.INT_MAX in *; nia).
  cbn. apply checked_in_range.
  unfold CInt.INT_MIN, CInt.INT_MAX in *. unfold chunk_lacking in *. lia.
Qed.

Lemma inner_loop_fits (t : Z) :
  0 <= t < k ->
  Partitioner.inner_loop k m L t = Ok (seqZ (chunk_start n k t) (chunk_len n k t)).
Proof.
  intros Ht. pose proof (chunk_arith n k k_pos k_le_n) as (Hm & HL & Hmk & _).
  pose proof (chunk_start_bounds n k k_pos k_le_n t ltac:(lia)) as Hs.
  pose proof (chunk_start_bounds n k k_pos k_le_n (t + 1) ltac:(lia)) as Hs'.
  rewrite chunk_start_next in Hs'.
  unfold chunk_start, chunk_len in *.
  assert (t * m <= m * k - m) as Htm by nia.
  assert (0 <= t * m) as Htm0 by nia.
  unfold Partitioner.inner_loop, CInt.add, CInt.sub, CInt.mul.
  unfold CInt.INT_MIN, CInt.INT_MAX in *.
  rewrite (checked_in_range (t - k)) by (unfold CInt.INT_MIN, CInt.INT_MAX; lia).
  cbn.
  rewrite (checked_in_range (t - k + L)) by (unfold CInt.INT_MIN, CInt.INT_MAX; lia).
  cbn.
  rewrite (checked_in_range (t * m)) by (unfold CInt.INT_MIN, CInt.INT_MAX; lia).
  cbn.
  rewrite (checked_in_range (t * m - _)) by (unfold CInt.INT_MIN, CInt.INT_MAX; lia).
  cbn.
  rewrite (checked_in_range (t * m - _ + m))
    by (unfold CInt.INT_MIN, CInt.INT_MAX; destruct (Z.leb_spec 0 (t - k + L)); lia).
  cbn.
  rewrite (checked_in_range (t * m - _ + m - _))
    by (unfold CInt.INT_MIN, CInt.INT_MAX; destruct (Z.leb_spec 0 (t - k + L)); lia).
  cbn. f_equal. f_equal. lia.
Qed.

Lemma workers_fit :
  for_each (Partitioner.inner_loop k m L) (seqZ 0 k)
  = Ok ((fun t => seqZ (chunk_start n k t) (chunk_len n k t)) <$> seqZ 0 k).
Proof.
  apply for_each_ok, Forall_seqZ. intros t Ht. apply inner_loop_fits. lia.
Qed.

End chunks_exact.

(** The list of chunks the call returns whenever it returns. *)
Lemma particle_parallel_for_chunks (hw n tc : Z) :
  0 <= hw <= CInt.INT_MAX -> 0 <= tc <= CInt.INT_MAX -> 1 <= n ->
  chunk_big n (Partitioner.n_threads hw n tc) * Partitioner.n_threads hw n tc
    <= CInt.INT_MAX ->
  Partitioner.particle_parallel_for hw n tc
  = Ok ((fun t => seqZ (chunk_start n (Partitioner.n_threads hw n tc) t)
                       (chunk_len n (Partitioner.n_threads hw n tc) t))
          <$> seqZ 0 (Partitioner.n_threads hw n tc)).
Proof.
  intros Hhw Htc Hn Hfit.
  pose proof (n_threads_bounds hw n tc Hhw Htc Hn) as [Hk1 Hkn].
  unfold Partitioner.particle_parallel_for.
  set (k := Partitioner.n_threads hw n tc) in *.
  rewrite (n_max_fits n k) by assumption. cbn.
  rewrite (n_lacking_fits n k) by assumption. cbn.
  apply (workers_fit n k); assumption.
Qed.

(** For a non-empty workload whose rounded-up size fits an [int], the call
    returns, spawns [n_threads] workers, and the workers' index lists, taken
    in worker order, are exactly [0, 1, ..., n - 1]. *)
Lemma partition_covers (hw n tc : Z) :
  0 <= hw <= CInt.INT_MAX -> 0 <= tc <= CInt.INT_MAX -> 1 <= n ->
  n + Partitioner.n_threads hw n tc - 1 <= CInt.INT_MAX ->
  exists parts,
    Partitioner.particle_parallel_for hw n tc = Ok parts
    /\ Z.of_nat (length parts) = Partitioner.n_threads hw n tc
    /\ concat parts = seqZ 0 n.
Proof.
  intros Hhw Htc Hn Hov.
  pose proof (n_threads_bounds hw n tc Hhw Htc Hn) as [Hk1 Hkn].
  unfold Partitioner.particle_parallel_for.
  set (k := Partitioner.n_threads hw n tc) in *.
  rewrite (n_max_ok n k) by assumption. cbn.
  rewrite (n_lacking_ok n k) by assumption. cbn.
  rewrite (workers_ok n k) by assumption.
  eexists. split; [reflexivity|]. split.
  - rewrite length_fmap, length_seqZ. lia.
  - replace (seqZ 0 k) with (seqZ 0 (Z.of_nat (Z.to_nat k))) by (f_equal; lia).
    rewrite (chunks_concat n k) by assumption.
    rewrite Z2Nat.id by lia. rewrite chunk_start_k by assumption. reflexivity.
Qed.

(** Every index below [n] is handed to exactly one worker, exactly once. *)
Lemma partition_exactly_once (hw n tc : Z) (parts : list (list Z)) :
  Partitioner.particle_parallel_for hw n tc = Ok parts ->
  0 <= hw <= CInt.INT_MAX -> 0 <= tc <= CInt.INT_MAX -> 1 <= n ->
  n + Partitioner.n_threads hw n tc - 1 <= CInt.INT_MAX ->
  NoDup (concat parts) /\ forall i, i ∈ concat parts <-> 0 <= i < n.
Proof.
  intros Hrun Hhw Htc Hn Hov.
  destruct (partition_covers hw n tc Hhw Htc Hn Hov) as (parts' & Hrun' & _ & Hcat).
  rewrite Hrun in Hrun'. injection Hrun' as <-.
  rewrite Hcat. split; [apply NoDup_seqZ|].
  intros i. rewrite elem_of_seqZ. lia.
Qed.

(** C2 (the code at the boundary case [n = 0]): with an empty workload and
    a non-negative hint the worker count is [min(0, _) = 0], and line 10
    divides by it; no partition of [0, 0) is produced. *)
Theorem particle_parallel_for_empty_workload (hw h : Z) :
  0 <= hw <= CInt.INT_MAX -> 0 <= h <= CInt.INT_MAX ->
  Partitioner.n_threads hw 0 h = 0
  /\ Partitioner.particle_parallel_for hw 0 h = Fault DivisionByZero.
Proof.
  intros Hhw Hh.
  assert (Partitioner.n_threads hw 0 h = 0) as Hk.
  { unfold Partitioner.n_threads.
    assert (0 <= Partitioner.hint hw h) as Hnn.
    { destruct (Z.eq_dec h 0) as [->|Hne].
      - rewrite hint_hardware; lia.
      - rewrite hint_explicit; unfold CInt.INT_MIN; lia. }
    destruct (Z.eqb_spec (Partitioner.hint hw h) 0); lia. }
  split; [exact Hk|].
  unfold Partitioner.particle_parallel_for. rewrite Hk. reflexivity.
Qed.

Lemma particle_parallel_for_empty_workload_witness :
  Partitioner.n_threads 8 0 0 = 0
  /\ Partitioner.particle_parallel_for 8 0 0 = Fault DivisionByZero.
Proof.
  apply (particle_parallel_for_empty_workload 8 0); unfold CInt.INT_MAX; lia.
Defined.

(** *** Which workers get the smaller chunks *)

(** C3 as stated fails: 5 items on 2 workers are split as [0,1,2] and
    [3,4], so the worker with one item less is the last one. *)
Lemma shortfall_on_earliest_fails :
  Z.rem 5 (Partitioner.n_threads 8 5 2) <> 0
  /\ exists parts, Partitioner.particle_parallel_for 8 5 2 = Ok parts
                   /\ ~ shortfall_on_earliest parts.
Proof.
  split; [discriminate|].
  exists [[0;1;2];[3;4]]. split; [reflexivity|].
  intros (big & r & Hsz).
  pose proof (Hsz 0%nat _ eq_refl) as H0.
  pose proof (Hsz 1%nat _ eq_refl) as H1.
  cbn in H0, H1. repeat case_decide; lia.
Qed.

(** C3, amended: when [n] is not a multiple of the worker count [k] and
    the product [ceil(n / k) * k] of line 11 fits an [int], the call
    returns [k] chunks; with [big = n / k + 1] and [r = big * k - n],
    [1 <= r < k] and [r = k - n mod k], the last [r] workers get [big - 1]
    indices and the workers before them get [big]. *)
Theorem shortfall_on_latest_workers (hw n tc : Z) :
  0 <= hw <= CInt.INT_MAX -> 0 <= tc <= CInt.INT_MAX -> 1 <= n ->
  chunk_big n (Partitioner.n_threads hw n tc) * Partitioner.n_threads hw n tc
    <= CInt.INT_MAX ->
  Z.rem n (Partitioner.n_threads hw n tc) <> 0 ->
  let k := Partitioner.n_threads hw n tc in
  let big := Z.quot n k + 1 in
  let r := big * k - n in
  1 <= r < k
  /\ r = k - Z.rem n k
  /\ exists parts,
       Partitioner.particle_parallel_for hw n tc = Ok parts
       /\ Z.of_nat (length parts) = k
       /\ shortfall_on_latest big (Z.to_nat r) parts.
Proof.
  intros Hhw Htc Hn Hfit Hrem k big r.
  pose proof (n_threads_bounds hw n tc Hhw Htc Hn) as [Hk1 Hkn].
  rewrite particle_parallel_for_chunks by assumption.
  fold k in Hk1, Hkn, Hfit, Hrem |- *.
  pose proof (chunk_arith n k Hk1 Hkn) as (Hm & HL & Hmk & HL1 & _).
  specialize (HL1 Hrem).
  assert (chunk_big n k = big) as Hbig.
  { unfold chunk_big. subst big.
    destruct (Z.eqb_spec (Z.rem n k) 0); [contradiction|reflexivity]. }
  assert (chunk_lacking n k = r) as Hr by (unfold chunk_lacking; by rewrite Hbig).
  rewrite Hbig in Hm, Hmk. rewrite Hr in HL, HL1, Hmk.
  split; [lia|].
  split; [pose proof (Z.quot_rem' n k); subst r big; lia|].
  eexists. split; [reflexivity|].
  split; [rewrite length_fmap, length_seqZ; lia|].
  intros t c Hc. rewrite length_fmap, length_seqZ.
  rewrite list_lookup_fmap in Hc.
  destruct (seqZ 0 k !! t) as [j|] eqn:Hj; [|discriminate].
  apply lookup_seqZ in Hj as [-> Hlt]. injection Hc as <-.
  rewrite length_seqZ.
  pose proof (chunk_len_nonneg n k Hk1 Hkn (0 + Z.of_nat t)) as Hnn.
  rewrite Z2Nat.id by exact Hnn.
  unfold chunk_len. rewrite Hbig, Hr.
  destruct (Z.leb_spec 0 (0 + Z.of_nat t - k + r)); case_decide; lia.
Qed.

Lemma shortfall_on_latest_workers_witness :
  1 <= 1 < 6
  /\ 1 = 6 - Z.rem 2147483645 6
  /\ exists parts,
       Partitioner.particle_parallel_for 8 2147483645 6 = Ok parts
       /\ Z.of_nat (length parts) = 6
       /\ shortfall_on_latest 357913941 1 parts.
Proof.
  apply (shortfall_on_latest_workers 8 2147483645 6);
    try (unfold CInt.INT_MAX; lia); vm_compute; congruence.
Defined.

(** *** The worker count *)

(** C4 as stated fails: with hint [0] on a machine reporting 8 hardware
    threads the code uses 8 workers for 100 items, the formula applied to the
    hint gives 4. *)
Lemma worker_count_formula_fails :
  Partitioner.n_threads 8 100 0 = Z.min 100 8
  /\ Partitioner.n_threads 8 100 0 <> spec_worker_count 100 0.
Proof. split; [reflexivity|discriminate]. Qed.

(** C4, amended: the worker count is [min(n, h)] for a hint [h > 0] and
    [min(n, p)] for [h = 0], where [p] is the reported hardware parallelism,
    or 4 when the report is 0; it is the specification's formula applied to
    the resolved hint (line 8), and to [h] itself whenever [h] is not 0. *)
Theorem worker_count (hw n h : Z) :
  0 <= hw <= CInt.INT_MAX -> CInt.INT_MIN <= h <= CInt.INT_MAX ->
  (0 < h -> Partitioner.n_threads hw n h = Z.min n h)
  /\ (h = 0 -> Partitioner.n_threads hw n h = Z.min n (if hw =? 0 then 4 else hw))
  /\ Partitioner.n_threads hw n h = spec_worker_count n (Partitioner.hint hw h)
  /\ (h <> 0 -> Partitioner.n_threads hw n h = spec_worker_count n h).
Proof.
  intros Hhw Hh. unfold Partitioner.n_threads, spec_worker_count.
  repeat split.
  - intros Hpos. rewrite hint_explicit by lia.
    destruct (Z.eqb_spec h 0); [lia|reflexivity].
  - intros ->. rewrite hint_hardware by lia. reflexivity.
  - destruct (Z.eqb_spec (Partitioner.hint hw h) 0) as [->|]; reflexivity.
  - intros Hne. rewrite hint_explicit by assumption.
    destruct (Z.eqb_spec h 0); [contradiction|reflexivity].
Qed.

Lemma worker_count_witness :
  (0 < 3 -> Partitioner.n_threads 8 100 3 = Z.min 100 3)
  /\ (3 = 0 -> Partitioner.n_threads 8 100 3 = Z.min 100 (if 8 =? 0 then 4 else 8))
  /\ Partitioner.n_threads 8 100 3 = spec_worker_count 100 (Partitioner.hint 8 3)
  /\ (3 <> 0 -> Partitioner.n_threads 8 100 3 = spec_worker_count 100 3).
Proof.
  apply (worker_count 8 100 3); unfold CInt.INT_MIN, CInt.INT_MAX; lia.
Defined.

(** ** Sorted lists of entity ids *)

Lemma StronglySorted_strictly_increasing (l : list Z) :
  StronglySorted Z.lt l -> strictly_increasing l.
Proof.
  induction 1 as [|a l _ IH Hall]; intros i x y Hx Hy.
  - discriminate.
  - destruct i as [|i]; cbn in Hx, Hy.
    + injection Hx as <-. rewrite Forall_forall in Hall.
      apply Hall, (list_elem_of_lookup_2 _ 0%nat). exact Hy.
    + exact (IH i x y Hx Hy).
Qed.

Lemma StronglySorted_seqZ (a : Z) (len : nat) :
  StronglySorted Z.lt (seqZ a (Z.of_nat len)).
Proof.
  induction len as [|len IH].
  - rewrite seqZ_nil by (cbn; lia). constructor.
  - rewrite seqZ_S. apply StronglySorted_app; repeat split.
    + intros x y Hx Hy. apply elem_of_seqZ in Hx.
      apply list_elem_of_singleton in Hy. lia.
    + exact IH.
    + repeat constructor.
Qed.

Lemma StronglySorted_filter_snd (P : nat * Z -> Prop) `{!forall x, Decision (P x)}
    (log : list (nat * Z)) :
  StronglySorted Z.lt (snd <$> log) -> StronglySorted Z.lt (snd <$> filter P log).
Proof.
  induction log as [|r log IH]; [trivial|].
  rewrite fmap_cons, StronglySorted_cons. intros [Hall Hs].
  rewrite filter_cons. case_decide; [|auto].
  rewrite fmap_cons, StronglySorted_cons. split; [|auto].
  rewrite Forall_forall in Hall |- *. intros e He. apply Hall.
  apply list_elem_of_fmap in He as (x & -> & Hx).
  apply list_elem_of_filter in Hx as [_ Hx].
  apply list_elem_of_fmap. eauto.
Qed.

(** ** The entity allocator *)

Section allocator.
Context `{Countable poly_typeid}.
Implicit Type o : ECS.entity_orchestrator poly_typeid.

(** The [i]-th of a run of calls returns the counter advanced [i + 1]
    times, reduced modulo [2^64]. *)
Lemma create_entities_results (threads : list nat) o :
  snd <$> (ECS.create_entities threads o).1
  = (fun i => (ECS.entity_counter o + 1 + i) mod ECS.UINT64_MOD)
      <$> seqZ 0 (Z.of_nat (length threads)).
Proof.
  revert o. induction threads as [|t ts IH]; intros o; [reflexivity|].
  cbn [ECS.create_entities ECS.create_entity].
  destruct (ECS.create_entities ts _) as [r o2] eqn:Hrec.
  cbn [fst fmap list_fmap snd].
  apply (f_equal (fun p => snd <$> p.1)) in Hrec. cbn in Hrec.
  rewrite IH in Hrec. cbn [ECS.entity_counter] in Hrec.
  change (snd <$> r) with (list_fmap _ _ snd r) in Hrec |- *. rewrite <- Hrec.
  rewrite (seqZ_cons 0 (Z.of_nat (length (t :: ts)))) by (cbn [length]; lia).
  cbn [fmap list_fmap].
  rewrite Z.add_0_r. f_equal.
  replace (Z.pred (Z.of_nat (length (t :: ts)))) with (Z.of_nat (length ts))
    by (cbn [length]; lia).
  change (Z.succ 0) with (1 + 0).
  rewrite <- fmap_add_seqZ.
  change (list_fmap ?A ?B ?f ?l) with (f <$> l).
  rewrite <- list_fmap_compose.
  apply list_fmap_ext. intros _ i _. cbn.
  rewrite <- (Z.add_assoc _ 1 i).
  rewrite Z.add_mod_idemp_l by (unfold ECS.UINT64_MOD; lia).
  reflexivity.
Qed.

Lemma create_entities_threads (threads : list nat) o :
  fst <$> (ECS.create_entities threads o).1 = threads.
Proof.
  revert o. induction threads as [|t ts IH]; intros o; [reflexivity|].
  cbn [ECS.create_entities ECS.create_entity].
  destruct (ECS.create_entities ts _) as [r o2] eqn:Hrec.
  cbn. f_equal. specialize (IH (ECS.create_entity o).2).
  cbn in IH. rewrite Hrec in IH. exact IH.
Qed.

(** Below the wrap-around the results count up from the counter. *)
Lemma create_entities_no_wrap (threads : list nat) o :
  0 <= ECS.entity_counter o ->
  ECS.entity_counter o + Z.of_nat (length threads) < ECS.UINT64_MOD ->
  snd <$> (ECS.create_entities threads o).1
  = seqZ (ECS.entity_counter o + 1) (Z.of_nat (length threads)).
Proof.
  intros Hc Hlen. rewrite create_entities_results.
  replace (seqZ (ECS.entity_counter o + 1) (Z.of_nat (length threads)))
    with (Z.add (ECS.entity_counter o + 1) <$> seqZ 0 (Z.of_nat (length threads)))
    by (rewrite fmap_add_seqZ; f_equal; lia).
  apply Forall_fmap_ext, Forall_seqZ. intros i Hi.
  apply Z.mod_small. lia.
Qed.

(** Only [create_entity] moves the counter. *)
Lemma other_calls_keep_counter (c : ECS.call poly_typeid) (w : ECS.world poly_typeid) :
  c <> ECS.CreateEntity ->
  ECS.entity_counter (ECS.orch (ECS.perform c w)) = ECS.entity_counter (ECS.orch w).
Proof.
  intros Hc. destruct c; cbn; [|reflexivity|contradiction|].
  - unfold ECS.add_system. destruct (_ =? _)%N; [reflexivity|].
    by destruct (ECS.systems (ECS.orch w) !! T).
  - unfold ECS.add_system. destruct (_ =? _)%N; [reflexivity|].
    by destruct (ECS.systems (ECS.orch w) !! system_type).
Qed.

End allocator.

(** C1 as stated fails: the counter is a [uint64_t], and the [2^64]-th call
    on an orchestrator returns [0], the invalid entity. *)
Lemma create_entity_wraps_to_invalid :
  ECS.kInvalidEntity ∈
    (snd <$> (ECS.create_entities (replicate (Z.to_nat ECS.UINT64_MOD) 0%nat)
                (ECS.new_orchestrator (poly_typeid := N))).1).
Proof.
  rewrite create_entities_results, length_replicate.
  apply list_elem_of_fmap. exists (ECS.UINT64_MOD - 1). split.
  - change (ECS.entity_counter ECS.new_orchestrator) with 0.
    replace (0 + 1 + (ECS.UINT64_MOD - 1)) with (1 * ECS.UINT64_MOD) by lia.
    rewrite Z.mod_mul by (unfold ECS.UINT64_MOD; lia). reflexivity.
  - apply elem_of_seqZ. rewrite Z2Nat.id by (unfold ECS.UINT64_MOD; lia).
    unfold ECS.UINT64_MOD. lia.
Qed.

(** C1, amended: for every sequence of fewer than [2^64] calls on one
    orchestrator, issued by any threads, the returned values are pairwise
    distinct, none is [0], and each thread sees every value it receives
    strictly greater than the one it received before. *)
Theorem create_entity_unique_increasing `{Countable poly_typeid} (threads : list nat) :
  Z.of_nat (length threads) < ECS.UINT64_MOD ->
  let log := (ECS.create_entities threads (ECS.new_orchestrator (poly_typeid := poly_typeid))).1 in
  NoDup (snd <$> log)
  /\ Forall (fun e => e <> ECS.kInvalidEntity) (snd <$> log)
  /\ forall t, strictly_increasing (ECS.received_by t log).
Proof.
  intros Hlen log.
  assert (snd <$> log = seqZ 1 (Z.of_nat (length threads))) as Hlog.
  { subst log. rewrite create_entities_no_wrap; [reflexivity|cbn; lia|cbn; lia]. }
  repeat split.
  - rewrite Hlog. apply NoDup_seqZ.
  - rewrite Hlog. apply Forall_seqZ. unfold ECS.kInvalidEntity. lia.
  - intros t. apply StronglySorted_strictly_increasing.
    unfold ECS.received_by. apply StronglySorted_filter_snd.
    rewrite Hlog. apply StronglySorted_seqZ.
Qed.

Lemma create_entity_unique_increasing_witness :
  let log := (ECS.create_entities [0; 1; 0]%nat (ECS.new_orchestrator (poly_typeid := N))).1 in
  NoDup (snd <$> log)
  /\ Forall (fun e => e <> ECS.kInvalidEntity) (snd <$> log)
  /\ forall t, strictly_increasing (ECS.received_by t log).
Proof.
  apply (create_entity_unique_increasing (poly_typeid := N) [0; 1; 0]%nat).
  unfold ECS.UINT64_MOD. cbn. lia.
Defined.

(** ** [create_entity] from several threads *)

Lemma run_app (a b : list nat) (s : Threads.state) :
  Threads.run (a ++ b) s = s' ← Threads.run a s; Threads.run b s'.
Proof.
  revert s. induction a as [|t a IH]; intros s; [reflexivity|].
  cbn [app Threads.run]. destruct (Threads.step t s); cbn; [apply IH|done|done].
Qed.

Lemma init_invariant : reachable_invariant Threads.init.
Proof.
  split_and!; try done; intros t; split; discriminate.
Qed.

Lemma not_owner_not_critical (s : Threads.state) (t u : nat) :
  serialised s -> Threads.createMutex s = Some t -> u <> t ->
  Threads.critical (Threads.pcs s u) = false.
Proof.
  intros Hser Hm Hne. specialize (Hser u).
  destruct (Threads.critical (Threads.pcs s u)); [|reflexivity].
  pose proof (proj1 Hser eq_refl). congruence.
Qed.

Lemma not_critical_counter_at (s : Threads.state) (p : Threads.pc) :
  Threads.critical p = false -> counter_at s p.
Proof. by destruct p. Qed.

Lemma free_mutex_not_critical (s : Threads.state) (u : nat) :
  serialised s -> Threads.createMutex s = None ->
  Threads.critical (Threads.pcs s u) = false.
Proof.
  intros Hser Hm. specialize (Hser u).
  destruct (Threads.critical (Threads.pcs s u)); [|reflexivity].
  pose proof (proj1 Hser eq_refl). congruence.
Qed.

(** The mutex is never locked by its owner nor unlocked by another
    thread. *)
Lemma step_defined (t : nat) (s : Threads.state) :
  reachable_invariant s -> Threads.step t s <> Threads.Undefined.
Proof.
  intros (Hser & _). unfold Threads.step.
  pose proof (Hser t) as Ht.
  destruct (Threads.pcs s t) eqn:Hpc; try discriminate; cbn in Ht.
  - unfold Threads.lock. destruct (Threads.createMutex s) as [owner|]; [|discriminate].
    case_decide as Ho; [|discriminate].
    subst owner. pose proof (proj2 Ht eq_refl). discriminate.
  - rewrite (proj1 Ht eq_refl). unfold Threads.unlock.
    rewrite decide_True by reflexivity. discriminate.
Qed.

Lemma counter_at_same (s s' : Threads.state) (p : Threads.pc) :
  Threads.entity_counter s' = Threads.entity_counter s ->
  Threads.returned s' = Threads.returned s ->
  counter_at s p -> counter_at s' p.
Proof. unfold counter_at. intros -> ->. done. Qed.

Lemma step_invariant (t : nat) (s s' : Threads.state) :
  reachable_invariant s -> Threads.step t s = Threads.Next s' ->
  reachable_invariant s'.
Proof.
  intros (Hser & Hids & Hfree & Hat) Hstep. unfold Threads.step in Hstep.
  pose proof (Hser t) as Ht. pose proof (Hat t) as Hct.
  assert (forall (p : Threads.pc) (m : Threads.mutex),
            (Threads.critical p = true <-> m = Some t) ->
            (forall u, u <> t -> Threads.critical (Threads.pcs s u) = true <-> m = Some u) ->
            forall u, Threads.critical ((<[t := p]> (Threads.pcs s)) u) = true
                      <-> m = Some u) as Hser'.
  { intros p m Hp Hothers u. destruct (decide (u = t)) as [->|Hne].
    - by rewrite fn_lookup_insert.
    - rewrite fn_lookup_insert_ne by done. by apply Hothers. }
  assert (forall (p : Threads.pc) (s1 : Threads.state),
            counter_at s1 p ->
            (forall u, u <> t -> counter_at s1 (Threads.pcs s u)) ->
            forall u, counter_at s1 ((<[t := p]> (Threads.pcs s)) u)) as Hat'.
  { intros p s1 Hp Hothers u. destruct (decide (u = t)) as [->|Hne].
    - by rewrite fn_lookup_insert.
    - rewrite fn_lookup_insert_ne by done. by apply Hothers. }
  unfold reachable_invariant, serialised, ids_in_sequence in *.
  destruct (Threads.pcs s t) eqn:Hpc; cbn [Threads.critical counter_at] in Ht, Hct.
  - (* the call *)
    injection Hstep as <-.
    cbn [Threads.pcs Threads.createMutex Threads.entity_counter Threads.returned].
    split_and!; try assumption.
    + apply Hser'; [|intros u _; apply Hser].
      split; [discriminate|]. intros Hm. pose proof (proj2 Ht Hm). discriminate.
    + apply Hat'; [exact I|]. intros u _.
      by apply (counter_at_same s).
  - (* the lock *)
    unfold Threads.lock in Hstep.
    destruct (Threads.createMutex s) as [owner|] eqn:Hm;
      [cbn in Hstep; case_decide; discriminate|].
    cbn in Hstep. injection Hstep as <-.
    cbn [Threads.pcs Threads.createMutex Threads.entity_counter Threads.returned].
    split_and!; try done.
    + apply Hser'; [done|]. intros u Hne.
      assert (Threads.critical (Threads.pcs s u) = false) as ->.
      { destruct (Threads.critical (Threads.pcs s u)) eqn:Hc; [|reflexivity].
        apply Hser in Hc. discriminate. }
      split; [done|congruence].
    + apply Hat'; [by apply Hfree|]. intros u _.
      by apply (counter_at_same s).
  - (* the read of the counter *)
    pose proof (proj1 Ht eq_refl) as Hm.
    injection Hstep as <-.
    cbn [Threads.pcs Threads.createMutex Threads.entity_counter Threads.returned].
    split_and!; try assumption.
    + apply Hser'; [done|]. intros u _. apply Hser.
    + apply Hat'; [exact Hct|]. intros u _.
      by apply (counter_at_same s).
  - (* the write of the counter *)
    pose proof (proj1 Ht eq_refl) as Hm.
    injection Hstep as <-.
    cbn [Threads.pcs Threads.createMutex Threads.entity_counter Threads.returned].
    split_and!; try assumption.
    + apply Hser'; [done|]. intros u _. apply Hser.
    + congruence.
    + apply Hat'.
      * cbn. rewrite Hct. apply Z.add_mod_idemp_l. unfold ECS.UINT64_MOD. lia.
      * intros u Hne. apply not_critical_counter_at.
        by apply (not_owner_not_critical s t u).
  - (* the initialisation of [e] *)
    pose proof (proj1 Ht eq_refl) as Hm.
    injection Hstep as <-.
    cbn [Threads.pcs Threads.createMutex Threads.entity_counter Threads.returned].
    split_and!; try assumption.
    + apply Hser'; [done|]. intros u _. apply Hser.
    + apply Hat'; [by split|]. intros u _.
      by apply (counter_at_same s).
  - (* the unlock and the return *)
    pose proof (proj1 Ht eq_refl) as Hm. rewrite Hm in Hstep.
    unfold Threads.unlock in Hstep. rewrite decide_True in Hstep by reflexivity.
    cbn in Hstep. injection Hstep as <-.
    destruct Hct as [-> Hc].
    cbn [Threads.pcs Threads.createMutex Threads.entity_counter Threads.returned].
    rewrite length_app. cbn [length].
    replace (Z.of_nat (length (Threads.returned s) + 1))
      with (Z.of_nat (length (Threads.returned s)) + 1) by lia.
    split_and!.
    + apply Hser'; [done|]. intros u Hne. split; [|done].
      intros Hcrit. apply Hser in Hcrit. congruence.
    + rewrite fmap_app, Hids.
      replace (Z.of_nat (length (Threads.returned s)) + 1)
        with (Z.of_nat (S (length (Threads.returned s)))) at 2 by lia.
      rewrite seqZ_S, fmap_app. cbn. do 3 f_equal. lia.
    + intros _. exact Hc.
    + apply Hat'; [exact I|]. intros u Hne. apply not_critical_counter_at.
      by apply (not_owner_not_critical s t u).
Qed.

Lemma run_invariant (schedule : list nat) (s : Threads.state) :
  reachable_invariant s ->
  Threads.run schedule s <> Threads.Undefined
  /\ forall s', Threads.run schedule s = Threads.Next s' -> reachable_invariant s'.
Proof.
  revert s. induction schedule as [|t schedule IH]; intros s Hs.
  - split; [discriminate|]. intros s' [= <-]. exact Hs.
  - cbn [Threads.run]. pose proof (step_defined t s Hs) as Hdef.
    destruct (Threads.step t s) as [s1| |] eqn:Hstep; cbn.
    + apply IH. by apply (step_invariant t s).
    + split; [discriminate|]. intros s' [=].
    + done.
Qed.

(** A blocked thread waits for an owner that can take its next step. *)
Lemma blocked_by_running_owner (t : nat) (s : Threads.state) :
  serialised s -> Threads.step t s = Threads.Blocked ->
  exists u s', u <> t /\ Threads.createMutex s = Some u
               /\ Threads.step u s = Threads.Next s'.
Proof.
  intros Hser Hb. unfold Threads.step in Hb.
  destruct (Threads.pcs s t) eqn:Hpc; try discriminate.
  - unfold Threads.lock in Hb.
    destruct (Threads.createMutex s) as [u|] eqn:Hm; [|discriminate].
    cbn in Hb. case_decide as Hu; [discriminate|].
    pose proof (proj2 (Hser u) Hm) as Hcrit.
    exists u. unfold Threads.step.
    destruct (Threads.pcs s u); try discriminate; try (eexists; split_and!; done).
    rewrite Hm. unfold Threads.unlock. rewrite decide_True by done.
    eexists. split_and!; done.
  - unfold Threads.unlock in Hb.
    destruct (Threads.createMutex s); cbn in Hb; [case_decide|]; discriminate.
Qed.

Lemma pairs_eq {A B : Type} (l1 l2 : list (A * B)) :
  fst <$> l1 = fst <$> l2 -> snd <$> l1 = snd <$> l2 -> l1 = l2.
Proof.
  revert l2. induction l1 as [|[a b] l1 IH]; intros [|[a' b'] l2]; cbn;
    try done.
  intros [= -> Hf] [= -> Hs]. f_equal. by apply IH.
Qed.

Lemma ids_distinct_up_to_wrap (n : nat) :
  Z.of_nat n <= ECS.UINT64_MOD ->
  NoDup ((fun i => i mod ECS.UINT64_MOD) <$> seqZ 1 (Z.of_nat n)).
Proof.
  intros Hn. apply NoDup_fmap_2_strong; [|apply NoDup_seqZ].
  intros x y Hx%elem_of_seqZ Hy%elem_of_seqZ Heq.
  destruct (decide (x = ECS.UINT64_MOD)) as [->|Hx'];
    destruct (decide (y = ECS.UINT64_MOD)) as [->|Hy']; [done| | |].
  - rewrite Z_mod_same_full, (Z.mod_small y) in Heq by lia. lia.
  - rewrite Z_mod_same_full, (Z.mod_small x) in Heq by lia. lia.
  - rewrite !Z.mod_small in Heq by lia. exact Heq.
Qed.

(** One step of a run whose thread is not blocked. *)
Local Ltac thread_step :=
  lazymatch goal with
  | |- context [Threads.run (?t :: ?l) ?s] =>
      change (Threads.run (t :: l) s)
        with (s' ← Threads.step t s; Threads.run l s');
      unfold Threads.step at 1;
      cbn [Threads.pcs Threads.createMutex Threads.entity_counter Threads.returned];
      repeat first [rewrite fn_lookup_insert | rewrite fn_lookup_insert_ne by done];
      repeat match goal with H : _ = Threads.Outside |- _ => rewrite H end;
      cbn [Threads.lock Threads.unlock];
      rewrite ?decide_True by done;
      cbn [mbind Threads.outcome_bind]
  end.

(** Each round of [two_calls] from a state with the mutex free and both
    threads outside ends in such a state, two more calls having returned. *)
Lemma two_calls_round (s : Threads.state) :
  Threads.createMutex s = None ->
  Threads.pcs s 0%nat = Threads.Outside -> Threads.pcs s 1%nat = Threads.Outside ->
  exists s', Threads.run two_calls s = Threads.Next s'
             /\ Threads.createMutex s' = None
             /\ Threads.pcs s' 0%nat = Threads.Outside
             /\ Threads.pcs s' 1%nat = Threads.Outside
             /\ length (Threads.returned s') = S (S (length (Threads.returned s))).
Proof.
  destruct s as [m c p r].
  cbn [Threads.createMutex Threads.pcs Threads.returned]. intros -> H0 H1.
  unfold two_calls.
  do 12 thread_step.
  eexists. split; [reflexivity|]. cbn. split_and!; try reflexivity.
  rewrite !length_app. cbn. lia.
Qed.

Lemma two_calls_rounds (rounds : nat) (s : Threads.state) :
  Threads.createMutex s = None ->
  Threads.pcs s 0%nat = Threads.Outside -> Threads.pcs s 1%nat = Threads.Outside ->
  exists s', Threads.run (concat (replicate rounds two_calls)) s = Threads.Next s'
             /\ Threads.createMutex s' = None
             /\ Threads.pcs s' 0%nat = Threads.Outside
             /\ Threads.pcs s' 1%nat = Threads.Outside
             /\ length (Threads.returned s') = (2 * rounds + length (Threads.returned s))%nat.
Proof.
  revert s. induction rounds as [|rounds IH]; intros s Hm H0 H1.
  - exists s. by split_and!.
  - destruct (two_calls_round s Hm H0 H1) as (s1 & Hrun & Hm1 & H01 & H11 & Hlen).
    destruct (IH s1 Hm1 H01 H11) as (s2 & Hrun2 & Hm2 & H02 & H12 & Hlen2).
    exists s2. split_and!; try assumption.
    + cbn [replicate concat]. rewrite run_app, Hrun. exact Hrun2.
    + lia.
Qed.

(** C8 as stated fails on the width of the counter: when two threads go on
    calling, [2^63 + 1] rounds of two concurrent calls each return
    [2^64 + 2] ids, and the first id and the one after the wrap-around are
    both [1]. *)
Lemma create_entity_concurrent_duplicate :
  exists s,
    Threads.run (concat (replicate (Z.to_nat (ECS.UINT64_MOD / 2 + 1)) two_calls))
      Threads.init = Threads.Next s
    /\ (snd <$> Threads.returned s) !! 0%nat = Some 1
    /\ (snd <$> Threads.returned s) !! Z.to_nat ECS.UINT64_MOD = Some 1
    /\ ~ NoDup (snd <$> Threads.returned s).
Proof.
  destruct (two_calls_rounds (Z.to_nat (ECS.UINT64_MOD / 2 + 1)) Threads.init)
    as (s & Hrun & _ & _ & _ & Hlen); try reflexivity.
  exists s. split; [exact Hrun|].
  destruct (proj2 (run_invariant _ _ init_invariant) s Hrun) as (_ & Hids & _).
  assert (Z.of_nat (length (Threads.returned s)) = ECS.UINT64_MOD + 2) as Hn.
  { rewrite Hlen. cbn [Threads.init Threads.returned length].
    change (ECS.UINT64_MOD / 2 + 1) with 9223372036854775809.
    rewrite Nat.add_0_r, Nat2Z.inj_mul, Z2Nat.id by lia.
    unfold ECS.UINT64_MOD. lia. }
  assert ((snd <$> Threads.returned s) !! 0%nat = Some 1) as Hfirst.
  { unfold ids_in_sequence in Hids. rewrite Hids, Hn, list_lookup_fmap.
    rewrite (proj2 (lookup_seqZ 1 (ECS.UINT64_MOD + 2) 0 1))
      by (unfold ECS.UINT64_MOD; lia).
    reflexivity. }
  assert ((snd <$> Threads.returned s) !! Z.to_nat ECS.UINT64_MOD = Some 1) as Hlast.
  { unfold ids_in_sequence in Hids. rewrite Hids, Hn, list_lookup_fmap.
    rewrite (proj2 (lookup_seqZ 1 (ECS.UINT64_MOD + 2) (Z.to_nat ECS.UINT64_MOD)
                      (1 + ECS.UINT64_MOD)))
      by (rewrite Z2Nat.id; unfold ECS.UINT64_MOD; lia).
    vm_compute. reflexivity. }
  split_and!; [exact Hfirst|exact Hlast|].
  intros Hnd.
  pose proof (NoDup_lookup _ _ _ _ Hnd Hfirst Hlast) as Habs.
  unfold ECS.UINT64_MOD in Habs. lia.
Qed.

(** C8, amended: whatever the interleaving of the threads' steps,
    [createMutex] is never misused; a thread is between the lock and the
    unlock of [create_entity] exactly when it owns the mutex, so all
    accesses to the shared counter are serialised; the calls return what
    they would return when run one after another in the order of their
    return; while at most [2^64] calls have returned, no two of them have
    returned the same id; and a blocked thread waits for an owner that can
    go on. *)
Theorem create_entity_thread_safe `{Countable poly_typeid} (schedule : list nat) :
  Threads.run schedule Threads.init <> Threads.Undefined
  /\ forall s, Threads.run schedule Threads.init = Threads.Next s ->
       serialised s
       /\ Threads.returned s
          = (ECS.create_entities (fst <$> Threads.returned s)
               (ECS.new_orchestrator (poly_typeid := poly_typeid))).1
       /\ (Z.of_nat (length (Threads.returned s)) <= ECS.UINT64_MOD ->
           NoDup (snd <$> Threads.returned s))
       /\ (forall t, Threads.step t s = Threads.Blocked ->
           exists u s', u <> t /\ Threads.createMutex s = Some u
                        /\ Threads.step u s = Threads.Next s').
Proof.
  destruct (run_invariant schedule _ init_invariant) as [Hdef Hinv].
  split; [exact Hdef|]. intros s Hrun.
  destruct (Hinv s Hrun) as (Hser & Hids & _).
  split_and!.
  - exact Hser.
  - apply pairs_eq.
    + by rewrite create_entities_threads.
    + rewrite create_entities_results, length_fmap. unfold ids_in_sequence in Hids.
      rewrite Hids. cbn [ECS.new_orchestrator ECS.entity_counter].
      replace (seqZ 1 (Z.of_nat (length (Threads.returned s))))
        with (Z.add 1 <$> seqZ 0 (Z.of_nat (length (Threads.returned s))))
        by (by rewrite fmap_add_seqZ).
      rewrite <- list_fmap_compose.
      apply list_fmap_ext. intros _ i _. cbn. f_equal.
  - intros Hn. unfold ids_in_sequence in Hids. rewrite Hids.
    by apply ids_distinct_up_to_wrap.
  - intros t. by apply blocked_by_running_owner.
Qed.

Lemma create_entity_thread_safe_witness :
  exists s,
    Threads.run two_calls Threads.init = Threads.Next s
    /\ Threads.returned s = [(0%nat, 1); (1%nat, 2)]
    /\ NoDup (snd <$> Threads.returned s).
Proof.
  eexists. split; [vm_compute; reflexivity|]. split; [reflexivity|].
  apply (create_entity_thread_safe (poly_typeid := N) two_calls);
    [vm_compute; reflexivity|vm_compute; discriminate].
Defined.

(** ** The system registry and the type router *)

Section registry.
Context `{Countable poly_typeid}.
Implicit Type o : ECS.entity_orchestrator poly_typeid.
Implicit Type w : ECS.world poly_typeid.

Lemma add_system_null (t : poly_typeid) o : ECS.add_system t ECS.nullptr o = o.
Proof. reflexivity. Qed.

Lemma add_system_registered (t : poly_typeid) (s : N) o :
  is_Some (ECS.systems o !! t) -> ECS.add_system t s o = o.
Proof.
  intros [p Hp]. unfold ECS.add_system. rewrite Hp. by destruct (s =? _)%N.
Qed.

Lemma add_system_fresh (t : poly_typeid) (s : N) o :
  s <> ECS.nullptr -> ECS.systems o !! t = None ->
  ECS.add_system t s o
  = {| ECS.system_type_map := ECS.system_type_map o;
       ECS.systems := <[t := s]> (ECS.systems o);
       ECS.entity_counter := ECS.entity_counter o |}.
Proof.
  intros Hs Ht. unfold ECS.add_system. rewrite Ht.
  destruct (N.eqb_spec s ECS.nullptr); [contradiction|reflexivity].
Qed.

(** After registering an instance, the type is registered: with the
    instance found there before, else with the new one. *)
Lemma add_system_lookup (t : poly_typeid) (s : N) o :
  s <> ECS.nullptr ->
  ECS.systems (ECS.add_system t s o) !! t = Some (default s (ECS.systems o !! t)).
Proof.
  intros Hs. destruct (ECS.systems o !! t) as [p|] eqn:Ht.
  - rewrite add_system_registered by eauto. exact Ht.
  - rewrite add_system_fresh by assumption. cbn. apply lookup_insert_eq.
Qed.

Lemma add_system_other (t t' : poly_typeid) (s : N) o :
  t <> t' -> ECS.systems (ECS.add_system t s o) !! t' = ECS.systems o !! t'.
Proof.
  intros Hne. unfold ECS.add_system.
  destruct (s =? _)%N; [reflexivity|].
  destruct (ECS.systems o !! t); [reflexivity|]. cbn. by apply lookup_insert_ne.
Qed.

Lemma operator_new_fresh (h : gmap N poly_typeid) :
  ECS.operator_new h <> ECS.nullptr /\ h !! ECS.operator_new h = None.
Proof.
  pose proof (is_fresh ({[ECS.nullptr]} ∪ dom h)) as Hf.
  fold (ECS.operator_new h) in Hf. split.
  - intros He. apply Hf. rewrite He. set_solver.
  - apply not_elem_of_dom. set_solver.
Qed.

Lemma add_system_non_null (t : poly_typeid) (s : N) o :
  registered_non_null o -> registered_non_null (ECS.add_system t s o).
Proof.
  intros Hinv. unfold ECS.add_system.
  destruct (N.eqb_spec s ECS.nullptr) as [|Hs]; [exact Hinv|].
  destruct (ECS.systems o !! t) eqn:Ht; [exact Hinv|].
  intros t' p. cbn. rewrite lookup_insert.
  case_decide; [congruence|apply Hinv].
Qed.

Lemma perform_non_null (c : ECS.call poly_typeid) w :
  registered_non_null (ECS.orch w) -> registered_non_null (ECS.orch (ECS.perform c w)).
Proof.
  intros Hinv. destruct c; cbn.
  - by apply add_system_non_null.
  - exact Hinv.
  - exact Hinv.
  - by apply add_system_non_null.
Qed.

Lemma perform_all_non_null (cs : list (ECS.call poly_typeid)) w :
  registered_non_null (ECS.orch w) ->
  registered_non_null (ECS.orch (ECS.perform_all cs w)).
Proof.
  revert w. induction cs as [|c cs IH]; intros w Hinv; [exact Hinv|].
  cbn. apply IH. by apply perform_non_null.
Qed.

(** C5: [add_system(t, s)] with an instance [s] stores [s] under [t] when
    nothing is registered there, changes the registry only in that case,
    and any further [add_system] for [t] changes nothing: [t] stays
    registered with the instance it had after the first call (the one
    found there before it, else [s]).  The operation has no error result. *)
Theorem add_system_insert_if_absent (t : poly_typeid) (s s' : N) o :
  s <> ECS.nullptr ->
  let o1 := ECS.add_system t s o in
  (ECS.systems o !! t = None -> ECS.systems o1 = <[t := s]> (ECS.systems o))
  /\ (ECS.systems o1 <> ECS.systems o -> ECS.systems o !! t = None)
  /\ ECS.add_system t s' o1 = o1
  /\ ECS.systems (ECS.add_system t s' o1) !! t = Some (default s (ECS.systems o !! t))
  /\ (forall p, ECS.systems o !! t = Some p -> ECS.systems o1 !! t = Some p).
Proof.
  intros Hs o1. subst o1. repeat split.
  - intros Ht. by rewrite add_system_fresh.
  - intros Hch. destruct (ECS.systems o !! t) eqn:Ht; [|reflexivity].
    rewrite add_system_registered in Hch by eauto. contradiction.
  - apply add_system_registered. rewrite add_system_lookup by assumption. eauto.
  - rewrite add_system_registered.
    + by apply add_system_lookup.
    + rewrite add_system_lookup by assumption. eauto.
  - intros p Hp. rewrite add_system_registered by eauto. exact Hp.
Qed.

(** The second sentence of the registration property: [create_system<T>()]
    followed by a manual [add_system] for [T] changes nothing. *)
Lemma create_system_then_add_system (T : poly_typeid) (s' : N) w :
  let o1 := ECS.orch (ECS.create_system T w).2 in
  ECS.add_system T s' o1 = o1 /\ is_Some (ECS.systems o1 !! T).
Proof.
  cbn. pose proof (operator_new_fresh (ECS.heap w)) as [Hnn _].
  assert (is_Some (ECS.systems (ECS.add_system T (ECS.operator_new (ECS.heap w))
                                  (ECS.orch w)) !! T)) as Hreg
    by (rewrite add_system_lookup by assumption; eauto).
  split; [by apply add_system_registered|exact Hreg].
Qed.

(** C6: after [register_system_for_type(S, C)] the router maps [C] to
    [S]; a second registration for [C] replaces the first; the router
    holds at most one system type per component type. *)
Theorem register_system_for_type_routes (S S' C : poly_typeid) o :
  ECS.system_type_map (ECS.register_system_for_type S C o) !! C = Some S
  /\ ECS.system_type_map
       (ECS.register_system_for_type S' C (ECS.register_system_for_type S C o)) !! C
     = Some S'
  /\ ECS.system_type_map
       (ECS.register_system_for_type S' C (ECS.register_system_for_type S C o))
     = ECS.system_type_map (ECS.register_system_for_type S' C o)
  /\ forall S1 S2,
       ECS.system_type_map (ECS.register_system_for_type S C o) !! C = Some S1 ->
       ECS.system_type_map (ECS.register_system_for_type S C o) !! C = Some S2 ->
       S1 = S2.
Proof.
  cbn. repeat split.
  - apply lookup_insert_eq.
  - apply lookup_insert_eq.
  - apply insert_insert_eq.
  - intros S1 S2 H1 H2. congruence.
Qed.


(** C9: [add_system(t, nullptr)] returns the orchestrator it was given,
    and after any sequence of calls on a new orchestrator every pointer in
    the registry is non-null. *)
Theorem add_system_never_stores_null (t : poly_typeid) o
    (cs : list (ECS.call poly_typeid)) :
  ECS.add_system t ECS.nullptr o = o
  /\ forall t' p,
       ECS.systems (ECS.orch (ECS.perform_all cs ECS.new_world)) !! t' = Some p ->
       p <> ECS.nullptr.
Proof.
  split; [reflexivity|].
  apply perform_all_non_null. intros t' p. cbn. by rewrite lookup_empty.
Qed.

End registry.

Lemma add_system_insert_if_absent_witness :
  let o := ECS.new_orchestrator (poly_typeid := N) in
  let o1 := ECS.add_system 7%N 1%N o in
  (ECS.systems o !! 7%N = None -> ECS.systems o1 = <[7%N := 1%N]> (ECS.systems o))
  /\ (ECS.systems o1 <> ECS.systems o -> ECS.systems o !! 7%N = None)
  /\ ECS.add_system 7%N 2%N o1 = o1
  /\ ECS.systems (ECS.add_system 7%N 2%N o1) !! 7%N
     = Some (default 1%N (ECS.systems o !! 7%N))
  /\ (forall p, ECS.systems o !! 7%N = Some p -> ECS.systems o1 !! 7%N = Some p).
Proof.
  apply (add_system_insert_if_absent 7%N 1%N 2%N ECS.new_orchestrator).
  unfold ECS.nullptr. lia.
Defined.

Lemma register_system_for_type_routes_witness :
  let o := ECS.new_orchestrator (poly_typeid := N) in
  ECS.system_type_map (ECS.register_system_for_type 1%N 5%N o) !! 5%N = Some 1%N
  /\ ECS.system_type_map
       (ECS.register_system_for_type 2%N 5%N (ECS.register_system_for_type 1%N 5%N o)) !! 5%N
     = Some 2%N
  /\ 1%N = 1%N.
Proof.
  destruct (register_system_for_type_routes 1%N 2%N 5%N
              (ECS.new_orchestrator (poly_typeid := N))) as (H1 & H2 & _ & H4).
  split; [exact H1|]. split; [exact H2|].
  apply (H4 1%N 1%N); vm_compute; reflexivity.
Defined.



Lemma add_system_never_stores_null_witness :
  let cs := [ECS.AddSystem 7%N 0%N; ECS.CreateSystem 7%N; ECS.AddSystem 8%N 5%N] in
  ECS.systems (ECS.orch (ECS.perform_all cs (ECS.new_world (poly_typeid := N)))) !! 8%N
  = Some 5%N
  /\ 5%N <> ECS.nullptr.
Proof.
  split; [vm_compute; reflexivity|].
  apply (proj2 (add_system_never_stores_null 7%N (ECS.new_orchestrator (poly_typeid := N))
                  [ECS.AddSystem 7%N 0%N; ECS.CreateSystem 7%N; ECS.AddSystem 8%N 5%N])
           8%N 5%N).
  vm_compute. reflexivity.
Defined.

(** ** The particle step *)

Section particle_step.
Context {float : Type}.
Context (fmul fsub : float -> float -> float) (f_0_001 f_0_97 : float).
Context (default_particle : Particles.particle float).
Context (default_instance : Particles.instance_data float).

Local Abbreviation add := (Particles.add default_particle).
Local Abbreviation update := (Particles.update fmul fsub f_0_001 f_0_97 default_instance).

(** C10 (the code on two call sequences): [add; update; add; update]
    without trail sizes [instances] to 1 in the first [update] and leaves
    it so in the second, whose pass [i = 1] writes [instances[1]];
    [add; update] with a trail count of 1 reads [particles[1]] of a vector
    of size 1. *)
Theorem update_out_of_bounds
    (pos vel pos' vel' : Particles.float3 float) (sz life sz' life' : float) :
  (exists s1,
      update (add pos vel sz life (empty_system 0)) = Ok s1
      /\ length (Particles.instances s1) = 1%nat
      /\ length (Particles.particles (add pos' vel' sz' life' s1)) = 2%nat
      /\ update (add pos' vel' sz' life' s1) = Fault OutOfBounds)
  /\ (length (Particles.particles (add pos vel sz life (empty_system 1))) = 1%nat
      /\ update (add pos vel sz life (empty_system 1)) = Fault OutOfBounds).
Proof.
  destruct pos as [[x y] z], vel as [[vx vy] vz].
  destruct pos' as [[x' y'] z'], vel' as [[vx' vy'] vz'].
  split.
  - eexists. split; [vm_compute; reflexivity|].
    split; [reflexivity|]. split; [reflexivity|]. vm_compute. reflexivity.
  - split; [reflexivity|]. vm_compute. reflexivity.
Qed.

(** One pass of the loop body without trail succeeds when [instances] is as
    long as [particles], and keeps both lengths. *)
Lemma trail_step_no_trail (i : Z) (ps : list (Particles.particle float))
    (ins : list (Particles.instance_data float)) :
  0 <= i < Z.of_nat (length ps) -> length ins = length ps ->
  exists ins',
    Particles.trail_step fmul fsub f_0_001 f_0_97 i 0 (ps, ins) = Ok (ps, ins')
    /\ length ins' = length ps.
Proof.
  intros Hi Hlen. unfold Particles.trail_step. cbn [Z.leb Z.compare mbind result_bind].
  assert (forall A (l : list A), length l = length ps ->
          exists a, Particles.at_index l i = Ok a) as Hat.
  { intros A l Hl. unfold Particles.at_index.
    destruct (Z.leb_spec 0 i); [|lia].
    destruct (Z.ltb_spec i (Z.of_nat (length l))); [|lia]. cbn.
    destruct (lookup_lt_is_Some_2 l (Z.to_nat i) ltac:(lia)) as [a ->]. eauto. }
  assert (forall A (l : list A) a, length l = length ps ->
          Particles.set_index l i a = Ok (<[Z.to_nat i := a]> l)) as Hset.
  { intros A l a Hl. unfold Particles.set_index.
    destruct (Z.leb_spec 0 i); [|lia].
    destruct (Z.ltb_spec i (Z.of_nat (length l))); [|lia]. reflexivity. }
  destruct (Hat _ ps eq_refl) as [p ->]. cbn [mbind result_bind].
  destruct (Hat _ ins Hlen) as [a ->]. cbn [mbind result_bind].
  rewrite Hset by assumption. cbn [mbind result_bind].
  match goal with
  | |- context [Particles.at_index ?l i] =>
      destruct (Hat _ l) as [b ->]; [by rewrite length_insert|]
  end.
  cbn [mbind result_bind].
  rewrite Hset by (by rewrite length_insert). cbn [mbind result_bind].
  eexists. split; [reflexivity|]. by rewrite !length_insert.
Qed.

Lemma run_body_invariant {S : Type} (I : S -> Prop) (body : Z -> S -> result S)
    (ks : list Z) (s : S) :
  I s ->
  (forall k s, k ∈ ks -> I s -> exists s', body k s = Ok s' /\ I s') ->
  exists s', Particles.run_body body ks s = Ok s' /\ I s'.
Proof.
  revert s. induction ks as [|k ks IH]; intros s Hs Hbody; [by exists s|].
  destruct (Hbody k s ltac:(left) Hs) as (s1 & Hk & Hs1).
  cbn [Particles.run_body]. rewrite Hk. cbn.
  apply IH; [exact Hs1|]. intros k' s' Hk'. apply Hbody. by right.
Qed.

(** Without trail, [update] succeeds when [instances] is still empty or as
    long as [particles]; afterwards both have the length of [particles]. *)
Lemma update_safe_without_trail (s : Particles.gl_particle_system float) :
  Particles.trail s = 0 ->
  Z.of_nat (length (Particles.particles s)) <= CInt.INT_MAX ->
  Particles.instances s = []
  \/ length (Particles.instances s) = length (Particles.particles s) ->
  exists s',
    update s = Ok s'
    /\ Particles.particles s' = Particles.particles s
    /\ (Particles.particles s <> [] ->
        length (Particles.instances s') = length (Particles.particles s)).
Proof.
  intros Htrail Hmax Hins. unfold Particles.update.
  destruct (Z.eqb_spec (Z.of_nat (length (Particles.particles s))) 0) as [Hz|Hnz].
  { exists s. repeat split. intros Hne. destruct (Particles.particles s); [done|].
    cbn in Hz. lia. }
  set (ps := Particles.particles s) in *.
  set (ins0 := if Z.of_nat (length (Particles.instances s)) =? 0
               then replicate (length ps) default_instance
               else Particles.instances s).
  assert (length ins0 = length ps) as Hlen0.
  { subst ins0. destruct (Z.eqb_spec (Z.of_nat (length (Particles.instances s))) 0) as [He|He].
    - apply length_replicate.
    - destruct Hins as [Hnil|Heq]; [rewrite Hnil in He; cbn in He; lia|exact Heq]. }
  rewrite Htrail. change ((0 + 1) `mod` Particles.SIZE_MOD) with 1.
  unfold Particles.int_for at 1.
  rewrite Z.min_l by lia.
  destruct (run_body_invariant
              (fun st => st.1 = ps /\ length st.2 = length ps)
              (fun i st =>
                 Particles.int_for 1
                   (fun trail_idx st =>
                      Particles.trail_step fmul fsub f_0_001 f_0_97 i trail_idx st) st)
              (seqZ 0 (Z.of_nat (length ps))) (ps, ins0))
    as (st & Hrun & Hst1 & Hst2).
  - split; [reflexivity|exact Hlen0].
  - intros i [ps1 ins1] Hi [Hps Hl]. cbn in Hps, Hl. subst ps1.
    apply elem_of_seqZ in Hi.
    destruct (trail_step_no_trail i ps ins1 ltac:(lia) Hl) as (ins' & Hstep & Hl').
    exists (ps, ins'). split; [|by split].
    unfold Particles.int_for. change (seqZ 0 _) with [0].
    cbn [Particles.run_body]. rewrite Hstep. reflexivity.
  - rewrite Hrun. cbn [mbind result_bind].
    destruct (Z.ltb_spec CInt.INT_MAX (Z.of_nat (length ps))); [lia|].
    eexists. split; [reflexivity|]. cbn. split; [exact Hst1|]. intros _. exact Hst2.
Qed.

End particle_step.

(* ===================================================================== *)
(** * Further properties of the code                                     *)
(* ===================================================================== *)

(** ** The partitioner: further cases *)

(** X1.  For a non-empty workload, a non-negative hint and a product
    [ceil(n / k) * k] that fits an [int], the call returns one contiguous
    ascending run of indices per worker, the runs follow one another, and
    together they are [0, 1, ..., n - 1]: every index below [n] occurs in
    exactly one place. *)
Theorem partition_exact_cover (hw n tc : Z) :
  0 <= hw <= CInt.INT_MAX -> 0 <= tc <= CInt.INT_MAX -> 1 <= n ->
  chunk_big n (Partitioner.n_threads hw n tc) * Partitioner.n_threads hw n tc
    <= CInt.INT_MAX ->
  exists parts,
    Partitioner.particle_parallel_for hw n tc = Ok parts
    /\ Z.of_nat (length parts) = Partitioner.n_threads hw n tc
    /\ (forall (t : nat) c, parts !! t = Some c ->
          c = seqZ (chunk_start n (Partitioner.n_threads hw n tc) (Z.of_nat t))
                   (chunk_len n (Partitioner.n_threads hw n tc) (Z.of_nat t)))
    /\ concat parts = seqZ 0 n
    /\ NoDup (concat parts)
    /\ (forall i, i ∈ concat parts <-> 0 <= i < n).
Proof.
  intros Hhw Htc Hn Hfit.
  pose proof (n_threads_bounds hw n tc Hhw Htc Hn) as [Hk1 Hkn].
  rewrite particle_parallel_for_chunks by assumption.
  set (k := Partitioner.n_threads hw n tc) in *.
  eexists. split; [reflexivity|].
  assert (concat ((fun t => seqZ (chunk_start n k t) (chunk_len n k t)) <$> seqZ 0 k)
          = seqZ 0 n) as Hcat.
  { replace (seqZ 0 k) with (seqZ 0 (Z.of_nat (Z.to_nat k))) by (f_equal; lia).
    rewrite (chunks_concat n k) by assumption.
    rewrite Z2Nat.id by lia. by rewrite chunk_start_k. }
  split; [rewrite length_fmap, length_seqZ; lia|].
  split.
  { intros t c Hc. rewrite list_lookup_fmap in Hc.
    destruct (seqZ 0 k !! t) as [j|] eqn:Hj; [|discriminate].
    apply lookup_seqZ in Hj as [-> _]. injection Hc as <-.
    by rewrite Z.add_0_l. }
  rewrite Hcat. split; [reflexivity|]. split; [apply NoDup_seqZ|].
  intros i. rewrite elem_of_seqZ. lia.
Qed.

Lemma partition_exact_cover_witness :
  exists parts,
    Partitioner.particle_parallel_for 4 10 0 = Ok parts
    /\ Z.of_nat (length parts) = Partitioner.n_threads 4 10 0
    /\ (forall (t : nat) c, parts !! t = Some c ->
          c = seqZ (chunk_start 10 (Partitioner.n_threads 4 10 0) (Z.of_nat t))
                   (chunk_len 10 (Partitioner.n_threads 4 10 0) (Z.of_nat t)))
    /\ concat parts = seqZ 0 10
    /\ NoDup (concat parts)
    /\ (forall i, i ∈ concat parts <-> 0 <= i < 10).
Proof.
  apply (partition_exact_cover 4 10 0); try (unfold CInt.INT_MAX; lia).
  vm_compute. discriminate.
Defined.

(** X2.  When the product [ceil(n / k) * k] of line 11 exceeds [INT_MAX]
    the multiplication overflows before any worker is spawned. *)
Theorem partition_product_overflows (hw n tc : Z) :
  0 <= hw <= CInt.INT_MAX -> 0 <= tc <= CInt.INT_MAX -> 1 <= n <= CInt.INT_MAX ->
  CInt.INT_MAX
    < chunk_big n (Partitioner.n_threads hw n tc) * Partitioner.n_threads hw n tc ->
  Partitioner.particle_parallel_for hw n tc = Fault SignedOverflow.
Proof.
  intros Hhw Htc [Hn Hnmax] Hbig.
  pose proof (n_threads_bounds hw n tc Hhw Htc Hn) as [Hk1 Hkn].
  unfold Partitioner.particle_parallel_for.
  set (k := Partitioner.n_threads hw n tc) in *.
  pose proof (chunk_arith n k Hk1 Hkn) as (Hm & HL & Hmk & _).
  assert (Partitioner.n_max_tasks_per_thread n k = Ok (chunk_big n k)) as ->.
  { unfold chunk_big in *.
    pose proof (Z.quot_rem' n k) as Hqr.
    pose proof (Z.rem_bound_pos n k ltac:(lia) ltac:(lia)) as Hr.
    assert (0 <= Z.quot n k <= n) as Hq by (split; [apply Z.quot_pos; lia|nia]).
    assert (Z.rem n k <> 0 -> Z.quot n k < n) as Hlt by nia.
    unfold Partitioner.n_max_tasks_per_thread, CInt.div, CInt.rem, CInt.add.
    destruct (Z.eqb_spec k 0) as [?|_]; [lia|].
    rewrite checked_in_range by (unfold CInt.INT_MIN, CInt.INT_MAX in *; lia).
    cbn. apply checked_in_range. unfold CInt.INT_MIN, CInt.INT_MAX in *.
    destruct (Z.eqb_spec (Z.rem n k) 0); lia. }
  cbn. unfold Partitioner.n_lacking_tasks, CInt.mul, CInt.checked, CInt.in_int.
  destruct (Z.leb_spec (chunk_big n k * k) CInt.INT_MAX) as [Hle|_]; [lia|].
  by rewrite andb_false_r.
Qed.

Lemma partition_product_overflows_witness :
  Partitioner.particle_parallel_for 8 2147483647 2 = Fault SignedOverflow.
Proof.
  apply (partition_product_overflows 8 2147483647 2);
    try (unfold CInt.INT_MAX; lia).
  vm_compute. reflexivity.
Defined.

(** X3.  When the worker count divides [n], every worker gets exactly
    [n / k] indices. *)
Theorem partition_even_split (hw n tc : Z) :
  0 <= hw <= CInt.INT_MAX -> 0 <= tc <= CInt.INT_MAX -> 1 <= n <= CInt.INT_MAX ->
  Z.rem n (Partitioner.n_threads hw n tc) = 0 ->
  exists parts,
    Partitioner.particle_parallel_for hw n tc = Ok parts
    /\ Forall (fun c => Z.of_nat (length c) = Z.quot n (Partitioner.n_threads hw n tc))
         parts.
Proof.
  intros Hhw Htc [Hn Hnmax] Hrem.
  pose proof (n_threads_bounds hw n tc Hhw Htc Hn) as [Hk1 Hkn].
  set (k := Partitioner.n_threads hw n tc) in *.
  pose proof (chunk_arith n k Hk1 Hkn) as (Hm & HL & Hmk & _ & HL0).
  specialize (HL0 Hrem).
  assert (chunk_big n k = Z.quot n k) as Hbig
    by (unfold chunk_big; rewrite Hrem; cbn; lia).
  rewrite particle_parallel_for_chunks by (try assumption; fold k; lia).
  fold k. eexists. split; [reflexivity|].
  apply Forall_fmap, Forall_seqZ. intros t Ht. cbn.
  rewrite length_seqZ. unfold chunk_len. rewrite HL0, Hbig.
  destruct (Z.leb_spec 0 (t - k + 0)); lia.
Qed.

Lemma partition_even_split_witness :
  exists parts,
    Partitioner.particle_parallel_for 8 12 3 = Ok parts
    /\ Forall (fun c => Z.of_nat (length c) = Z.quot 12 (Partitioner.n_threads 8 12 3))
         parts.
Proof.
  apply (partition_even_split 8 12 3); try (unfold CInt.INT_MAX; lia).
  reflexivity.
Defined.

(** X4.  A workload no larger than an explicit hint gets one worker per
    index: worker [i] processes index [i] alone. *)
Theorem partition_one_index_per_worker (hw n tc : Z) :
  1 <= n <= tc -> tc <= CInt.INT_MAX ->
  Partitioner.particle_parallel_for hw n tc = Ok ((fun i => [i]) <$> seqZ 0 n).
Proof.
  intros [Hn Hntc] Htc.
  assert (Partitioner.n_threads hw n tc = n) as Hk.
  { unfold Partitioner.n_threads.
    rewrite hint_explicit by (unfold CInt.INT_MIN; lia).
    destruct (Z.eqb_spec tc 0); lia. }
  assert (chunk_big n n = 1) as Hbig.
  { unfold chunk_big. rewrite Z.quot_same, Z.rem_same by lia. reflexivity. }
  assert (chunk_lacking n n = 0) as Hlack by (unfold chunk_lacking; lia).
  unfold Partitioner.particle_parallel_for. rewrite Hk.
  rewrite (n_max_fits n n) by (rewrite ?Hbig; lia). cbn.
  rewrite (n_lacking_fits n n) by (rewrite ?Hbig; lia). cbn.
  rewrite (workers_fit n n) by (rewrite ?Hbig; lia).
  f_equal. apply Forall_fmap_ext, Forall_seqZ. intros t Ht.
  unfold chunk_start, chunk_len. rewrite Hbig, Hlack.
  destruct (Z.leb_spec 0 (t - n + 0)); [lia|].
  replace (t * 1 - Z.max (t - n + 0) 0) with t by lia. reflexivity.
Qed.

Lemma partition_one_index_per_worker_witness :
  Partitioner.particle_parallel_for 8 3 16 = Ok ((fun i => [i]) <$> seqZ 0 3).
Proof.
  apply (partition_one_index_per_worker 8 3 16); unfold CInt.INT_MAX; lia.
Defined.

(** X5.  A negative worker count [k], which a negative hint or a negative
    [n] produces, spawns no worker.  The division of line 10 and the
    product of line 11 are always representable; the subtraction of line 11,
    [m * k - n] with [m] the value of line 10, is the only step that can
    overflow.  When [m * k - n] is at least [INT_MIN] the call returns
    normally and no index is processed; otherwise line 11 overflows.  The
    former holds whenever [n < 0], [k] divides [n], or [k >= - 2^30]. *)
Theorem partition_negative_worker_count (hw n tc : Z) :
  CInt.INT_MIN <= n <= CInt.INT_MAX ->
  CInt.INT_MIN <= Partitioner.n_threads hw n tc < 0 ->
  let k := Partitioner.n_threads hw n tc in
  Partitioner.particle_parallel_for hw n tc
    = (if CInt.INT_MIN <=? chunk_lacking n k then Ok []
       else Fault SignedOverflow)
  /\ (n < 0 \/ Z.rem n k = 0 \/ - 1073741824 <= k ->
      CInt.INT_MIN <= chunk_lacking n k).
Proof.
  intros Hn Hk k.
  assert (k <= n) as Hle by (unfold k, Partitioner.n_threads; lia).
  unfold Partitioner.particle_parallel_for.
  fold k in Hk |- *.
  unfold CInt.INT_MIN, CInt.INT_MAX in *.
  pose proof (Z.quot_rem' n k) as Hqr.
  assert (- 2147483648 <= Z.quot n k <= 2147483647
          /\ - 2147483648 <= chunk_big n k <= 2147483647
          /\ - 2147483648 <= chunk_big n k * k <= 2147483647
          /\ chunk_big n k * k - n <= 2147483647
          /\ (n < 0 \/ Z.rem n k = 0 \/ - 1073741824 <= k ->
              - 2147483648 <= chunk_big n k * k - n))
    as (Hq & Hm & Hmk & HL & Hsmall).
  { unfold chunk_big. destruct (Z.le_gt_cases 0 n) as [Hp|Hneg].
    - pose proof (Z.rem_bound_neg_pos n k ltac:(lia) Hp) as Hr.
      set (q := Z.quot n k) in *. set (r := Z.rem n k) in *. clearbody q r.
      assert (- n <= q <= 0) as Hqb by nia.
      destruct (Z.eqb_spec r 0); split_and!; try nia; intros [?|[?|?]]; nia.
    - pose proof (Z.rem_bound_neg_neg n k ltac:(lia) ltac:(lia)) as Hr.
      set (q := Z.quot n k) in *. set (r := Z.rem n k) in *. clearbody q r.
      assert (0 <= q <= 1) as Hqb by nia.
      destruct (Z.eqb_spec r 0); split_and!; try nia; intros _; nia. }
  split; [|exact Hsmall].
  assert (Partitioner.n_max_tasks_per_thread n k = Ok (chunk_big n k)) as ->.
  { unfold Partitioner.n_max_tasks_per_thread, CInt.div, CInt.rem, CInt.add.
    destruct (Z.eqb_spec k 0) as [?|_]; [lia|].
    rewrite checked_in_range by (unfold CInt.INT_MIN, CInt.INT_MAX; lia).
    cbn. apply checked_in_range. unfold CInt.INT_MIN, CInt.INT_MAX. exact Hm. }
  cbn. unfold Partitioner.n_lacking_tasks, CInt.mul, CInt.sub.
  rewrite checked_in_range by (unfold CInt.INT_MIN, CInt.INT_MAX; lia).
  cbn. fold (chunk_lacking n k) in HL |- *.
  destruct (Z.leb_spec (- 2147483648) (chunk_lacking n k)) as [Hge|Hlt].
  - rewrite checked_in_range by (unfold CInt.INT_MIN, CInt.INT_MAX; lia).
    cbn. rewrite seqZ_nil by lia. reflexivity.
  - unfold CInt.checked, CInt.in_int, CInt.INT_MIN.
    destruct (Z.leb_spec (- 2147483648) (chunk_lacking n k)); [lia|].
    reflexivity.
Qed.

Lemma partition_negative_worker_count_witness :
  Partitioner.particle_parallel_for 8 10 (-2) = Ok []
  /\ Partitioner.particle_parallel_for 8 2 CInt.INT_MIN = Fault SignedOverflow.
Proof.
  split.
  - apply (partition_negative_worker_count 8 10 (-2));
      vm_compute; split; congruence.
  - apply (partition_negative_worker_count 8 2 CInt.INT_MIN);
      vm_compute; split; congruence.
Defined.

(** ** The orchestrator under arbitrary call sequences *)

Section orchestrator_calls.
Context `{Countable poly_typeid}.
Implicit Type o : ECS.entity_orchestrator poly_typeid.
Implicit Type w : ECS.world poly_typeid.
Implicit Type cs : list (ECS.call poly_typeid).

Lemma perform_all_cons (c : ECS.call poly_typeid) cs w :
  ECS.perform_all (c :: cs) w = ECS.perform_all cs (ECS.perform c w).
Proof. reflexivity. Qed.

Lemma perform_keeps_registered (c : ECS.call poly_typeid) w (t : poly_typeid) (p : N) :
  ECS.systems (ECS.orch w) !! t = Some p ->
  ECS.systems (ECS.orch (ECS.perform c w)) !! t = Some p.
Proof.
  intros Hreg.
  assert (forall t' s, ECS.systems (ECS.add_system t' s (ECS.orch w)) !! t = Some p) as Hadd.
  { intros t' s. destruct (decide (t' = t)) as [->|Hne].
    - rewrite add_system_registered by eauto. exact Hreg.
    - rewrite add_system_other by assumption. exact Hreg. }
  destruct c; cbn; auto.
Qed.

(** X6.  No sequence of calls removes or replaces a registered system. *)
Theorem registered_system_is_permanent cs w (t : poly_typeid) (p : N) :
  ECS.systems (ECS.orch w) !! t = Some p ->
  ECS.systems (ECS.orch (ECS.perform_all cs w)) !! t = Some p.
Proof.
  revert w. induction cs as [|c cs IH]; intros w Hreg; [exact Hreg|].
  rewrite perform_all_cons. apply IH. by apply perform_keeps_registered.
Qed.

Lemma perform_counter (c : ECS.call poly_typeid) w :
  ECS.entity_counter (ECS.orch (ECS.perform c w))
  = if is_create_entity c
    then (ECS.entity_counter (ECS.orch w) + 1) mod ECS.UINT64_MOD
    else ECS.entity_counter (ECS.orch w).
Proof.
  destruct c; cbn; try reflexivity.
  - unfold ECS.add_system. destruct (_ =? _)%N; [reflexivity|].
    by destruct (ECS.systems (ECS.orch w) !! T).
  - unfold ECS.add_system. destruct (_ =? _)%N; [reflexivity|].
    by destruct (ECS.systems (ECS.orch w) !! system_type).
Qed.

Lemma perform_counter_range (c : ECS.call poly_typeid) w :
  0 <= ECS.entity_counter (ECS.orch w) < ECS.UINT64_MOD ->
  0 <= ECS.entity_counter (ECS.orch (ECS.perform c w)) < ECS.UINT64_MOD.
Proof.
  intros Hr. rewrite perform_counter.
  destruct (is_create_entity c); [|exact Hr].
  apply Z.mod_pos_bound. unfold ECS.UINT64_MOD. lia.
Qed.

Lemma perform_all_counter cs w :
  0 <= ECS.entity_counter (ECS.orch w) < ECS.UINT64_MOD ->
  ECS.entity_counter (ECS.orch (ECS.perform_all cs w))
  = (ECS.entity_counter (ECS.orch w) + Z.of_nat (count_calls is_create_entity cs))
      mod ECS.UINT64_MOD.
Proof.
  revert w. induction cs as [|c cs IH]; intros w Hr.
  - unfold count_calls. cbn. rewrite Z.add_0_r. symmetry. by apply Z.mod_small.
  - rewrite perform_all_cons, IH by (by apply perform_counter_range).
    rewrite perform_counter. unfold count_calls. cbn [List.filter].
    destruct (is_create_entity c); [|reflexivity]. cbn [length].
    rewrite Z.add_mod_idemp_l by (unfold ECS.UINT64_MOD; lia). f_equal. lia.
Qed.

(** X7.  After any sequence of calls on a new orchestrator the counter is
    the number of [create_entity] calls among them, modulo [2^64]:
    creating systems and declaring routes consumes no entity id. *)
Theorem counter_counts_create_entity cs :
  ECS.entity_counter (ECS.orch (ECS.perform_all cs ECS.new_world))
  = Z.of_nat (count_calls is_create_entity cs) mod ECS.UINT64_MOD.
Proof.
  rewrite perform_all_counter by (cbn; unfold ECS.UINT64_MOD; lia). reflexivity.
Qed.

Lemma perform_heap_size (c : ECS.call poly_typeid) w :
  size (ECS.heap (ECS.perform c w))
  = (size (ECS.heap w) + if is_create_system c then 1 else 0)%nat
  /\ ECS.heap w ⊆ ECS.heap (ECS.perform c w).
Proof.
  destruct c; cbn; try (split; [lia|reflexivity]).
  pose proof (operator_new_fresh (ECS.heap w)) as [_ Hfree].
  split; [rewrite map_size_insert_None by exact Hfree; lia|].
  by apply insert_subseteq.
Qed.

(** X8.  Objects made by [create_system] are never released: after any
    sequence of calls the heap holds the objects it held before and one
    more per [create_system] call, registered or not. *)
Theorem systems_are_never_released cs w :
  size (ECS.heap (ECS.perform_all cs w))
  = (size (ECS.heap w) + count_calls is_create_system cs)%nat
  /\ ECS.heap w ⊆ ECS.heap (ECS.perform_all cs w).
Proof.
  revert w. induction cs as [|c cs IH]; intros w.
  - unfold count_calls. cbn. split; [lia|reflexivity].
  - rewrite perform_all_cons. destruct (IH (ECS.perform c w)) as [IHs IHi].
    destruct (perform_heap_size c w) as [Hs Hi].
    split; [|by etrans].
    rewrite IHs, Hs. unfold count_calls. cbn [List.filter].
    destruct (is_create_system c); cbn [length]; lia.
Qed.

Lemma create_system_well_typed (T : poly_typeid) w :
  registry_well_typed w -> registry_well_typed (ECS.create_system T w).2.
Proof.
  intros Hwt t p. cbn.
  pose proof (operator_new_fresh (ECS.heap w)) as [Hnn Hfree].
  set (ptr := ECS.operator_new (ECS.heap w)) in *.
  assert (forall t' p', ECS.systems (ECS.orch w) !! t' = Some p' ->
            <[ptr := T]> (ECS.heap w) !! p' = Some t') as Hold.
  { intros t' p' Hreg. rewrite lookup_insert_ne; [by apply Hwt|].
    intros <-. apply Hwt in Hreg. congruence. }
  destruct (ECS.systems (ECS.orch w) !! T) as [q|] eqn:HT.
  - rewrite add_system_registered by eauto. apply Hold.
  - rewrite add_system_fresh by assumption. cbn. rewrite lookup_insert.
    case_decide as Ht.
    + intros [= <-]. subst t. apply lookup_insert_eq.
    + apply Hold.
Qed.

Lemma perform_well_typed (c : ECS.call poly_typeid) w :
  is_add_system c = false ->
  registry_well_typed w -> registry_well_typed (ECS.perform c w).
Proof.
  intros Hc Hwt. destruct c; try discriminate.
  - by apply create_system_well_typed.
  - exact Hwt.
  - exact Hwt.
Qed.

(** X9.  As long as systems are registered through [create_system] only,
    every registered pointer is the address of a live object of the class
    it is registered under. *)
Theorem registry_well_typed_without_add_system cs :
  Forall (fun c => is_add_system c = false) cs ->
  registry_well_typed (ECS.perform_all cs ECS.new_world).
Proof.
  assert (forall w, Forall (fun c => is_add_system c = false) cs ->
            registry_well_typed w -> registry_well_typed (ECS.perform_all cs w)) as Hgen.
  { induction cs as [|c cs IH]; intros w Hcs Hwt; [exact Hwt|].
    apply Forall_cons in Hcs as [Hc Hcs]. rewrite perform_all_cons.
    apply IH; [exact Hcs|]. by apply perform_well_typed. }
  intros Hcs. apply Hgen; [exact Hcs|].
  intros t p. cbn. by rewrite lookup_empty.
Qed.

(** What a run of [create_system] calls for distinct, unregistered classes
    leaves behind. *)
Lemma create_systems_spec (Ts : list poly_typeid) w :
  NoDup Ts ->
  Forall (fun T => ECS.systems (ECS.orch w) !! T = None) Ts ->
  let ptrs := (create_systems Ts w).1 in
  let w' := (create_systems Ts w).2 in
  length ptrs = length Ts
  /\ Forall (fun p => p <> ECS.nullptr /\ ECS.heap w !! p = None) ptrs
  /\ NoDup ptrs
  /\ ECS.heap w ⊆ ECS.heap w'
  /\ (forall t p, ECS.systems (ECS.orch w) !! t = Some p ->
                  ECS.systems (ECS.orch w') !! t = Some p)
  /\ (forall t, t ∉ Ts -> ECS.systems (ECS.orch w') !! t = ECS.systems (ECS.orch w) !! t)
  /\ (forall (i : nat) T p, Ts !! i = Some T -> ptrs !! i = Some p ->
        ECS.systems (ECS.orch w') !! T = Some p /\ ECS.heap w' !! p = Some T).
Proof.
  revert w. induction Ts as [|T Ts IH]; intros w Hnd Hfree.
  - cbn. repeat split; try constructor; try done.
  - apply NoDup_cons in Hnd as [HT Hnd].
    apply Forall_cons in Hfree as [HfT Hfree].
    cbn [create_systems].
    pose proof (operator_new_fresh (ECS.heap w)) as [Hnn Hnew].
    destruct (ECS.create_system T w) as [ptr w1] eqn:Hcs.
    assert (ptr = ECS.operator_new (ECS.heap w)) as Hptr by (by injection Hcs).
    assert (ECS.heap w1 = <[ptr := T]> (ECS.heap w)) as Hheap1
      by (injection Hcs as _ <-; by subst ptr).
    assert (ECS.systems (ECS.orch w1) = <[T := ptr]> (ECS.systems (ECS.orch w))) as Hsys1.
    { injection Hcs as _ <-. cbn. rewrite add_system_fresh by assumption. by subst ptr. }
    assert (Forall (fun T' => ECS.systems (ECS.orch w1) !! T' = None) Ts) as Hfree1.
    { rewrite Forall_forall in Hfree |- *. intros T' HT'.
      rewrite Hsys1, lookup_insert_ne; [by apply Hfree|]. intros ->. contradiction. }
    specialize (IH w1 Hnd Hfree1).
    destruct (create_systems Ts w1) as [ptrs w2]. cbn in IH |- *.
    destruct IH as (Hlen & Hall & Hndp & Hsub & Hkeep & Hother & Hreg).
    rewrite <- Hptr in Hnn, Hnew.
    assert (ECS.heap w ⊆ ECS.heap w1) as Hsub1
      by (rewrite Hheap1; by apply insert_subseteq).
    split_and!.
    + by rewrite Hlen.
    + constructor; [by split|].
      rewrite Forall_forall in Hall |- *. intros p Hp. destruct (Hall p Hp) as [Hpn Hph].
      split; [exact Hpn|]. rewrite Hheap1 in Hph.
      apply lookup_insert_None in Hph. tauto.
    + constructor; [|exact Hndp].
      intros Hin. rewrite Forall_forall in Hall. destruct (Hall ptr Hin) as [_ Hph].
      rewrite Hheap1, lookup_insert_eq in Hph. discriminate.
    + by etrans.
    + intros t p Hr. apply Hkeep. rewrite Hsys1, lookup_insert_ne; [exact Hr|].
      intros <-. congruence.
    + intros t Ht. apply not_elem_of_cons in Ht as [Hne Ht].
      rewrite Hother by exact Ht. rewrite Hsys1. by apply lookup_insert_ne.
    + intros [|i] T' p HT' Hp; cbn in HT', Hp.
      * injection HT' as <-. injection Hp as <-. split.
        -- apply Hkeep. rewrite Hsys1. apply lookup_insert_eq.
        -- eapply lookup_weaken; [|exact Hsub]. rewrite Hheap1. apply lookup_insert_eq.
      * by apply (Hreg i).
Qed.

(** X10.  Creating systems of pairwise distinct classes on an orchestrator
    that has none of them returns pairwise distinct non-null handles, and
    each class ends up registered with the very handle returned for it, an
    object of that class. *)
Theorem create_systems_registers_each (Ts : list poly_typeid) w :
  NoDup Ts ->
  Forall (fun T => ECS.systems (ECS.orch w) !! T = None) Ts ->
  let ptrs := (create_systems Ts w).1 in
  let w' := (create_systems Ts w).2 in
  length ptrs = length Ts
  /\ NoDup ptrs
  /\ Forall (fun p => p <> ECS.nullptr) ptrs
  /\ (forall (i : nat) T p, Ts !! i = Some T -> ptrs !! i = Some p ->
        ECS.systems (ECS.orch w') !! T = Some p /\ ECS.heap w' !! p = Some T).
Proof.
  intros Hnd Hfree.
  destruct (create_systems_spec Ts w Hnd Hfree) as (Hlen & Hall & Hndp & _ & _ & _ & Hreg).
  cbn. split_and!; try assumption.
  eapply Forall_impl; [exact Hall|]. by intros p [Hp _].
Qed.

(** X11.  On a counter in range, [create_entity] returns the invalid entity
    exactly when the counter is at its maximum; otherwise it returns the
    successor of the counter, and the counter stays in range. *)
Theorem create_entity_invalid_iff_exhausted o :
  0 <= ECS.entity_counter o < ECS.UINT64_MOD ->
  ((ECS.create_entity o).1 = ECS.kInvalidEntity
     <-> ECS.entity_counter o = ECS.UINT64_MOD - 1)
  /\ (ECS.entity_counter o < ECS.UINT64_MOD - 1 ->
      (ECS.create_entity o).1 = ECS.entity_counter o + 1)
  /\ ECS.entity_counter (ECS.create_entity o).2 = (ECS.create_entity o).1
  /\ 0 <= (ECS.create_entity o).1 < ECS.UINT64_MOD.
Proof.
  intros Hr. cbn. unfold ECS.kInvalidEntity.
  destruct (Z.eq_dec (ECS.entity_counter o) (ECS.UINT64_MOD - 1)) as [He|Hne].
  - rewrite He. replace (ECS.UINT64_MOD - 1 + 1) with (1 * ECS.UINT64_MOD) by lia.
    rewrite Z.mod_mul by (unfold ECS.UINT64_MOD; lia).
    unfold ECS.UINT64_MOD. repeat split; lia.
  - rewrite Z.mod_small by lia. repeat split; lia.
Qed.

(** X12.  Routes of distinct component types are independent: declaring
    one leaves the other, the registry and the counter alone, and the two
    declarations commute. *)
Theorem routes_are_independent (S S' C C' : poly_typeid) o :
  C <> C' ->
  ECS.system_type_map (ECS.register_system_for_type S C o) !! C'
    = ECS.system_type_map o !! C'
  /\ ECS.systems (ECS.register_system_for_type S C o) = ECS.systems o
  /\ ECS.entity_counter (ECS.register_system_for_type S C o) = ECS.entity_counter o
  /\ ECS.register_system_for_type S C (ECS.register_system_for_type S' C' o)
     = ECS.register_system_for_type S' C' (ECS.register_system_for_type S C o).
Proof.
  intros Hne. cbn. repeat split.
  - by apply lookup_insert_ne.
  - unfold ECS.register_system_for_type. cbn. f_equal. by apply insert_insert_ne.
Qed.

(** X13.  Registrations of distinct system types commute, whatever the
    pointers (null included) and whatever is registered already. *)
Theorem add_system_commutes (t t' : poly_typeid) (s s' : N) o :
  t <> t' ->
  ECS.add_system t s (ECS.add_system t' s' o)
  = ECS.add_system t' s' (ECS.add_system t s o).
Proof.
  intros Hne.
  destruct (N.eq_dec s ECS.nullptr) as [->|Hs]; [by rewrite !add_system_null|].
  destruct (N.eq_dec s' ECS.nullptr) as [->|Hs']; [by rewrite !add_system_null|].
  destruct (ECS.systems o !! t) as [a|] eqn:Ht, (ECS.systems o !! t') as [b|] eqn:Ht'.
  - rewrite (add_system_registered t' s' o), (add_system_registered t s o) by eauto.
    by rewrite (add_system_registered t' s' o) by eauto.
  - rewrite (add_system_registered t s o) by eauto.
    rewrite (add_system_fresh t' s' o) by assumption.
    apply add_system_registered. cbn. rewrite lookup_insert_ne by done. eauto.
  - rewrite (add_system_registered t' s' o) by eauto.
    rewrite (add_system_fresh t s o) by assumption.
    symmetry. apply add_system_registered. cbn. rewrite lookup_insert_ne by done. eauto.
  - rewrite (add_system_fresh t' s' o), (add_system_fresh t s o) by assumption.
    rewrite !add_system_fresh by (try assumption; cbn; by rewrite lookup_insert_ne).
    cbn. f_equal. by apply insert_insert_ne.
Qed.

End orchestrator_calls.

Lemma registered_system_is_permanent_witness :
  let w := ECS.perform (ECS.AddSystem 7%N 5%N) (ECS.new_world (poly_typeid := N)) in
  let cs := [ECS.AddSystem 7%N 9%N; ECS.CreateSystem 7%N; ECS.CreateEntity] in
  ECS.systems (ECS.orch w) !! 7%N = Some 5%N
  /\ ECS.systems (ECS.orch (ECS.perform_all cs w)) !! 7%N = Some 5%N.
Proof.
  split; [vm_compute; reflexivity|].
  apply (registered_system_is_permanent
           [ECS.AddSystem 7%N 9%N; ECS.CreateSystem 7%N; ECS.CreateEntity]
           (ECS.perform (ECS.AddSystem 7%N 5%N) (ECS.new_world (poly_typeid := N)))
           7%N 5%N).
  vm_compute. reflexivity.
Defined.

Lemma registry_well_typed_without_add_system_witness :
  registry_well_typed
    (ECS.perform_all
       [ECS.CreateSystem 7%N; ECS.CreateEntity; ECS.CreateSystem 7%N;
        ECS.RegisterSystemForType 7%N 3%N; ECS.CreateSystem 8%N]
       (ECS.new_world (poly_typeid := N))).
Proof.
  apply (registry_well_typed_without_add_system
           [ECS.CreateSystem 7%N; ECS.CreateEntity; ECS.CreateSystem 7%N;
            ECS.RegisterSystemForType 7%N 3%N; ECS.CreateSystem 8%N]).
  repeat constructor.
Defined.

Lemma create_systems_registers_each_witness :
  let w := ECS.new_world (poly_typeid := N) in
  let ptrs := (create_systems [1%N; 2%N; 3%N; 4%N] w).1 in
  let w' := (create_systems [1%N; 2%N; 3%N; 4%N] w).2 in
  length ptrs = 4%nat
  /\ NoDup ptrs
  /\ Forall (fun p => p <> ECS.nullptr) ptrs
  /\ (forall (i : nat) T p, [1%N; 2%N; 3%N; 4%N] !! i = Some T -> ptrs !! i = Some p ->
        ECS.systems (ECS.orch w') !! T = Some p /\ ECS.heap w' !! p = Some T).
Proof.
  apply (create_systems_registers_each [1%N; 2%N; 3%N; 4%N]
           (ECS.new_world (poly_typeid := N))).
  - apply (bool_decide_unpack _). vm_compute. exact I.
  - repeat constructor.
Defined.

Lemma create_entity_invalid_iff_exhausted_witness :
  let o := ECS.mk_orchestrator (poly_typeid := N) ∅ ∅ (ECS.UINT64_MOD - 1) in
  ((ECS.create_entity o).1 = ECS.kInvalidEntity
     <-> ECS.entity_counter o = ECS.UINT64_MOD - 1)
  /\ (ECS.entity_counter o < ECS.UINT64_MOD - 1 ->
      (ECS.create_entity o).1 = ECS.entity_counter o + 1)
  /\ ECS.entity_counter (ECS.create_entity o).2 = (ECS.create_entity o).1
  /\ 0 <= (ECS.create_entity o).1 < ECS.UINT64_MOD.
Proof.
  apply (create_entity_invalid_iff_exhausted
           (ECS.mk_orchestrator (poly_typeid := N) ∅ ∅ (ECS.UINT64_MOD - 1))).
  cbn. unfold ECS.UINT64_MOD. lia.
Defined.

Lemma routes_are_independent_witness :
  let o := ECS.new_orchestrator (poly_typeid := N) in
  ECS.system_type_map (ECS.register_system_for_type 1%N 5%N o) !! 6%N
    = ECS.system_type_map o !! 6%N
  /\ ECS.systems (ECS.register_system_for_type 1%N 5%N o) = ECS.systems o
  /\ ECS.entity_counter (ECS.register_system_for_type 1%N 5%N o) = ECS.entity_counter o
  /\ ECS.register_system_for_type 1%N 5%N (ECS.register_system_for_type 2%N 6%N o)
     = ECS.register_system_for_type 2%N 6%N (ECS.register_system_for_type 1%N 5%N o).
Proof.
  apply (routes_are_independent 1%N 2%N 5%N 6%N (ECS.new_orchestrator (poly_typeid := N))).
  discriminate.
Defined.

Lemma add_system_commutes_witness :
  let o := ECS.new_orchestrator (poly_typeid := N) in
  ECS.add_system 7%N 1%N (ECS.add_system 8%N 2%N o)
  = ECS.add_system 8%N 2%N (ECS.add_system 7%N 1%N o).
Proof.
  apply (add_system_commutes 7%N 8%N 1%N 2%N (ECS.new_orchestrator (poly_typeid := N))).
  discriminate.
Defined.

(** ** The particle step: results, faults and sizes *)

Lemma run_body_app {S : Type} (body : Z -> S -> result S) (ks1 ks2 : list Z) (s : S) :
  Particles.run_body body (ks1 ++ ks2) s
  = (s' ← Particles.run_body body ks1 s; Particles.run_body body ks2 s').
Proof.
  revert s. induction ks1 as [|k ks1 IH]; intros s; [reflexivity|].
  cbn [app Particles.run_body]. destruct (body k s) as [s1|f]; cbn; [apply IH|reflexivity].
Qed.

(** A loop over [0 .. n-1] whose [j]-th pass takes [I j] to [I (j+1)]. *)
Lemma run_body_counted {S : Type} (I : nat -> S -> Prop) (body : Z -> S -> result S)
    (n : nat) (s : S) :
  I 0%nat s ->
  (forall (j : nat) s, (j < n)%nat -> I j s ->
     exists s', body (Z.of_nat j) s = Ok s' /\ I (Datatypes.S j) s') ->
  exists s', Particles.run_body body (seqZ 0 (Z.of_nat n)) s = Ok s' /\ I n s'.
Proof.
  intros H0 Hstep. induction n as [|n IH].
  - exists s. split; [reflexivity|exact H0].
  - destruct IH as (s1 & Hrun & HI); [intros j s' Hj; apply Hstep; lia|].
    destruct (Hstep n s1 ltac:(lia) HI) as (s2 & Hb & HI2).
    exists s2. split; [|exact HI2].
    rewrite seqZ_S, run_body_app, Hrun. cbn. rewrite Z.add_0_l, Hb. reflexivity.
Qed.

(** What a loop that returns leaves true, given what each pass that
    returns leaves true. *)
Lemma run_body_preserves {S : Type} (I : S -> Prop) (body : Z -> S -> result S)
    (ks : list Z) (s s' : S) :
  (forall k s s', body k s = Ok s' -> I s -> I s') ->
  Particles.run_body body ks s = Ok s' -> I s -> I s'.
Proof.
  intros Hbody. revert s. induction ks as [|k ks IH]; intros s Hrun Hs.
  - cbn in Hrun. by injection Hrun as <-.
  - cbn [Particles.run_body] in Hrun. destruct (body k s) as [s1|f] eqn:Hk; [|discriminate].
    cbn in Hrun. eapply IH; [exact Hrun|]. eapply Hbody; eauto.
Qed.

Lemma int_for_preserves {S : Type} (I : S -> Prop) (bound : Z)
    (body : Z -> S -> result S) (s s' : S) :
  (forall k s s', body k s = Ok s' -> I s -> I s') ->
  Particles.int_for bound body s = Ok s' -> I s -> I s'.
Proof.
  intros Hbody Hrun Hs. unfold Particles.int_for in Hrun.
  destruct (Particles.run_body body _ s) as [s1|f] eqn:Hrb; [|discriminate].
  cbn in Hrun. destruct (CInt.INT_MAX <? bound); [discriminate|].
  injection Hrun as <-. eapply run_body_preserves; eauto.
Qed.

Lemma at_index_Ok {A : Type} (v : list A) (i : Z) (a : A) :
  Particles.at_index v i = Ok a <-> 0 <= i /\ v !! Z.to_nat i = Some a.
Proof.
  unfold Particles.at_index.
  destruct (Z.leb_spec 0 i), (Z.ltb_spec i (Z.of_nat (length v))); cbn.
  - destruct (v !! Z.to_nat i) eqn:Hl.
    + split; [intros [= ->]; auto|intros [_ [= ->]]; reflexivity].
    + split; [discriminate|intros [_ [=]]].
  - split; [discriminate|]. intros [_ Hl]. apply lookup_lt_Some in Hl. lia.
  - split; [discriminate|lia].
  - split; [discriminate|lia].
Qed.

Lemma at_index_in_range {A : Type} (v : list A) (i : nat) (a : A) :
  v !! i = Some a -> Particles.at_index v (Z.of_nat i) = Ok a.
Proof. intros Hl. apply at_index_Ok. rewrite Nat2Z.id. split; [lia|exact Hl]. Qed.

Lemma at_index_out_of_range {A : Type} (v : list A) (i : Z) :
  Z.of_nat (length v) <= i -> Particles.at_index v i = Fault OutOfBounds.
Proof.
  intros Hi. unfold Particles.at_index.
  destruct (Z.ltb_spec i (Z.of_nat (length v))); [lia|]. by rewrite andb_false_r.
Qed.

Lemma set_index_in_range {A : Type} (v : list A) (i : nat) (a : A) :
  (i < length v)%nat -> Particles.set_index v (Z.of_nat i) a = Ok (<[i := a]> v).
Proof.
  intros Hi. unfold Particles.set_index.
  destruct (Z.leb_spec 0 (Z.of_nat i)); [|lia].
  destruct (Z.ltb_spec (Z.of_nat i) (Z.of_nat (length v))); [|lia].
  cbn. by rewrite Nat2Z.id.
Qed.

Lemma set_index_Ok {A : Type} (v v' : list A) (i : Z) (a : A) :
  Particles.set_index v i a = Ok v' -> length v' = length v.
Proof.
  unfold Particles.set_index. destruct (_ && _); [|discriminate].
  intros [= <-]. apply length_insert.
Qed.

Section particle_results.
Context {float : Type}.
Context (fmul fsub : float -> float -> float) (f_0_001 f_0_97 : float).
Context (default_instance : Particles.instance_data float).

Local Abbreviation trail_step := (Particles.trail_step fmul fsub f_0_001 f_0_97).
Local Abbreviation update := (Particles.update fmul fsub f_0_001 f_0_97 default_instance).
Local Abbreviation decay := (trail_decay fmul fsub f_0_001 f_0_97).

Implicit Type ps : list (Particles.particle float).
Implicit Type ins : list (Particles.instance_data float).

(** Lines 117-119 alone: the pass with [trail_idx = 0]. *)
Lemma trail_step_first (i : nat) ps ins (p : Particles.particle float) :
  ps !! i = Some p -> (i < length ins)%nat ->
  trail_step (Z.of_nat i) 0 (ps, ins) = Ok (ps, <[i := instance_of p]> ins).
Proof.
  intros Hp Hi. unfold Particles.trail_step. cbn [Z.leb Z.compare mbind result_bind].
  destruct (lookup_lt_is_Some_2 ins i Hi) as [old Hold].
  rewrite (at_index_in_range ps i p Hp). cbn [mbind result_bind].
  rewrite (at_index_in_range ins i old Hold). cbn [mbind result_bind].
  rewrite set_index_in_range by exact Hi. cbn [mbind result_bind].
  rewrite (at_index_in_range (<[i := _]> ins) i _ (list_lookup_insert_eq _ _ _ Hi)).
  cbn [mbind result_bind].
  rewrite set_index_in_range by (by rewrite length_insert). cbn [mbind result_bind].
  by rewrite list_insert_insert_eq.
Qed.

(** Lines 111-119: a pass with [trail_idx >= 1]. *)
Lemma trail_step_trail (i t : nat) ps ins (q p : Particles.particle float) :
  (1 <= t)%nat -> ps !! t = Some q -> <[t := decay q]> ps !! i = Some p ->
  (i < length ins)%nat ->
  trail_step (Z.of_nat i) (Z.of_nat t) (ps, ins)
  = Ok (<[t := decay q]> ps, <[i := instance_of p]> ins).
Proof.
  intros Ht Hq Hp Hi. unfold Particles.trail_step.
  destruct (Z.leb_spec 1 (Z.of_nat t)); [|lia].
  assert (t < length ps)%nat as Htl by (by eapply lookup_lt_Some).
  rewrite (at_index_in_range ps t q Hq). cbn [mbind result_bind].
  rewrite set_index_in_range by exact Htl. cbn [mbind result_bind].
  rewrite (at_index_in_range (<[t := _]> ps) t _ (list_lookup_insert_eq _ _ _ Htl)).
  cbn [mbind result_bind].
  rewrite set_index_in_range by (by rewrite length_insert). cbn [mbind result_bind].
  rewrite list_insert_insert_eq.
  change (Particles.mk_particle _ _ _ _ _) with (decay q).
  destruct (lookup_lt_is_Some_2 ins i Hi) as [old Hold].
  rewrite (at_index_in_range _ i p Hp). cbn [mbind result_bind].
  rewrite (at_index_in_range ins i old Hold). cbn [mbind result_bind].
  rewrite set_index_in_range by exact Hi. cbn [mbind result_bind].
  rewrite (at_index_in_range (<[i := _]> ins) i _ (list_lookup_insert_eq _ _ _ Hi)).
  cbn [mbind result_bind].
  rewrite set_index_in_range by (by rewrite length_insert). cbn [mbind result_bind].
  by rewrite list_insert_insert_eq.
Qed.

Lemma trail_step_succeeds (i t : nat) ps ins :
  (t < length ps)%nat -> (i < length ps)%nat -> (i < length ins)%nat ->
  exists ps' ins',
    trail_step (Z.of_nat i) (Z.of_nat t) (ps, ins) = Ok (ps', ins')
    /\ length ps' = length ps /\ length ins' = length ins.
Proof.
  intros Ht Hi Hii. destruct t as [|t].
  - destruct (lookup_lt_is_Some_2 ps i Hi) as [p Hp].
    eexists _, _. split; [by apply trail_step_first|].
    by rewrite length_insert.
  - destruct (lookup_lt_is_Some_2 ps (S t) Ht) as [q Hq].
    destruct (lookup_lt_is_Some_2 (<[S t := decay q]> ps) i) as [p Hp];
      [by rewrite length_insert|].
    eexists _, _. split; [apply (trail_step_trail i (S t) ps ins q p); auto; lia|].
    by rewrite !length_insert.
Qed.

Lemma trail_step_keeps_sizes (i t : Z) ps ins ps' ins' :
  trail_step i t (ps, ins) = Ok (ps', ins') ->
  length ps' = length ps /\ length ins' = length ins.
Proof.
  unfold Particles.trail_step. intros Hrun.
  assert (exists ps2, length ps2 = length ps /\
    (pi ← Particles.at_index ps2 i; old ← Particles.at_index ins i;
     ins1 ← Particles.set_index ins i
              {| Particles.position_size := (Particles.position pi, Particles.size pi);
                 Particles.instance_color := Particles.instance_color old |};
     pj ← Particles.at_index ps2 i; old1 ← Particles.at_index ins1 i;
     ins2 ← Particles.set_index ins1 i
              {| Particles.position_size := Particles.position_size old1;
                 Particles.instance_color := Particles.color pj |};
     Ok (ps2, ins2)) = Ok (ps', ins')) as (ps2 & Hl2 & Hrest).
  { destruct (1 <=? t).
    - destruct (Particles.at_index ps t) as [p|] eqn:E1; [|discriminate].
      cbn [mbind result_bind] in Hrun.
      destruct (Particles.set_index ps t _) as [ps1|] eqn:E2; [|discriminate].
      cbn [mbind result_bind] in Hrun.
      destruct (Particles.at_index ps1 t) as [p'|] eqn:E3; [|discriminate].
      cbn [mbind result_bind] in Hrun.
      destruct (Particles.set_index ps1 t _) as [ps2|] eqn:E4; [|discriminate].
      cbn [mbind result_bind] in Hrun.
      exists ps2. split; [|exact Hrun].
      apply set_index_Ok in E2, E4. congruence.
    - exists ps. split; [reflexivity|exact Hrun]. }
  clear Hrun.
  destruct (Particles.at_index ps2 i) as [pi|]; [|discriminate].
  cbn [mbind result_bind] in Hrest.
  destruct (Particles.at_index ins i) as [old|]; [|discriminate].
  cbn [mbind result_bind] in Hrest.
  destruct (Particles.set_index ins i _) as [ins1|] eqn:E5; [|discriminate].
  cbn [mbind result_bind] in Hrest.
  destruct (Particles.at_index ins1 i) as [old1|]; [|discriminate].
  cbn [mbind result_bind] in Hrest.
  destruct (Particles.set_index ins1 i _) as [ins2|] eqn:E6; [|discriminate].
  cbn [mbind result_bind] in Hrest. injection Hrest as <- <-.
  apply set_index_Ok in E5, E6. split; congruence.
Qed.

(** X14.  Whatever the trail count, an [update] that returns keeps the
    number of particles and the trail count, and keeps the number of
    instances once there are any; [instances] is sized, to the number of
    particles, only when it was empty. *)
Theorem update_keeps_sizes (s s' : Particles.gl_particle_system float) :
  update s = Ok s' ->
  length (Particles.particles s') = length (Particles.particles s)
  /\ Particles.trail s' = Particles.trail s
  /\ length (Particles.instances s')
     = if decide (Particles.instances s = [])
       then length (Particles.particles s)
       else length (Particles.instances s).
Proof.
  unfold Particles.update. intros Hrun.
  destruct (Z.eqb_spec (Z.of_nat (length (Particles.particles s))) 0) as [Hz|Hnz].
  { injection Hrun as <-. split_and!; try reflexivity.
    case_decide as Hi; [|reflexivity]. rewrite Hi. cbn. lia. }
  set (ins0 := if Z.of_nat (length (Particles.instances s)) =? 0
               then replicate (length (Particles.particles s)) default_instance
               else Particles.instances s) in *.
  destruct (Particles.int_for _ _ _) as [[ps' ins']|f] eqn:Hloop; [|discriminate].
  cbn in Hrun. injection Hrun as <-. cbn.
  set (I := fun st : list (Particles.particle float) * list (Particles.instance_data float) =>
              length st.1 = length (Particles.particles s) /\ length st.2 = length ins0).
  assert (I (ps', ins')) as [Hps Hins].
  { eapply int_for_preserves; [|exact Hloop|by split].
    intros i st st' Hinner Hst.
    eapply int_for_preserves; [|exact Hinner|exact Hst].
    intros t [ps1 ins1] [ps2 ins2] Hstep [H1 H2].
    apply trail_step_keeps_sizes in Hstep as [H3 H4]. split; cbn in *; congruence. }
  cbn in Hps, Hins.
  split_and!; [exact Hps|reflexivity|].
  rewrite Hins. subst ins0. case_decide as Hi.
  - rewrite Hi. cbn. apply length_replicate.
  - destruct (Z.eqb_spec (Z.of_nat (length (Particles.instances s))) 0) as [He|]; [|reflexivity].
    destruct (Particles.instances s); [done|cbn in He; lia].
Qed.

Lemma aged_lookup (c : nat -> nat) ps (j : nat) :
  aged decay c ps !! j = (fun p => Nat.iter (c j) decay p) <$> ps !! j.
Proof. unfold aged. by rewrite list_lookup_imap. Qed.

Lemma aged_length (c : nat -> nat) ps : length (aged decay c ps) = length ps.
Proof. apply length_imap. Qed.

Lemma aged_ext (c c' : nat -> nat) ps :
  (forall j, (j < length ps)%nat -> c j = c' j) -> aged decay c ps = aged decay c' ps.
Proof.
  intros Hc. apply list_eq. intros j. rewrite !aged_lookup.
  destruct (ps !! j) as [p|] eqn:Hj; [|reflexivity].
  cbn. rewrite Hc; [reflexivity|by eapply lookup_lt_Some].
Qed.

Lemma aged_none ps : aged decay (fun _ => 0%nat) ps = ps.
Proof.
  apply list_eq. intros j. rewrite aged_lookup. by destruct (ps !! j).
Qed.

(** Ageing the entry at [t] once more. *)
Lemma aged_insert (c : nat -> nat) ps (t : nat) (p : Particles.particle float) :
  ps !! t = Some p ->
  <[t := decay (Nat.iter (c t) decay p)]> (aged decay c ps)
  = aged decay (fun j => if decide (j = t) then S (c t) else c j) ps.
Proof.
  intros Hp. apply list_eq. intros j. rewrite aged_lookup.
  destruct (decide (j = t)) as [->|Hne].
  - rewrite list_lookup_insert_eq by (rewrite aged_length; by eapply lookup_lt_Some).
    rewrite Hp. reflexivity.
  - rewrite list_lookup_insert_ne by done. apply aged_lookup.
Qed.

(** *** One pass of the outer loop *)

Section one_pass.
Variables (ps : list (Particles.particle float)) (tr : Z) (i : nat).
Variable (p_i : Particles.particle float).
Hypothesis tr_nonneg : 0 <= tr.
Hypothesis tr_small : tr < Z.of_nat (length ps).
Hypothesis p_i_at : ps !! i = Some p_i.

(** How often index [j] has been aged when pass [i] is about to run step
    [t]. *)
Let cc (t : nat) (j : nat) : nat :=
  if in_trail tr j then (i + if (j <? t)%nat then 1 else 0)%nat else 0%nat.

Lemma trail_pass_step (t : nat) ins :
  (Z.of_nat t <= tr) -> (i < length ins)%nat ->
  trail_step (Z.of_nat i) (Z.of_nat t) (aged decay (cc t) ps, ins)
  = Ok (aged decay (cc (S t)) ps,
        <[i := instance_of (Nat.iter (cc (S t) i) decay p_i)]> ins).
Proof.
  intros Ht Hi. destruct t as [|t].
  - assert (aged decay (cc 1) ps = aged decay (cc 0) ps) as ->.
    { apply aged_ext. intros j _. unfold cc, in_trail.
      destruct (Z.leb_spec 1 (Z.of_nat j)); [|reflexivity].
      destruct (Nat.ltb_spec j 1), (Nat.ltb_spec j 0); try lia; reflexivity. }
    assert (cc 1 i = cc 0 i) as ->.
    { unfold cc, in_trail. destruct (Z.leb_spec 1 (Z.of_nat i)); [|reflexivity].
      destruct (Nat.ltb_spec i 1), (Nat.ltb_spec i 0); try lia; reflexivity. }
    apply trail_step_first; [|exact Hi].
    rewrite aged_lookup, p_i_at. reflexivity.
  - destruct (lookup_lt_is_Some_2 ps (S t) ltac:(lia)) as [q Hq].
    assert (cc (S t) (S t) = i) as Hcount.
    { unfold cc, in_trail. destruct (Z.leb_spec 1 (Z.of_nat (S t))); [|lia].
      destruct (Z.leb_spec (Z.of_nat (S t)) tr); [|lia]. cbn [andb].
      destruct (Nat.ltb_spec (S t) (S t)); lia. }
    assert (<[S t := decay (Nat.iter (cc (S t) (S t)) decay q)]> (aged decay (cc (S t)) ps)
            = aged decay (cc (S (S t))) ps) as Hnext.
    { rewrite (aged_insert _ _ _ _ Hq). apply aged_ext. intros j _.
      case_decide as Hj.
      - subst j. rewrite Hcount. unfold cc, in_trail.
        destruct (Z.leb_spec 1 (Z.of_nat (S t))); [|lia].
        destruct (Z.leb_spec (Z.of_nat (S t)) tr); [|lia]. cbn [andb].
        destruct (Nat.ltb_spec (S t) (S (S t))); lia.
      - unfold cc. destruct (in_trail tr j); [|reflexivity].
        destruct (Nat.ltb_spec j (S t)), (Nat.ltb_spec j (S (S t))); lia. }
    rewrite <- Hnext.
    apply trail_step_trail; [lia| |rewrite Hnext|exact Hi].
    + rewrite aged_lookup, Hq. reflexivity.
    + rewrite aged_lookup, p_i_at. reflexivity.
Qed.

Lemma trail_pass ins :
  Z.of_nat (length ps) <= CInt.INT_MAX -> (i < length ins)%nat ->
  Particles.int_for ((tr + 1) mod Particles.SIZE_MOD)
    (fun trail_idx st => trail_step (Z.of_nat i) trail_idx st)
    (aged decay (fun j => if in_trail tr j then i else 0%nat) ps, ins)
  = Ok (aged decay (fun j => if in_trail tr j then S i else 0%nat) ps,
        <[i := instance_of (Nat.iter (if in_trail tr i then S i else 0%nat) decay p_i)]>
          ins).
Proof.
  intros Hmax Hi.
  assert (aged decay (fun j => if in_trail tr j then i else 0%nat) ps
          = aged decay (cc 0) ps) as ->.
  { apply aged_ext. intros j _. unfold cc.
    destruct (in_trail tr j); [|reflexivity].
    destruct (Nat.ltb_spec j 0); lia. }
  assert ((tr + 1) mod Particles.SIZE_MOD = tr + 1) as ->
    by (apply Z.mod_small; unfold Particles.SIZE_MOD, CInt.INT_MAX in *; lia).
  unfold Particles.int_for. rewrite Z.min_l by lia.
  destruct (run_body_counted
              (fun (t : nat) st =>
                 st.1 = aged decay (cc t) ps
                 /\ st.2 = match t with
                           | O => ins
                           | S _ => <[i := instance_of (Nat.iter (cc t i) decay p_i)]> ins
                           end)
              (fun trail_idx st => trail_step (Z.of_nat i) trail_idx st)
              (Z.to_nat (tr + 1)) (aged decay (cc 0) ps, ins))
    as ([ps' ins'] & Hrun & Hps & Hins).
  - by split.
  - intros t [ps1 ins1] Ht [H1 H2]. cbn in H1, H2. subst ps1.
    eexists. split.
    + apply trail_pass_step; [lia|].
      subst ins1. destruct t; [exact Hi|by rewrite length_insert].
    + split; [reflexivity|]. cbn. subst ins1.
      destruct t; [reflexivity|apply list_insert_insert_eq].
  - rewrite Z2Nat.id in Hrun by lia. rewrite Hrun. cbn [mbind result_bind].
    destruct (Z.ltb_spec CInt.INT_MAX (tr + 1)); [lia|].
    cbn in Hps, Hins. subst ps' ins'.
    assert (forall j, cc (Z.to_nat (tr + 1)) j = if in_trail tr j then S i else 0%nat) as Hcc.
    { intros j. unfold cc, in_trail.
      destruct (Z.leb_spec 1 (Z.of_nat j)); [|reflexivity].
      destruct (Z.leb_spec (Z.of_nat j) tr); [|reflexivity]. cbn [andb].
      destruct (Nat.ltb_spec j (Z.to_nat (tr + 1))); lia. }
    destruct (Z.to_nat (tr + 1)) as [|T] eqn:HT; [lia|].
    f_equal. f_equal.
    + apply aged_ext. intros j _. apply Hcc.
    + by rewrite Hcc.
Qed.

End one_pass.

Lemma insert_after_prefix {A : Type} (done rest : list A) (x : A) (i : nat) :
  length done = i -> (i < length rest)%nat ->
  <[i := x]> (done ++ drop i rest) = (done ++ [x]) ++ drop (S i) rest.
Proof.
  intros Hd Hi. destruct (lookup_lt_is_Some_2 rest i Hi) as [y Hy].
  rewrite insert_app_r_alt by lia. rewrite Hd, Nat.sub_diag.
  rewrite (drop_S rest y i Hy). cbn. by rewrite <- app_assoc.
Qed.

(** The state [update] returns when no access leaves its vector. *)
Lemma update_passes (s : Particles.gl_particle_system float) :
  Particles.particles s <> [] ->
  0 <= Particles.trail s < Z.of_nat (length (Particles.particles s)) ->
  Z.of_nat (length (Particles.particles s)) <= CInt.INT_MAX ->
  Particles.instances s = []
  \/ (length (Particles.particles s) <= length (Particles.instances s))%nat ->
  update s
  = Ok {| Particles.particles :=
            aged decay
              (fun j => if in_trail (Particles.trail s) j
                        then length (Particles.particles s) else 0%nat)
              (Particles.particles s);
          Particles.instances :=
            imap (fun i p =>
                    instance_of
                      (Nat.iter (if in_trail (Particles.trail s) i then S i else 0%nat)
                         decay p))
              (Particles.particles s)
            ++ drop (length (Particles.particles s)) (Particles.instances s);
          Particles.trail := Particles.trail s |}.
Proof.
  intros Hne [Htr0 Htr] Hmax Hins. unfold Particles.update.
  set (ps := Particles.particles s) in *. set (tr := Particles.trail s) in *.
  destruct (Z.eqb_spec (Z.of_nat (length ps)) 0) as [Hz|_].
  { destruct ps; [done|cbn in Hz; lia]. }
  set (ins0 := if Z.of_nat (length (Particles.instances s)) =? 0
               then replicate (length ps) default_instance
               else Particles.instances s).
  assert ((length ps <= length ins0)%nat
          /\ drop (length ps) ins0 = drop (length ps) (Particles.instances s))
    as [Hlen0 Hdrop].
  { subst ins0.
    destruct (Z.eqb_spec (Z.of_nat (length (Particles.instances s))) 0) as [He|He].
    - rewrite length_replicate. split; [lia|].
      rewrite !drop_ge; [reflexivity|lia|rewrite length_replicate; lia].
    - destruct Hins as [Hnil|Hle]; [rewrite Hnil in He; cbn in He; lia|by split]. }
  set (g := fun (i : nat) (p : Particles.particle float) =>
              instance_of (Nat.iter (if in_trail tr i then S i else 0%nat) decay p)).
  unfold Particles.int_for at 1. rewrite Z.min_l by lia.
  destruct (run_body_counted
              (fun (i : nat) (st : list (Particles.particle float)
                                   * list (Particles.instance_data float)) =>
                 st.1 = aged decay (fun j => if in_trail tr j then i else 0%nat) ps
                 /\ st.2 = imap g (take i ps) ++ drop i ins0)
              (fun i st =>
                 Particles.int_for ((tr + 1) mod Particles.SIZE_MOD)
                   (fun trail_idx st => trail_step i trail_idx st) st)
              (length ps) (ps, ins0))
    as ([ps' ins'] & Hrun & Hps & Hins').
  - cbn. split; [|reflexivity]. symmetry.
    rewrite <- (aged_none ps) at 2. apply aged_ext. intros j _.
    by destruct (in_trail tr j).
  - intros i [ps1 ins1] Hi [H1 H2]. cbn in H1, H2. subst ps1.
    destruct (lookup_lt_is_Some_2 ps i Hi) as [p_i Hp].
    assert (length (imap g (take i ps)) = i) as Hdone
      by (rewrite length_imap, length_take_le; lia).
    eexists. split.
    + apply (trail_pass ps tr i p_i); try assumption.
      subst ins1. rewrite length_app, Hdone, length_drop. lia.
    + cbn. split; [reflexivity|]. subst ins1.
      rewrite insert_after_prefix by (try assumption; lia).
      f_equal. rewrite (take_S_r ps i p_i Hp), imap_app. cbn.
      rewrite length_take_le by lia. by rewrite Nat.add_0_r.
  - rewrite Hrun. cbn [mbind result_bind].
    destruct (Z.ltb_spec CInt.INT_MAX (Z.of_nat (length ps))); [lia|].
    cbn in Hps, Hins'. subst ps' ins'. cbn.
    by rewrite take_ge, Hdrop by lia.
Qed.

(** X15.  With a trail count below the number of particles and
    [instances] empty or at least as long as [particles], [update]
    returns.  Every pass of the outer loop ages the particles at indices
    [1 .. trail] once, so in the end each of them has been aged once per
    particle of the system; instance [i] is written from particle [i] as it
    is at the end of pass [i]; instances beyond the particles keep their
    old content. *)
Theorem update_with_trail (s : Particles.gl_particle_system float) :
  Particles.particles s <> [] ->
  0 <= Particles.trail s < Z.of_nat (length (Particles.particles s)) ->
  Z.of_nat (length (Particles.particles s)) <= CInt.INT_MAX ->
  Particles.instances s = []
  \/ (length (Particles.particles s) <= length (Particles.instances s))%nat ->
  update s
  = Ok {| Particles.particles :=
            aged decay
              (fun j => if in_trail (Particles.trail s) j
                        then length (Particles.particles s) else 0%nat)
              (Particles.particles s);
          Particles.instances :=
            imap (fun i p =>
                    instance_of
                      (Nat.iter (if in_trail (Particles.trail s) i then S i else 0%nat)
                         decay p))
              (Particles.particles s)
            ++ drop (length (Particles.particles s)) (Particles.instances s);
          Particles.trail := Particles.trail s |}.
Proof. apply update_passes. Qed.

(** X16.  Without trail, with at most [INT_MAX] particles and with
    [instances] empty or at least as long as [particles], [update] returns
    and is the plain copy: the particles are left as they are and instance
    [i] holds position, size and colour of particle [i]; instances beyond
    the particles are left over from earlier.  (A non-empty [instances]
    shorter than [particles] is the case of the fault shown next.) *)
Theorem update_without_trail (s : Particles.gl_particle_system float) :
  Particles.trail s = 0 ->
  Z.of_nat (length (Particles.particles s)) <= CInt.INT_MAX ->
  Particles.instances s = []
  \/ (length (Particles.particles s) <= length (Particles.instances s))%nat ->
  update s
  = Ok {| Particles.particles := Particles.particles s;
          Particles.instances :=
            (instance_of <$> Particles.particles s)
            ++ drop (length (Particles.particles s)) (Particles.instances s);
          Particles.trail := 0 |}.
Proof.
  intros Htr Hmax Hins.
  destruct (decide (Particles.particles s = [])) as [Hnil|Hne].
  { destruct s as [ps ins tr]. cbn in Htr, Hnil |- *. subst ps tr.
    unfold Particles.update. cbn. by rewrite drop_0. }
  assert (Particles.particles s <> [] -> (0 < length (Particles.particles s))%nat) as Hpos
    by (destruct (Particles.particles s); [done|cbn; lia]).
  rewrite update_passes by (try assumption; rewrite Htr; specialize (Hpos Hne); lia).
  rewrite Htr. f_equal. f_equal.
  - rewrite <- (aged_none (Particles.particles s)) at 2. apply aged_ext.
    intros j _. unfold in_trail.
    destruct (Z.leb_spec 1 (Z.of_nat j)), (Z.leb_spec (Z.of_nat j) 0); try lia; reflexivity.
  - f_equal. rewrite <- imap_const. apply imap_ext. intros j p _.
    unfold in_trail.
    destruct (Z.leb_spec 1 (Z.of_nat j)), (Z.leb_spec (Z.of_nat j) 0); try lia; reflexivity.
Qed.

Lemma run_body_fault_at {S : Type} (body : Z -> S -> result S)
    (ks1 ks2 : list Z) (k : Z) (s s1 : S) (f : fault) :
  Particles.run_body body ks1 s = Ok s1 -> body k s1 = Fault f ->
  Particles.run_body body (ks1 ++ k :: ks2) s = Fault f.
Proof.
  intros H1 Hk. rewrite run_body_app, H1. cbn. by rewrite Hk.
Qed.

Lemma int_for_fault_at {S : Type} (bound : Z) (body : Z -> S -> result S)
    (k : nat) (s s1 : S) (f : fault) :
  Z.of_nat k < bound -> Z.of_nat k <= CInt.INT_MAX ->
  Particles.run_body body (seqZ 0 (Z.of_nat k)) s = Ok s1 ->
  body (Z.of_nat k) s1 = Fault f ->
  Particles.int_for bound body s = Fault f.
Proof.
  intros Hk Hmax Hrun Hbody. unfold Particles.int_for.
  replace (Z.min bound (CInt.INT_MAX + 1))
    with (Z.of_nat k + (Z.min bound (CInt.INT_MAX + 1) - Z.of_nat k)) by lia.
  rewrite seqZ_app by lia. rewrite (seqZ_cons (0 + Z.of_nat k)) by lia.
  rewrite Z.add_0_l. by rewrite (run_body_fault_at _ _ _ _ _ _ _ Hrun Hbody).
Qed.

(** X17.  Once [instances] has been sized, it is not resized: with more
    particles than instances the pass for the first particle without an
    instance writes past the end of [instances]. *)
Theorem update_faults_on_short_instances (s : Particles.gl_particle_system float) :
  Particles.instances s <> [] ->
  (length (Particles.instances s) < length (Particles.particles s))%nat ->
  0 <= Particles.trail s < Z.of_nat (length (Particles.particles s)) ->
  Z.of_nat (length (Particles.particles s)) <= CInt.INT_MAX ->
  update s = Fault OutOfBounds.
Proof.
  intros Hne Hshort [Htr0 Htr] Hmax. unfold Particles.update.
  set (ps := Particles.particles s) in *. set (tr := Particles.trail s) in *.
  set (ins := Particles.instances s) in *.
  destruct (Z.eqb_spec (Z.of_nat (length ps)) 0) as [Hz|_]; [lia|].
  destruct (Z.eqb_spec (Z.of_nat (length ins)) 0) as [Hz|_].
  { destruct ins; [done|cbn in Hz; lia]. }
  destruct (run_body_counted
              (fun (i : nat) (st : list (Particles.particle float)
                                   * list (Particles.instance_data float)) =>
                 st.1 = aged decay (fun j => if in_trail tr j then i else 0%nat) ps
                 /\ length st.2 = length ins)
              (fun i st =>
                 Particles.int_for ((tr + 1) mod Particles.SIZE_MOD)
                   (fun trail_idx st => trail_step i trail_idx st) st)
              (length ins) (ps, ins))
    as ([ps' ins'] & Hrun & Hps & Hins').
  - cbn. split; [|reflexivity]. symmetry.
    rewrite <- (aged_none ps) at 2. apply aged_ext. intros j _.
    by destruct (in_trail tr j).
  - intros i [ps1 ins1] Hi [H1 H2]. cbn in H1, H2. subst ps1.
    destruct (lookup_lt_is_Some_2 ps i ltac:(lia)) as [p_i Hp].
    eexists. split.
    + apply (trail_pass ps tr i p_i); try assumption. lia.
    + cbn. split; [reflexivity|]. by rewrite length_insert.
  - cbn in Hps, Hins'. subst ps'.
    assert (Particles.int_for
              (Z.of_nat (length ps))
              (fun i st =>
                 Particles.int_for ((tr + 1) mod Particles.SIZE_MOD)
                   (fun trail_idx st => trail_step i trail_idx st) st)
              (ps, ins) = Fault OutOfBounds) as ->; [|reflexivity].
    eapply (int_for_fault_at _ _ (length ins)); [lia|lia|exact Hrun|].
    assert ((tr + 1) mod Particles.SIZE_MOD = tr + 1) as ->
      by (apply Z.mod_small; unfold Particles.SIZE_MOD, CInt.INT_MAX in *; lia).
    eapply (int_for_fault_at _ _ 0%nat);
      [lia|unfold CInt.INT_MAX; lia|reflexivity|].
    unfold Particles.trail_step. change (Z.of_nat 0) with 0.
    cbn [Z.leb Z.compare mbind result_bind].
    destruct (lookup_lt_is_Some_2
                (aged decay (fun j => if in_trail tr j then length ins else 0%nat) ps)
                (length ins) ltac:(rewrite aged_length; lia)) as [p Hp].
    rewrite (at_index_in_range _ _ _ Hp). cbn [mbind result_bind].
    rewrite at_index_out_of_range by lia. reflexivity.
Qed.

(** A loop whose body does nothing returns the state it was given. *)
Lemma run_body_skip {S : Type} (body : Z -> S -> result S) (ks : list Z) (s : S) :
  (forall k s, body k s = Ok s) -> Particles.run_body body ks s = Ok s.
Proof.
  intros Hbody. induction ks as [|k ks IH]; [reflexivity|].
  cbn [Particles.run_body]. rewrite Hbody. exact IH.
Qed.

(** X18.  A system with at least one and at most [INT_MAX] particles and a
    trail count ([size_t]) of at least the number of particles.  If the
    trail count is below [SIZE_MAX = 2^64 - 1], the first pass of the outer
    loop reads [particles[trail_idx]] past the end of [particles], whatever
    [instances] holds.  If the trail count is [SIZE_MAX], the bound
    [trail + 1] of line 108 wraps to [0]: no pass of the inner loop runs
    and [update] returns with the particles as they were and [instances]
    as it was or, if it was empty, sized to the number of particles. *)
Theorem update_faults_on_long_trail (s : Particles.gl_particle_system float) :
  Particles.particles s <> [] ->
  Z.of_nat (length (Particles.particles s)) <= Particles.trail s ->
  Z.of_nat (length (Particles.particles s)) <= CInt.INT_MAX ->
  (Particles.trail s < Particles.SIZE_MOD - 1 -> update s = Fault OutOfBounds)
  /\ (Particles.trail s = Particles.SIZE_MOD - 1 ->
      update s
      = Ok {| Particles.particles := Particles.particles s;
              Particles.instances :=
                if decide (Particles.instances s = [])
                then replicate (length (Particles.particles s)) default_instance
                else Particles.instances s;
              Particles.trail := Particles.trail s |}).
Proof.
  intros Hne Htr Hmax. unfold Particles.update.
  set (ps := Particles.particles s) in *. set (tr := Particles.trail s) in *.
  assert (0 < length ps)%nat as Hpos by (destruct ps; [done|cbn; lia]).
  destruct (Z.eqb_spec (Z.of_nat (length ps)) 0) as [Hz|_]; [lia|].
  set (ins0 := if Z.of_nat (length (Particles.instances s)) =? 0
               then replicate (length ps) default_instance
               else Particles.instances s).
  assert (0 < length ins0)%nat as Hins0.
  { subst ins0.
    destruct (Z.eqb_spec (Z.of_nat (length (Particles.instances s))) 0) as [He|He].
    - by rewrite length_replicate.
    - lia. }
  split; intros Htrmax.
  - assert (Particles.int_for
              (Z.of_nat (length ps))
              (fun i st =>
                 Particles.int_for ((tr + 1) mod Particles.SIZE_MOD)
                   (fun trail_idx st => trail_step i trail_idx st) st)
              (ps, ins0) = Fault OutOfBounds) as ->; [|reflexivity].
    eapply (int_for_fault_at _ _ 0%nat);
      [lia|unfold CInt.INT_MAX; lia|reflexivity|].
    assert ((tr + 1) mod Particles.SIZE_MOD = tr + 1) as ->
      by (apply Z.mod_small; unfold Particles.SIZE_MOD in *; lia).
    destruct (run_body_counted
                (fun (t : nat) (st : list (Particles.particle float)
                                     * list (Particles.instance_data float)) =>
                   length st.1 = length ps /\ length st.2 = length ins0)
                (fun trail_idx st => trail_step (Z.of_nat 0) trail_idx st)
                (length ps) (ps, ins0))
      as ([ps' ins'] & Hrun & Hps & Hins').
    + by split.
    + intros t [ps1 ins1] Ht [H1 H2]. cbn in H1, H2.
      destruct (trail_step_succeeds 0 t ps1 ins1) as (ps2 & ins2 & Hstep & H3 & H4);
        try lia.
      exists (ps2, ins2). split; [exact Hstep|]. cbn. split; congruence.
    + cbn in Hps, Hins'.
      eapply (int_for_fault_at _ _ (length ps)); [lia|lia|exact Hrun|].
      unfold Particles.trail_step.
      destruct (Z.leb_spec 1 (Z.of_nat (length ps))); [|lia].
      rewrite (at_index_out_of_range ps' (Z.of_nat (length ps))) by (rewrite Hps; lia).
      reflexivity.
  - assert ((tr + 1) mod Particles.SIZE_MOD = 0) as ->
      by (rewrite Htrmax; reflexivity).
    unfold Particles.int_for.
    rewrite run_body_skip by (intros k st; reflexivity).
    cbn [mbind result_bind].
    destruct (Z.ltb_spec CInt.INT_MAX (Z.of_nat (length ps))); [lia|].
    cbn. f_equal. f_equal. subst ins0.
    destruct (Z.eqb_spec (Z.of_nat (length (Particles.instances s))) 0) as [He|He];
      case_decide as Hd; try reflexivity.
    + destruct (Particles.instances s); [done|cbn in He; lia].
    + rewrite Hd in He. done.
Qed.

End particle_results.

(** Runs of the particle step on integer stand-ins for the floats. *)

Lemma update_keeps_sizes_witness :
  let s := Particles.add {| Particles.position := (0, 0, 0); Particles.velocity := (0, 0, 0);
                            Particles.color := (0, 0, 0, 1); Particles.size := 1;
                            Particles.lifeMs := 0 |}
             (1, 2, 3) (4, 5, 6) 7 8 (empty_system 0) in
  let s' := {| Particles.particles := Particles.particles s;
               Particles.instances := [instance_of (Particles.mk_particle (1, 2, 3) (4, 5, 6)
                                                      (0, 0, 0, 1) 7 8)];
               Particles.trail := 0 |} in
  length (Particles.particles s') = length (Particles.particles s)
  /\ Particles.trail s' = Particles.trail s
  /\ length (Particles.instances s')
     = if decide (Particles.instances s = [])
       then length (Particles.particles s)
       else length (Particles.instances s).
Proof.
  apply (update_keeps_sizes Z.mul Z.sub 1 97
           (Particles.mk_instance (0, 0, 0, 0) (0, 0, 0, 0))).
  vm_compute. reflexivity.
Defined.

Lemma update_with_trail_witness :
  let p1 := Particles.mk_particle (1, 2, 3) (4, 5, 6) (0, 0, 0, 1) 7 8 in
  let p2 := Particles.mk_particle (10, 20, 30) (1, 1, 1) (0, 0, 0, 1) 2 8 in
  let s := {| Particles.particles := [p1; p2]; Particles.instances := [];
              Particles.trail := 1 |} in
  Particles.update Z.mul Z.sub 2 3 (Particles.mk_instance (0, 0, 0, 0) (0, 0, 0, 0)) s
  = Ok {| Particles.particles :=
            aged (trail_decay Z.mul Z.sub 2 3)
              (fun j => if in_trail 1 j then 2%nat else 0%nat) [p1; p2];
          Particles.instances :=
            imap (fun i p =>
                    instance_of
                      (Nat.iter (if in_trail 1 i then S i else 0%nat)
                         (trail_decay Z.mul Z.sub 2 3) p))
              [p1; p2]
            ++ [];
          Particles.trail := 1 |}.
Proof.
  apply (update_with_trail Z.mul Z.sub 2 3
           (Particles.mk_instance (0, 0, 0, 0) (0, 0, 0, 0))
           {| Particles.particles :=
                [Particles.mk_particle (1, 2, 3) (4, 5, 6) (0, 0, 0, 1) 7 8;
                 Particles.mk_particle (10, 20, 30) (1, 1, 1) (0, 0, 0, 1) 2 8];
              Particles.instances := []; Particles.trail := 1 |}).
  - discriminate.
  - cbn. lia.
  - cbn. unfold CInt.INT_MAX. lia.
  - left. reflexivity.
Defined.

Lemma update_without_trail_witness :
  let p1 := Particles.mk_particle (1, 2, 3) (4, 5, 6) (0, 0, 0, 1) 7 8 in
  let old := Particles.mk_instance (9, 9, 9, 9) (9, 9, 9, 9) in
  let s := {| Particles.particles := [p1]; Particles.instances := [old; old];
              Particles.trail := 0 |} in
  Particles.update Z.mul Z.sub 2 3 (Particles.mk_instance (0, 0, 0, 0) (0, 0, 0, 0)) s
  = Ok {| Particles.particles := [p1];
          Particles.instances := (instance_of <$> [p1]) ++ drop 1 [old; old];
          Particles.trail := 0 |}.
Proof.
  apply (update_without_trail Z.mul Z.sub 2 3
           (Particles.mk_instance (0, 0, 0, 0) (0, 0, 0, 0))
           {| Particles.particles :=
                [Particles.mk_particle (1, 2, 3) (4, 5, 6) (0, 0, 0, 1) 7 8];
              Particles.instances :=
                [Particles.mk_instance (9, 9, 9, 9) (9, 9, 9, 9);
                 Particles.mk_instance (9, 9, 9, 9) (9, 9, 9, 9)];
              Particles.trail := 0 |}).
  - reflexivity.
  - cbn. unfold CInt.INT_MAX. lia.
  - right. cbn. lia.
Defined.

Lemma update_faults_on_short_instances_witness :
  let p := Particles.mk_particle (1, 2, 3) (4, 5, 6) (0, 0, 0, 1) 7 8 in
  Particles.update Z.mul Z.sub 2 3 (Particles.mk_instance (0, 0, 0, 0) (0, 0, 0, 0))
    {| Particles.particles := [p; p; p];
       Particles.instances := [instance_of p; instance_of p];
       Particles.trail := 1 |}
  = Fault OutOfBounds.
Proof.
  apply (update_faults_on_short_instances Z.mul Z.sub 2 3
           (Particles.mk_instance (0, 0, 0, 0) (0, 0, 0, 0))).
  - discriminate.
  - cbn. lia.
  - cbn. lia.
  - cbn. unfold CInt.INT_MAX. lia.
Defined.

Lemma update_faults_on_long_trail_witness :
  let p := Particles.mk_particle (1, 2, 3) (4, 5, 6) (0, 0, 0, 1) 7 8 in
  let d := Particles.mk_instance (0, 0, 0, 0) (0, 0, 0, 0) in
  Particles.update Z.mul Z.sub 2 3 d
    {| Particles.particles := [p; p]; Particles.instances := []; Particles.trail := 5 |}
  = Fault OutOfBounds
  /\ Particles.update Z.mul Z.sub 2 3 d
       {| Particles.particles := [p; p]; Particles.instances := [];
          Particles.trail := 18446744073709551615 |}
     = Ok {| Particles.particles := [p; p]; Particles.instances := [d; d];
             Particles.trail := 18446744073709551615 |}.
Proof.
  split.
  - apply (update_faults_on_long_trail Z.mul Z.sub 2 3
             (Particles.mk_instance (0, 0, 0, 0) (0, 0, 0, 0))
             {| Particles.particles :=
                  [Particles.mk_particle (1, 2, 3) (4, 5, 6) (0, 0, 0, 1) 7 8;
                   Particles.mk_particle (1, 2, 3) (4, 5, 6) (0, 0, 0, 1) 7 8];
                Particles.instances := []; Particles.trail := 5 |}).
    + discriminate.
    + cbn. lia.
    + cbn. unfold CInt.INT_MAX. lia.
    + cbn. unfold Particles.SIZE_MOD. lia.
  - apply (update_faults_on_long_trail Z.mul Z.sub 2 3
             (Particles.mk_instance (0, 0, 0, 0) (0, 0, 0, 0))
             {| Particles.particles :=
                  [Particles.mk_particle (1, 2, 3) (4, 5, 6) (0, 0, 0, 1) 7 8;
                   Particles.mk_particle (1, 2, 3) (4, 5, 6) (0, 0, 0, 1) 7 8];
                Particles.instances := [];
                Particles.trail := 18446744073709551615 |}).
    + discriminate.
    + cbn. lia.
    + cbn. unfold CInt.INT_MAX. lia.
    + reflexivity.
Defined.

(** ** String utilities *)

Section strings.
Import StringUtils.
Implicit Types s str rest look_for replace_with : list ascii.

Lemma equal_range_prefix a b : equal_range a b = true <-> a `prefix_of` b.
Proof.
  revert b. induction a as [|x a IH]; intros b; cbn.
  - split; [intros _; apply prefix_nil|done].
  - destruct b as [|y b].
    + split; [done|]. intros [k Hk]. discriminate.
    + case_decide as Hxy.
      * subst y. rewrite IH. split; [apply prefix_cons|apply prefix_cons_inv_2].
      * split; [done|]. intros Hp. by apply prefix_cons_inv_1 in Hp.
Qed.

(** X19.  [starts_with] decides whether [search] is a prefix of [str]; in
    particular every string starts with the empty string. *)
Theorem starts_with_prefix str search :
  starts_with str search = true <-> exists rest, str = search ++ rest.
Proof.
  unfold starts_with. rewrite andb_true_iff, equal_range_prefix. split.
  - intros [_ Hp]. exact Hp.
  - intros [rest ->]. split; [|by eexists].
    apply Nat.leb_le. rewrite length_app. lia.
Qed.

(** *** replace_in_string *)

Lemma replace_scan_skip look_for replace_with (a post : list ascii) :
  replace_scan look_for replace_with (a ++ post) (length a)
  = replace_scan look_for replace_with post 0.
Proof. induction a as [|x a IH]; [by destruct post|exact IH]. Qed.

Lemma find_in_None look_for replace_with rest (pos : nat) :
  find_in look_for rest pos = None ->
  replace_scan look_for replace_with rest 0 = (rest, 0%nat).
Proof.
  revert pos. induction rest as [|c rest IH]; intros pos Hf; [reflexivity|].
  cbn [find_in] in Hf. cbn [replace_scan]. unfold starts_with.
  destruct (_ && _); [discriminate|].
  by rewrite (IH _ Hf).
Qed.

Lemma find_in_Some look_for replace_with rest (pos p : nat) :
  look_for <> [] -> find_in look_for rest pos = Some p ->
  exists pre post,
    rest = pre ++ look_for ++ post
    /\ p = (pos + length pre)%nat
    /\ replace_scan look_for replace_with rest 0
       = (pre ++ replace_with ++ (replace_scan look_for replace_with post 0).1,
          S (replace_scan look_for replace_with post 0).2).
Proof.
  intros Hne. revert pos. induction rest as [|c rest IH]; intros pos Hf.
  - cbn in Hf. destruct look_for; [done|]. discriminate.
  - cbn [find_in] in Hf. cbn [replace_scan]. unfold starts_with.
    destruct (_ && _) eqn:Htest.
    + injection Hf as <-. apply andb_true_iff in Htest as [_ Hp].
      apply equal_range_prefix in Hp as [post Hpost].
      exists [], post. split; [exact Hpost|]. split; [cbn; lia|].
      destruct look_for as [|x lf']; [done|].
      cbn in Hpost. injection Hpost as -> ->.
      replace (length (x :: lf') - 1)%nat with (length lf') by (cbn; lia).
      rewrite replace_scan_skip. reflexivity.
    + destruct (IH _ Hf) as (pre & post & -> & -> & Hscan).
      exists (c :: pre), post. split; [reflexivity|]. split; [cbn; lia|].
      rewrite Hscan. reflexivity.
Qed.

Lemma replace_loop_scan (fuel : nat) look_for replace_with (done rest : list ascii)
    (occ : Z) :
  look_for <> [] -> (length rest < fuel)%nat -> 0 <= occ < UINT32_MOD ->
  replace_loop fuel (done ++ rest) (Other look_for) (Other replace_with)
    (length done) occ
  = Some (done ++ (replace_scan look_for replace_with rest 0).1,
          (occ + Z.of_nat (replace_scan look_for replace_with rest 0).2) mod UINT32_MOD).
Proof.
  intros Hne. revert done rest occ.
  induction fuel as [|fuel IH]; intros done rest occ Hfuel Hocc; [lia|].
  cbn [replace_loop deref]. unfold find.
  destruct (Nat.leb_spec (length done) (length (done ++ rest))) as [_|Hlt];
    [|rewrite length_app in Hlt; lia].
  rewrite drop_app_length.
  destruct (find_in look_for rest (length done)) as [p|] eqn:Hf.
  - destruct (find_in_Some _ replace_with _ _ _ Hne Hf) as (pre & post & -> & -> & Hscan).
    rewrite Hscan. cbn [fst snd].
    assert (replace (done ++ pre ++ look_for ++ post) (length done + length pre)
              (length look_for) replace_with
            = (done ++ pre ++ replace_with) ++ post) as ->.
    { unfold replace. rewrite !app_assoc, <- (app_assoc _ look_for post).
      rewrite <- length_app, take_app_length.
      replace (length (done ++ pre) + length look_for)%nat
        with (length ((done ++ pre) ++ look_for)) by (by rewrite !length_app).
      rewrite app_assoc, drop_app_length. by rewrite <- !app_assoc. }
    replace (length done + length pre + length replace_with)%nat
      with (length (done ++ pre ++ replace_with)) by (rewrite !length_app; lia).
    rewrite IH.
    + f_equal. f_equal; [by rewrite <- !app_assoc|].
      rewrite Z.add_mod_idemp_l by (unfold UINT32_MOD; lia). f_equal. lia.
    + rewrite !length_app in Hfuel. destruct look_for; [done|]. cbn in Hfuel. lia.
    + apply Z.mod_pos_bound. unfold UINT32_MOD. lia.
  - rewrite (find_in_None _ replace_with _ _ Hf). cbn [fst snd].
    rewrite Z.add_0_r, Z.mod_small by exact Hocc. reflexivity.
Qed.

Lemma replace_in_string_fuel_scan (fuel : nat) s look_for replace_with :
  look_for <> [] -> (length s < fuel)%nat ->
  replace_in_string_fuel fuel s (Other look_for) (Other replace_with)
  = Some ((replace_scan look_for replace_with s 0).1,
          Z.of_nat (replace_scan look_for replace_with s 0).2 mod UINT32_MOD).
Proof.
  intros Hlf Hfuel. unfold replace_in_string_fuel. cbn [deref].
  destruct (Nat.ltb_spec 0 (length look_for)) as [_|Hz];
    [|destruct look_for; [done|cbn in Hz; lia]].
  rewrite (replace_loop_scan _ _ _ [] s 0 Hlf) by (unfold UINT32_MOD; lia).
  reflexivity.
Qed.

Lemma replace_in_string_scan_eq s look_for replace_with :
  look_for <> [] ->
  replace_in_string s (Other look_for) (Other replace_with)
  = Some ((replace_scan look_for replace_with s 0).1,
          Z.of_nat (replace_scan look_for replace_with s 0).2 mod UINT32_MOD).
Proof.
  intros Hlf. unfold replace_in_string.
  apply replace_in_string_fuel_scan; [exact Hlf|lia].
Qed.

(** X20.  With [look_for] and [replace_with] objects other than
    [mutable_input]: for a non-empty [look_for] the loop ends, having
    replaced the occurrences of [look_for] met from left to right, text
    already put in never being searched again, and returns their number
    modulo [2^32]; an empty [look_for] leaves the string alone. *)
Theorem replace_in_string_scan s look_for replace_with :
  replace_in_string s (Other look_for) (Other replace_with)
  = if decide (look_for = [])
    then Some (s, 0)
    else Some ((replace_scan look_for replace_with s 0).1,
               Z.of_nat (replace_scan look_for replace_with s 0).2 mod UINT32_MOD).
Proof.
  case_decide as Hlf.
  - by rewrite Hlf.
  - by apply replace_in_string_scan_eq.
Qed.

Lemma replace_scan_one (a : ascii) replace_with s :
  replace_scan [a] replace_with s 0
  = (concat ((fun c => if decide (c = a) then replace_with else [c]) <$> s),
     length (filter (fun c => c = a) s)).
Proof.
  induction s as [|c s IH]; [reflexivity|].
  cbn [replace_scan]. unfold starts_with.
  change ((length [a] <=? length (c :: s))%nat) with true.
  cbn [length equal_range Nat.sub andb].
  rewrite IH. cbn [fst snd fmap list_fmap concat]. rewrite filter_cons.
  destruct (decide (a = c)) as [->|Hne].
  - rewrite !decide_True by done. reflexivity.
  - rewrite !decide_False by congruence. reflexivity.
Qed.

Lemma replace_in_string_one (a b : ascii) s :
  replace_in_string s (Other [a]) (Other [b])
  = Some ((fun c => if decide (c = a) then b else c) <$> s,
          Z.of_nat (length (filter (fun c => c = a) s)) mod UINT32_MOD).
Proof.
  rewrite replace_in_string_scan_eq by done. rewrite replace_scan_one.
  cbn [fst snd]. f_equal. f_equal.
  induction s as [|c s IH]; [reflexivity|]. cbn. rewrite IH. by case_decide.
Qed.


(** *** Arguments that are [mutable_input] itself *)

Lemma find_self s : find s s 0 = Some 0%nat.
Proof.
  unfold find. cbn [Nat.leb]. rewrite drop_0.
  destruct s as [|c s]; [reflexivity|].
  cbn [find_in]. rewrite Nat.leb_refl.
  by rewrite (proj2 (equal_range_prefix (c :: s) (c :: s))).
Qed.

Lemma find_at_end s look_for : look_for <> [] -> find s look_for (length s) = None.
Proof.
  intros Hlf. unfold find. rewrite Nat.leb_refl, drop_all.
  destruct look_for; [done|reflexivity].
Qed.

Lemma find_past_end s look_for (start : nat) :
  (length s < start)%nat -> find s look_for start = None.
Proof.
  intros Hlt. unfold find. by destruct (Nat.leb_spec start (length s)); [lia|].
Qed.

Lemma find_Some_bound s look_for (found : nat) :
  find s look_for 0 = Some found -> (found + length look_for <= length s)%nat.
Proof.
  unfold find. cbn [Nat.leb]. rewrite drop_0.
  assert (forall rest pos, find_in look_for rest pos = Some found ->
            (found + length look_for <= pos + length rest)%nat) as Hgen.
  { induction rest as [|c rest IH]; intros pos Hf; cbn [find_in] in Hf.
    - destruct (_ && _) eqn:Ht; [|discriminate]. injection Hf as <-.
      apply andb_true_iff in Ht as [Hl _]. apply Nat.leb_le in Hl. lia.
    - destruct (_ && _) eqn:Ht.
      + injection Hf as <-. apply andb_true_iff in Ht as [Hl _].
        apply Nat.leb_le in Hl. lia.
      + specialize (IH _ Hf). cbn [length]. lia. }
  intros Hf. by apply Hgen in Hf.
Qed.

(** With [look_for] the string itself and an empty [replace_with], the
    first iteration empties the string and every later one finds the empty
    string in the empty string. *)
Lemma replace_loop_empty_self (fuel : nat) (occ : Z) :
  replace_loop fuel [] Same (Other []) 0 occ = None.
Proof.
  revert occ. induction fuel as [|fuel IH]; intros occ; [reflexivity|].
  cbn. apply IH.
Qed.

Lemma replace_loop_more_fuel (fuel extra : nat) s (look_for replace_with : const_ref)
    (start : nat) (occ : Z) (r : list ascii * Z) :
  replace_loop fuel s look_for replace_with start occ = Some r ->
  replace_loop (fuel + extra) s look_for replace_with start occ = Some r.
Proof.
  revert s start occ. induction fuel as [|fuel IH]; intros s start occ Hr;
    [discriminate|].
  cbn [replace_loop Nat.add] in Hr |- *.
  destruct (find s (deref look_for s) start); [|exact Hr].
  by apply IH.
Qed.

(** What the call does with an argument that is [mutable_input]. *)
Lemma replace_in_string_fuel_self (fuel : nat) s :
  s <> [] ->
  replace_in_string_fuel fuel s Same (Other []) = None
  /\ (forall replace_with, replace_with <> [] ->
        replace_in_string_fuel (S (S fuel)) s Same (Other replace_with)
        = Some (replace_with, 1))
  /\ replace_in_string_fuel (S (S fuel)) s Same Same = Some (s, 1).
Proof.
  intros Hs. unfold replace_in_string_fuel. cbn [deref].
  destruct (Nat.ltb_spec 0 (length s)) as [_|Hz];
    [|destruct s; [done|cbn in Hz; lia]].
  split_and!.
  - destruct fuel as [|fuel]; [reflexivity|].
    cbn [replace_loop deref]. rewrite find_self. cbn zeta.
    unfold replace. cbn [take Nat.add app length]. rewrite drop_all.
    apply replace_loop_empty_self.
  - intros replace_with Hrw.
    cbn [replace_loop deref]. rewrite find_self. cbn zeta.
    unfold replace. cbn [take Nat.add app]. rewrite drop_all, app_nil_r.
    by rewrite find_at_end.
  - cbn [replace_loop deref]. rewrite find_self. cbn zeta.
    unfold replace. cbn [take Nat.add app]. rewrite drop_all, app_nil_r.
    by rewrite find_at_end.
Qed.

Lemma replace_in_string_fuel_self_replace_with (fuel : nat) s look_for :
  look_for <> [] ->
  replace_in_string_fuel (S (S fuel)) s (Other look_for) Same
  = match find s look_for 0 with
    | Some found =>
        Some (take found s ++ s ++ drop (found + length look_for) s, 1)
    | None => Some (s, 0)
    end.
Proof.
  intros Hlf. unfold replace_in_string_fuel. cbn [deref].
  destruct (Nat.ltb_spec 0 (length look_for)) as [Hpos|Hz];
    [|destruct look_for; [done|cbn in Hz; lia]].
  cbn [replace_loop deref].
  destruct (find s look_for 0) as [found|] eqn:Hf; [|reflexivity].
  cbn zeta. unfold replace.
  pose proof (find_Some_bound _ _ _ Hf) as Hb.
  set (replaced := take found s ++ s ++ drop (found + length look_for) s).
  assert (length replaced = (found + length s + (length s - (found + length look_for)))%nat)
    as Hlen.
  { subst replaced. rewrite !length_app, length_take, length_drop. lia. }
  destruct (decide (found = 0%nat)) as [->|Hnz].
  - cbn [Nat.add]. by rewrite find_at_end.
  - rewrite find_past_end by lia. reflexivity.
Qed.

(** The fuel of [replace_in_string] is enough whenever the loop ends. *)
Lemma replace_in_string_fuel_enough (fuel : nat) s (look_for replace_with : const_ref)
    (r : list ascii * Z) :
  replace_in_string_fuel fuel s look_for replace_with = Some r ->
  replace_in_string s look_for replace_with = Some r.
Proof.
  intros Hr. unfold replace_in_string.
  destruct (decide (deref look_for s = [])) as [Hempty|Hne].
  { unfold replace_in_string_fuel in *. rewrite Hempty in *. exact Hr. }
  assert (replace_in_string_fuel (fuel + S (S (length s))) s look_for replace_with
          = Some r) as Hbig.
  { unfold replace_in_string_fuel in *.
    destruct (0 <? length (deref look_for s))%nat; [|exact Hr].
    by apply replace_loop_more_fuel. }
  destruct look_for as [look_for|]; cbn [deref] in Hne.
  - destruct replace_with as [replace_with|].
    + rewrite replace_in_string_fuel_scan in Hbig |- * by (done || lia). exact Hbig.
    + replace (fuel + S (S (length s)))%nat with (S (S (fuel + length s))) in Hbig by lia.
      rewrite replace_in_string_fuel_self_replace_with in Hbig |- * by done.
      exact Hbig.
  - destruct (replace_in_string_fuel_self (fuel + length s) s Hne) as (_ & Hrw & Hself).
    destruct (replace_in_string_fuel_self (length s) s Hne) as (_ & Hrw' & Hself').
    replace (fuel + S (S (length s)))%nat with (S (S (fuel + length s))) in Hbig by lia.
    destruct replace_with as [[|c replace_with]|].
    + destruct (replace_in_string_fuel_self fuel s Hne) as (Hnone & _).
      rewrite Hnone in Hr. discriminate.
    + rewrite Hrw in Hbig by done. rewrite Hrw' by done. exact Hbig.
    + rewrite Hself in Hbig. rewrite Hself'. exact Hbig.
Qed.

(** X30.  Arguments that are the object [mutable_input] itself, for a
    non-empty string [s].  With [look_for] the string itself and an empty
    [replace_with], the first replacement empties [look_for] along with the
    string and the loop never ends.  With [look_for] the string itself and
    a non-empty [replace_with], the string becomes [replace_with], count 1;
    with both arguments the string itself it is left as it is, count 1.
    With [replace_with] the string itself and another, non-empty
    [look_for], only the first occurrence of [look_for] is replaced, by the
    value the string had, since the next search starts past the end of the
    new string. *)
Theorem replace_in_string_aliased s :
  s <> [] ->
  (forall fuel, replace_in_string_fuel fuel s Same (Other []) = None)
  /\ (forall replace_with, replace_with <> [] ->
        replace_in_string s Same (Other replace_with) = Some (replace_with, 1))
  /\ replace_in_string s Same Same = Some (s, 1)
  /\ (forall look_for, look_for <> [] ->
        replace_in_string s (Other look_for) Same
        = match find s look_for 0 with
          | Some found =>
              Some (take found s ++ s ++ drop (found + length look_for) s, 1)
          | None => Some (s, 0)
          end).
Proof.
  intros Hs. split_and!.
  - intros fuel. by apply replace_in_string_fuel_self.
  - intros replace_with Hrw. unfold replace_in_string.
    by apply replace_in_string_fuel_self.
  - unfold replace_in_string. by apply replace_in_string_fuel_self.
  - intros look_for Hlf. unfold replace_in_string.
    by apply replace_in_string_fuel_self_replace_with.
Qed.

(** X22.  A string without any occurrence of a non-empty [look_for] is
    returned as it is, with count 0, whatever [replace_with] refers to.  (A
    [look_for] that is the string itself occurs in it.) *)
Theorem replace_in_string_absent s look_for (replace_with : const_ref) :
  look_for <> [] ->
  (forall pre post, s <> pre ++ look_for ++ post) ->
  replace_in_string s (Other look_for) replace_with = Some (s, 0).
Proof.
  intros Hlf Habs.
  assert (find s look_for 0 = None) as Hfind.
  { unfold find. cbn [Nat.leb]. rewrite drop_0.
    destruct (find_in look_for s 0) as [p|] eqn:Hf; [|reflexivity].
    destruct (find_in_Some _ [] _ _ _ Hlf Hf) as (pre & post & Hs & _).
    by destruct (Habs pre post). }
  destruct replace_with as [replace_with|].
  - rewrite replace_in_string_scan_eq by exact Hlf.
    unfold find in Hfind. cbn [Nat.leb] in Hfind. rewrite drop_0 in Hfind.
    by rewrite (find_in_None _ replace_with _ _ Hfind).
  - unfold replace_in_string.
    rewrite replace_in_string_fuel_self_replace_with by exact Hlf.
    by rewrite Hfind.
Qed.

Lemma replace_scan_length look_for replace_with s :
  look_for <> [] ->
  (length (replace_scan look_for replace_with s 0).1
   + (replace_scan look_for replace_with s 0).2 * length look_for
   = length s + (replace_scan look_for replace_with s 0).2 * length replace_with)%nat.
Proof.
  intros Hlf. remember (length s) as n eqn:Hn.
  revert s Hn. induction n as [n IH] using lt_wf_ind. intros s ->.
  destruct (find_in look_for s 0) as [p|] eqn:Hf.
  - destruct (find_in_Some _ replace_with _ _ _ Hlf Hf)
      as (pre & post & -> & _ & ->).
    cbn [fst snd].
    assert (length post < length (pre ++ look_for ++ post))%nat as Hshort.
    { rewrite !length_app. destruct look_for; [done|cbn; lia]. }
    specialize (IH _ Hshort post eq_refl).
    rewrite !length_app in *. lia.
  - rewrite (find_in_None _ replace_with _ _ Hf). cbn. lia.
Qed.

(** *** normalize_path *)

Lemma normalize_path_separators_ex (windows : bool) (path : list ascii) :
  exists p,
    normalize_path windows path = Some p
    /\ (length p <= length path)%nat
    /\ get_platform_separator (negb windows) ∉ p.
Proof.
  unfold normalize_path.
  rewrite (replace_in_string_scan_eq path [slash; slash] [slash]) by done.
  cbn [mbind option_bind fst].
  pose proof (replace_scan_length [slash; slash] [slash] path ltac:(done)) as Hlen.
  cbn [length] in Hlen.
  set (r1 := (replace_scan [slash; slash] [slash] path 0).1) in *.
  assert (length r1 <= length path)%nat as Hr1 by lia. clear Hlen.
  assert (forall (a b : ascii) (q : list ascii), a <> b ->
            let out := (fun c => if decide (c = a) then b else c) <$> q in
            let p := if (0 <? length out)%nat && bool_decide (last out = Some b)
                     then take (length out - 1) out else out in
            (length p <= length q)%nat /\ a ∉ p) as Hmap.
  { intros a b q Hab out p.
    assert (a ∉ out) as Hout.
    { subst out. intros (c & Hc & _)%list_elem_of_fmap. by case_decide. }
    assert (length out = length q) as Hlo by (subst out; by rewrite length_fmap).
    subst p. destruct (_ && _).
    - split; [rewrite length_take; lia|].
      intros Hin. apply Hout. by apply (subseteq_take (length out - 1) out).
    - split; [lia|exact Hout]. }
  destruct windows; cbn [get_platform_separator negb].
  - rewrite decide_False by (by vm_compute).
    rewrite decide_True by done. rewrite replace_in_string_one.
    cbn [mbind option_bind fst].
    eexists. split; [reflexivity|].
    destruct (Hmap slash backslash r1 ltac:(by vm_compute)) as [H1 H2].
    split; [etrans; [exact H1|exact Hr1]|exact H2].
  - rewrite decide_True by done. rewrite replace_in_string_one.
    cbn [mbind option_bind fst].
    eexists. split; [reflexivity|].
    destruct (Hmap backslash slash r1 ltac:(by vm_compute)) as [H1 H2].
    split; [etrans; [exact H1|exact Hr1]|exact H2].
Qed.

(** X23.  On either platform [normalize_path] returns, the result is no
    longer than the path, and the separator of the other platform does not
    occur in it. *)
Theorem normalize_path_separators (windows : bool) (path : list ascii) :
  exists p,
    normalize_path windows path = Some p
    /\ (length p <= length path)%nat
    /\ get_platform_separator (negb windows) ∉ p.
Proof. apply normalize_path_separators_ex. Qed.

(** *** split *)

Lemma split_stream_pieces rest (delim : ascii) (item : list ascii) (extracted : bool) :
  delim ∉ item ->
  Forall (fun piece => delim ∉ piece) (split_stream rest delim item extracted).
Proof.
  revert item extracted. induction rest as [|c rest IH]; intros item extracted Hitem.
  - cbn. destruct extracted; repeat constructor; exact Hitem.
  - cbn [split_stream]. case_decide as Hc.
    + constructor; [exact Hitem|]. apply IH. apply not_elem_of_nil.
    + apply IH. rewrite not_elem_of_app. split; [exact Hitem|].
      rewrite list_elem_of_singleton. congruence.
Qed.

Lemma split_stream_extracted rest (delim : ascii) (item : list ascii) :
  split_stream rest delim item true <> [].
Proof.
  revert item. induction rest as [|c rest IH]; intros item; [done|].
  cbn [split_stream]. case_decide; [done|apply IH].
Qed.

Lemma split_stream_nil rest (delim : ascii) :
  split_stream rest delim [] false = [] -> rest = [].
Proof.
  destruct rest as [|c rest]; [done|]. cbn [split_stream].
  case_decide; [done|]. intros Hnil. by apply split_stream_extracted in Hnil.
Qed.

Lemma split_stream_join rest (delim : ascii) (item : list ascii) :
  delim ∉ item ->
  if bool_decide (last (item ++ rest) = Some delim)
  then join delim (split_stream rest delim item (bool_decide (item <> []))) ++ [delim]
       = item ++ rest
  else join delim (split_stream rest delim item (bool_decide (item <> [])))
       = item ++ rest.
Proof.
  revert item. induction rest as [|c rest IH]; intros item Hitem.
  - rewrite app_nil_r. cbn [split_stream].
    rewrite bool_decide_eq_false_2.
    + destruct item; [reflexivity|]. rewrite bool_decide_eq_true_2 by done. reflexivity.
    + intros Hl. apply Hitem. by apply last_Some_elem_of.
  - cbn [split_stream]. case_decide as Hc.
    + subst c. specialize (IH [] (not_elem_of_nil _)).
      rewrite (bool_decide_eq_false_2 (@nil ascii <> [])) in IH
        by (intros Hnn; by apply Hnn).
      cbn [app] in IH.
      destruct rest as [|c' rest].
      * cbn [split_stream join]. rewrite last_snoc.
        by rewrite bool_decide_eq_true_2.
      * assert (split_stream (c' :: rest) delim [] false <> []) as Hne
          by (intros Hnil; by apply split_stream_nil in Hnil).
        assert (last (item ++ delim :: c' :: rest) = last (c' :: rest)) as ->.
        { rewrite (last_app item), last_cons_cons.
          pose proof (last_cons c' rest) as Hl.
          destruct (last (c' :: rest)); [done|]. by destruct (last rest). }
        destruct (split_stream (c' :: rest) delim [] false) as [|piece pieces] eqn:Hsp;
          [done|].
        change (join delim (item :: piece :: pieces))
          with (item ++ delim :: join delim (piece :: pieces)).
        destruct (bool_decide (last (c' :: rest) = Some delim)).
        -- rewrite <- app_assoc. cbn [app]. by rewrite IH.
        -- by rewrite IH.
    + specialize (IH (item ++ [c])).
      rewrite <- app_assoc in IH. cbn [app] in IH.
      rewrite (bool_decide_eq_true_2 (item ++ [c] <> [])) in IH
        by (by destruct item).
      apply IH. rewrite not_elem_of_app, list_elem_of_singleton. split; congruence.
Qed.

(** X24.  No piece contains the delimiter; the pieces joined by the
    delimiter give back the string, except that a delimiter at the very end
    of the string closes the last piece without opening another one.  The
    empty string has no piece. *)
Theorem split_join s (delim : ascii) :
  Forall (fun piece => delim ∉ piece) (split s delim)
  /\ (if bool_decide (last s = Some delim)
      then join delim (split s delim) ++ [delim] = s
      else join delim (split s delim) = s)
  /\ (split s delim = [] <-> s = []).
Proof.
  split_and!.
  - apply split_stream_pieces, not_elem_of_nil.
  - pose proof (split_stream_join s delim [] (not_elem_of_nil _)) as Hj.
    rewrite (bool_decide_eq_false_2 (@nil ascii <> [])) in Hj
      by (intros Hnn; by apply Hnn).
    exact Hj.
  - split; [apply split_stream_nil|by intros ->].
Qed.

(** *** Extensions *)

Lemma find_last_of_None s (c : ascii) : find_last_of s c = None <-> c ∉ s.
Proof.
  induction s as [|x s IH]; cbn.
  - split; [intros _; apply not_elem_of_nil|done].
  - rewrite not_elem_of_cons. destruct (find_last_of s c) as [i|].
    + split; [done|]. intros [_ Hs]. by apply IH in Hs.
    + case_decide as Hx; [subst x; split; [done|intros [? _]; done]|].
      split; [intros _; split; [congruence|by apply IH]|done].
Qed.

Lemma find_last_of_app s (c : ascii) (e : list ascii) :
  c ∉ e -> find_last_of (s ++ c :: e) c = Some (length s).
Proof.
  intros He. apply find_last_of_None in He.
  induction s as [|x s IH]; cbn.
  - rewrite He. by rewrite decide_True.
  - by rewrite IH.
Qed.

Lemma find_last_of_Some s (c : ascii) (i : nat) :
  find_last_of s c = Some i ->
  s = take i s ++ c :: drop (S i) s /\ c ∉ drop (S i) s.
Proof.
  revert i. induction s as [|x s IH]; intros i; cbn; [done|].
  destruct (find_last_of s c) as [j|] eqn:Hj.
  - intros [= <-]. destruct (IH j eq_refl) as [Heq Hno]. cbn.
    split; [by rewrite <- Heq|exact Hno].
  - case_decide as Hx; [|done]. intros [= <-]. subst x. cbn. rewrite drop_0.
    split; [reflexivity|by apply find_last_of_None].
Qed.

Lemma get_extension_dotted (stem e : list ascii) :
  "."%char ∉ e -> get_extension (stem ++ "."%char :: e) = e.
Proof.
  intros He. unfold get_extension. rewrite find_last_of_app by exact He.
  replace (length stem + 1)%nat with (length (stem ++ ["."%char]))
    by (rewrite length_app; cbn; lia).
  replace (stem ++ "."%char :: e) with ((stem ++ ["."%char]) ++ e)
    by (by rewrite <- app_assoc).
  by rewrite drop_app_length.
Qed.

(** X25.  [get_extension] returns what follows the last dot, which thus
    contains no dot, and the empty string when the path has no dot. *)
Theorem get_extension_last_dot (path : list ascii) :
  ("."%char ∉ get_extension path)
  /\ ("."%char ∉ path -> get_extension path = [])
  /\ (forall stem e, path = stem ++ "."%char :: e -> "."%char ∉ e ->
        get_extension path = e).
Proof.
  unfold get_extension. split_and!.
  - destruct (find_last_of path ".") as [i|] eqn:Hf; [|apply not_elem_of_nil].
    apply find_last_of_Some in Hf as [_ Hno].
    by replace (i + 1)%nat with (S i) by lia.
  - intros Hno. apply find_last_of_None in Hno. by rewrite Hno.
  - intros stem e -> He. fold (get_extension (stem ++ "."%char :: e)).
    by apply get_extension_dotted.
Qed.

Lemma replace_extension_dotted (stem e extension : list ascii) :
  "."%char ∉ e ->
  replace_extension (stem ++ "."%char :: e) extension = stem ++ extension.
Proof.
  intros He. unfold replace_extension, replace.
  rewrite find_last_of_app by exact He.
  rewrite take_app_length. rewrite drop_ge by lia. by rewrite app_nil_r.
Qed.

(** X26.  [replace_extension] cuts the path at its last dot, the dot
    included, and appends the extension; without a dot it appends to the
    whole path.  With an extension made of a dot and a dot-free suffix, the
    suffix is what [get_extension] reads back, and replacing twice is
    replacing once with the second extension. *)
Theorem replace_extension_round_trip (path e e' : list ascii) :
  "."%char ∉ e ->
  "."%char ∉ e' ->
  get_extension (replace_extension path ("."%char :: e)) = e
  /\ replace_extension (replace_extension path ("."%char :: e)) ("."%char :: e')
     = replace_extension path ("."%char :: e').
Proof.
  intros He He'.
  assert (exists stem, forall x, "."%char ∉ x ->
            replace_extension path ("."%char :: x) = stem ++ "."%char :: x) as [stem Hstem].
  { destruct (find_last_of path ".") as [i|] eqn:Hf.
    - apply find_last_of_Some in Hf as [Heq Hno].
      exists (take i path). intros x Hx. rewrite Heq at 1.
      by apply replace_extension_dotted.
    - exists path. intros x _. unfold replace_extension. by rewrite Hf. }
  rewrite !Hstem by assumption. split.
  - by apply get_extension_dotted.
  - by apply replace_extension_dotted.
Qed.

(** *** File names and directories *)

Lemma substr_whole (s : list ascii) (pos : nat) (count : Z) :
  Z.of_nat (length s - pos) <= count -> substr s pos count = drop pos s.
Proof.
  intros Hc. unfold substr. rewrite Z.min_r by exact Hc. rewrite Nat2Z.id.
  apply take_ge. by rewrite length_drop.
Qed.

Lemma substr_middle (a b c : list ascii) :
  substr (a ++ b ++ c) (length a) (Z.of_nat (length b)) = b.
Proof.
  unfold substr. rewrite drop_app_length.
  rewrite Z.min_l by (rewrite !length_app; lia).
  by rewrite Nat2Z.id, take_app_length.
Qed.

Lemma find_last_of_app_l (pre suffix : list ascii) (c : ascii) :
  c ∉ suffix -> find_last_of (pre ++ suffix) c = find_last_of pre c.
Proof.
  intros Hs. apply find_last_of_None in Hs.
  induction pre as [|x pre IH]; cbn; [exact Hs|]. by rewrite IH.
Qed.

Lemma find_last_of_lt s (c : ascii) (i : nat) :
  find_last_of s c = Some i -> (i < length s)%nat.
Proof.
  revert i. induction s as [|x s IH]; intros i; cbn; [done|].
  destruct (find_last_of s c) as [j|].
  - intros [= <-]. specialize (IH j eq_refl). lia.
  - case_decide; [|done]. intros [= <-]. lia.
Qed.

(** X27.  [get_filename_without_extension] needs both a dot and a
    separator to do anything: a path without separator, or without dot, is
    returned whole, extension included.  For [dir/name.ext] without
    backslash it returns [name].  When the last dot lies before the last
    slash the length [end - start] wraps around and everything after the
    slash is returned. *)
Theorem get_filename_without_extension_cases (path : list ascii) :
  Z.of_nat (length path) < SIZE_MOD ->
  (slash ∉ path -> backslash ∉ path -> get_filename_without_extension path = path)
  /\ ("."%char ∉ path -> get_filename_without_extension path = path)
  /\ (forall dir name ext,
        path = dir ++ slash :: name ++ "."%char :: ext ->
        backslash ∉ path -> slash ∉ name -> slash ∉ ext -> "."%char ∉ ext ->
        get_filename_without_extension path = name)
  /\ (forall dir name,
        path = dir ++ slash :: name ->
        backslash ∉ path -> slash ∉ name -> "."%char ∉ name -> "."%char ∈ dir ->
        get_filename_without_extension path = name).
Proof.
  intros Hsize. unfold get_filename_without_extension. split_and!.
  - intros Hs Hb. apply find_last_of_None in Hs, Hb. rewrite Hs, Hb.
    by destruct (find_last_of path ".").
  - intros Hd. apply find_last_of_None in Hd. by rewrite Hd.
  - intros dir name ext -> Hb Hn He Hd.
    apply find_last_of_None in Hb. rewrite Hb.
    assert (find_last_of (dir ++ slash :: name ++ "."%char :: ext) "."
            = Some (length (dir ++ slash :: name))) as ->.
    { replace (dir ++ slash :: name ++ "."%char :: ext)
        with ((dir ++ slash :: name) ++ "."%char :: ext)
        by (by rewrite <- app_assoc).
      by apply find_last_of_app. }
    rewrite find_last_of_app
      by (rewrite not_elem_of_app, not_elem_of_cons; split_and!; try done;
          by vm_compute).
    cbn zeta.
    replace ((Z.of_nat (length (dir ++ slash :: name)) - Z.of_nat (length dir + 1))
               mod SIZE_MOD) with (Z.of_nat (length name)).
    + replace (length dir + 1)%nat with (length (dir ++ [slash]))
        by (rewrite length_app; cbn; lia).
      replace (dir ++ slash :: name ++ "."%char :: ext)
        with ((dir ++ [slash]) ++ name ++ "."%char :: ext)
        by (by rewrite <- app_assoc).
      apply substr_middle.
    + rewrite !length_app in *. cbn [length] in *. rewrite length_app in Hsize.
      replace (Z.of_nat (length dir + S (length name)) - Z.of_nat (length dir + 1))
        with (Z.of_nat (length name)) by lia.
      symmetry. apply Z.mod_small. lia.
  - intros dir name -> Hb Hn Hd Hdir.
    apply find_last_of_None in Hb. rewrite Hb.
    rewrite (find_last_of_app dir slash name Hn).
    rewrite (find_last_of_app_l dir (slash :: name))
      by (rewrite not_elem_of_cons; split; [by vm_compute|done]).
    destruct (find_last_of dir ".") as [e|] eqn:He.
    + cbn zeta. apply find_last_of_lt in He.
      replace (dir ++ slash :: name) with ((dir ++ [slash]) ++ name)
        by (by rewrite <- app_assoc).
      replace (length dir + 1)%nat with (length (dir ++ [slash]))
        by (rewrite length_app; cbn; lia).
      rewrite substr_whole; [by rewrite drop_app_length|].
      rewrite !length_app in *. cbn [length] in *.
      rewrite <- (Z.mod_add _ 1) by (unfold SIZE_MOD; lia).
      rewrite Z.mod_small; unfold SIZE_MOD in *; lia.
    + apply find_last_of_None in He. done.
Qed.

(** X28.  [parent_directory_from_filepath] returns, and cuts the path as
    given, not the normalized one: at its last backslash when it has one,
    whatever follows; else at its last slash; a path without separator is
    returned whole. *)
Theorem parent_directory_cases (windows : bool) (path : list ascii) :
  exists parent,
    parent_directory_from_filepath windows path = Some parent
    /\ (forall dir rest, path = dir ++ backslash :: rest -> backslash ∉ rest ->
          parent = dir)
    /\ (forall dir rest, path = dir ++ slash :: rest -> backslash ∉ path ->
          slash ∉ rest -> parent = dir)
    /\ (backslash ∉ path -> slash ∉ path -> parent = path).
Proof.
  unfold parent_directory_from_filepath.
  destruct (normalize_path_separators_ex windows path) as (np & -> & _).
  cbn [mbind option_bind].
  assert (forall dir rest, substr (dir ++ rest) 0 (Z.of_nat (length dir)) = dir) as Hcut.
  { intros dir rest. apply (substr_middle [] dir rest). }
  destruct (find_last_of path backslash) as [e|] eqn:Hb.
  - eexists. split; [reflexivity|]. split_and!.
    + intros dir rest -> Hr. rewrite find_last_of_app in Hb by exact Hr.
      injection Hb as <-. apply Hcut.
    + intros dir rest _ Hno _. apply find_last_of_None in Hno. congruence.
    + intros Hno _. apply find_last_of_None in Hno. congruence.
  - apply find_last_of_None in Hb.
    destruct (find_last_of path slash) as [e|] eqn:Hs.
    + eexists. split; [reflexivity|]. split_and!.
      * intros dir rest -> _. exfalso. apply Hb, elem_of_app. right. left.
      * intros dir rest -> _ Hr. rewrite find_last_of_app in Hs by exact Hr.
        injection Hs as <-. apply Hcut.
      * intros _ Hno. apply find_last_of_None in Hno. congruence.
    + apply find_last_of_None in Hs.
      eexists. split; [reflexivity|]. split_and!.
      * intros dir rest -> _. exfalso. apply Hb, elem_of_app. right. left.
      * intros dir rest -> _ _. exfalso. apply Hs, elem_of_app. right. left.
      * done.
Qed.

(** X29.  [get_filename_with_extension] returns, leaves the normalized
    path in its argument, and returns what follows the last platform
    separator of the normalized path, the whole of it when it has none; the
    result contains no separator of either platform. *)
Theorem get_filename_with_extension_cases (windows : bool) (path : list ascii) :
  exists name normalized,
    get_filename_with_extension windows path = Some (name, normalized)
    /\ normalize_path windows path = Some normalized
    /\ (slash ∉ name) /\ (backslash ∉ name)
    /\ (get_platform_separator windows ∉ normalized -> name = normalized)
    /\ (get_platform_separator windows ∈ normalized ->
        exists dir, normalized = dir ++ get_platform_separator windows :: name).
Proof.
  unfold get_filename_with_extension.
  destruct (normalize_path_separators_ex windows path) as (np & Hnp & _ & Hother).
  rewrite Hnp. cbn [mbind option_bind].
  assert (forall c : ascii,
            (c ∉ drop (after (find_last_of np c)) np)
            /\ (c ∉ np -> drop (after (find_last_of np c)) np = np)
            /\ (c ∈ np -> exists dir,
                  np = dir ++ c :: drop (after (find_last_of np c)) np)) as Hcut.
  { intros c. destruct (find_last_of np c) as [i|] eqn:Hf; cbn [after].
    - apply find_last_of_Some in Hf as [Heq Hno].
      replace (i + 1)%nat with (S i) by lia. split_and!.
      + exact Hno.
      + intros Hc. exfalso. apply Hc. rewrite Heq. apply elem_of_app. right. left.
      + intros _. by exists (take i np).
    - apply find_last_of_None in Hf. rewrite drop_0. split_and!; done. }
  assert (forall (c : ascii) n, c ∉ np -> c ∉ drop n np) as Hdrop.
  { intros c n Hc Hin. apply Hc. by apply (subseteq_drop n np). }
  destruct windows; cbn [get_platform_separator negb] in *.
  - rewrite decide_False by (by vm_compute). rewrite decide_True by done.
    destruct (Hcut backslash) as (H1 & H2 & H3).
    eexists _, _. split; [reflexivity|]. split_and!; auto.
  - rewrite decide_True by done.
    destruct (Hcut slash) as (H1 & H2 & H3).
    eexists _, _. split; [reflexivity|]. split_and!; auto.
Qed.

End strings.

Lemma replace_in_string_absent_witness :
  StringUtils.replace_in_string ["a"; "b"]%char
    (StringUtils.Other ["/"; "/"]%char) (StringUtils.Other ["/"]%char)
  = Some (["a"; "b"]%char, 0)
  /\ StringUtils.replace_in_string ["a"; "b"]%char
       (StringUtils.Other ["/"; "/"]%char) StringUtils.Same
     = Some (["a"; "b"]%char, 0).
Proof.
  split.
  - apply (replace_in_string_absent ["a"; "b"]%char ["/"; "/"]%char
             (StringUtils.Other ["/"]%char)).
    + discriminate.
    + intros pre post Heq.
      destruct pre as [|x [|y [|z pre]]]; cbn in Heq; inversion Heq.
  - apply (replace_in_string_absent ["a"; "b"]%char ["/"; "/"]%char StringUtils.Same).
    + discriminate.
    + intros pre post Heq.
      destruct pre as [|x [|y [|z pre]]]; cbn in Heq; inversion Heq.
Defined.

Lemma replace_in_string_aliased_witness :
  (forall fuel,
     StringUtils.replace_in_string_fuel fuel ["a"; "a"]%char
       StringUtils.Same (StringUtils.Other []) = None)
  /\ StringUtils.replace_in_string ["a"; "a"]%char
       StringUtils.Same (StringUtils.Other ["b"]%char)
     = Some (["b"]%char, 1)
  /\ StringUtils.replace_in_string ["a"; "a"]%char StringUtils.Same StringUtils.Same
     = Some (["a"; "a"]%char, 1)
  /\ StringUtils.replace_in_string ["a"; "a"]%char
       (StringUtils.Other ["a"]%char) StringUtils.Same
     = Some (["a"; "a"; "a"]%char, 1).
Proof.
  pose proof (replace_in_string_aliased ["a"; "a"]%char ltac:(discriminate))
    as (Hloop & Hlf & Hboth & Hrw).
  split_and!.
  - exact Hloop.
  - apply Hlf. discriminate.
  - exact Hboth.
  - apply (Hrw ["a"]%char). discriminate.
Defined.

Lemma replace_extension_round_trip_witness :
  let path := ["a"; "."; "b"; "/"; "c"; "."; "t"; "x"; "t"]%char in
  StringUtils.get_extension (StringUtils.replace_extension path ["."; "p"; "n"; "g"]%char)
  = ["p"; "n"; "g"]%char
  /\ StringUtils.replace_extension
       (StringUtils.replace_extension path ["."; "p"; "n"; "g"]%char) ["."; "j"]%char
     = StringUtils.replace_extension path ["."; "j"]%char.
Proof.
  apply (replace_extension_round_trip
           ["a"; "."; "b"; "/"; "c"; "."; "t"; "x"; "t"]%char
           ["p"; "n"; "g"]%char ["j"]%char).
  - rewrite !not_elem_of_cons. split_and!; try discriminate. apply not_elem_of_nil.
  - rewrite !not_elem_of_cons. split_and!; try discriminate. apply not_elem_of_nil.
Defined.

Lemma get_filename_without_extension_cases_witness :
  StringUtils.get_filename_without_extension ["i"; "m"; "."; "p"]%char
  = ["i"; "m"; "."; "p"]%char
  /\ StringUtils.get_filename_without_extension ["d"; "/"; "n"; "."; "e"]%char
     = ["n"]%char.
Proof.
  assert (forall (c : ascii) (l : list ascii), bool_decide (c ∉ l) = true -> c ∉ l)
    as Hdec by (intros c l; apply bool_decide_eq_true_1).
  split.
  - apply (proj1 (get_filename_without_extension_cases ["i"; "m"; "."; "p"]%char
                    ltac:(cbn; unfold StringUtils.SIZE_MOD; lia)));
      apply Hdec; vm_compute; reflexivity.
  - apply (proj1 (proj2 (proj2
             (get_filename_without_extension_cases ["d"; "/"; "n"; "."; "e"]%char
                ltac:(cbn; unfold StringUtils.SIZE_MOD; lia))))
             ["d"]%char ["n"]%char ["e"]%char);
      first [reflexivity | apply Hdec; vm_compute; reflexivity].
Defined.

(** ** Runs on small inputs *)

Example five_items_two_workers :
  Partitioner.particle_parallel_for 8 5 2 = Ok [[0; 1; 2]; [3; 4]].
Proof. reflexivity. Qed.

Example ten_items_hardware_four :
  Partitioner.particle_parallel_for 4 10 0 = Ok [[0; 1; 2]; [3; 4; 5]; [6; 7]; [8; 9]].
Proof. reflexivity. Qed.

Example fewer_items_than_hint :
  Partitioner.particle_parallel_for 8 3 16 = Ok [[0]; [1]; [2]].
Proof. reflexivity. Qed.

Example three_entities_two_threads :
  (ECS.create_entities [0; 1; 0]%nat (ECS.new_orchestrator (poly_typeid := N))).1
  = [(0%nat, 1); (1%nat, 2); (0%nat, 3)].
Proof. reflexivity. Qed.

Example second_system_address :
  (ECS.create_system 7%N (ECS.create_system 7%N (ECS.new_world (poly_typeid := N))).2).1
  = 2%N.
Proof. vm_compute. reflexivity. Qed.

Example split_drops_trailing_delimiter :
  StringUtils.split ["a"; ","; "b"; ","]%char ","%char = [["a"]; ["b"]]%char.
Proof. reflexivity. Qed.

Example replace_does_not_rescan :
  StringUtils.replace_in_string ["a"; "/"; "/"; "/"; "b"]%char
    (StringUtils.Other ["/"; "/"]%char) (StringUtils.Other ["/"]%char)
  = Some (["a"; "/"; "/"; "b"]%char, 1).
Proof. reflexivity. Qed.

Example replace_with_the_string_itself :
  StringUtils.replace_in_string ["a"; "a"]%char
    (StringUtils.Other ["a"]%char) StringUtils.Same
  = Some (["a"; "a"; "a"]%char, 1).
Proof. reflexivity. Qed.

Example extension_without_dot_eats_the_dot :
  StringUtils.replace_extension ["a"; "."; "b"]%char ["c"]%char = ["a"; "c"]%char.
Proof. reflexivity. Qed.
